(** * A shallow embedding of the constraint-propagation Sudoku solver

    The C++ program represents every cell of a 9x9 grid by a [Possible]
    (a [vector<bool>] of nine flags), keeps three static tables describing
    the 27 groups, and solves by the mutually recursive [assign] /
    [eliminate] propagation plus a depth-first [solve].

    Conventions of the embedding:
    - an [int] is a [Z]; every value that occurs stays far from overflow;
    - a [vector<T>] is a [list T]; [operator[]] outside the bounds is
      undefined behaviour and is modelled by the outcome [UB];
    - member functions that mutate the object take the old state and
      return the new one; a [bool] result travels with the state that the
      call leaves behind, also when the call reports failure;
    - recursion that is not structural takes a [fuel] bound on its depth
      and answers [OutOfFuel] when the bound is hit. *)

From Stdlib Require Import String Ascii ZArith List Bool Lia.
Import ListNotations.
Open Scope Z_scope.

(** ** Outcomes *)

Inductive res (A : Type) : Type :=
| Ret (a : A)
| UB
| OutOfFuel.

Arguments Ret {A} a.
Arguments UB {A}.
Arguments OutOfFuel {A}.

Definition bind {A B : Type} (m : res A) (f : A -> res B) : res B :=
  match m with
  | Ret a => f a
  | UB => UB
  | OutOfFuel => OutOfFuel
  end.

Notation "x <- m ;; f" := (bind m (fun x => f))
  (at level 61, m at next level, right associativity).

(** ** Vectors *)

Fixpoint upd {A : Type} (v : list A) (n : nat) (x : A) : list A :=
  match v, n with
  | [], _ => []
  | _ :: v', O => x :: v'
  | y :: v', S n' => y :: upd v' n' x
  end.

(** [v[i]] as an rvalue. *)
Definition vget {A : Type} (v : list A) (i : Z) : res A :=
  if i <? 0 then UB
  else match nth_error v (Z.to_nat i) with
       | Some x => Ret x
       | None => UB
       end.

(** [v[i] = x]. *)
Definition vset {A : Type} (v : list A) (i : Z) (x : A) : res (list A) :=
  if (0 <=? i) && (i <? Z.of_nat (length v))
  then Ret (upd v (Z.to_nat i) x)
  else UB.

(** [v[i].push_back(x)] on a vector of vectors. *)
Definition vpush (v : list (list Z)) (i : Z) (x : Z) : res (list (list Z)) :=
  row <- vget v i ;; vset v i (row ++ [x]).

(** A counted loop whose body may leave the state undefined. *)
Fixpoint foldM {A S : Type} (body : A -> S -> res S) (l : list A) (s : S)
  : res S :=
  match l with
  | [] => Ret s
  | a :: l' => s' <- body a s ;; foldM body l' s'
  end.

(** The values [lo, lo+1, ..., lo+n-1] of a loop counter. *)
Fixpoint zrange (lo : Z) (n : nat) : list Z :=
  match n with
  | O => []
  | S n' => lo :: zrange (lo + 1) n'
  end.

(** ** class Possible *)

Module Possible.

Definition t := list bool.

(** [Possible() : _b(9, true)] *)
Definition new : t := repeat true 9.

Definition is_on (b : t) (i : Z) : res bool := vget b (i - 1).

Fixpoint countN (b : t) : nat :=
  match b with
  | [] => O
  | true :: b' => S (countN b')
  | false :: b' => countN b'
  end.

(** [std::count(_b.begin(), _b.end(), true)] *)
Definition count (b : t) : Z := Z.of_nat (countN b).

Definition eliminate (b : t) (i : Z) : res t := vset b (i - 1) false.

(** [std::find(_b.begin(), _b.end(), true)], as an offset from begin. *)
Fixpoint find_true (b : t) : option nat :=
  match b with
  | [] => None
  | true :: _ => Some O
  | false :: b' => option_map S (find_true b')
  end.

Definition val (b : t) : Z :=
  match find_true b with
  | Some n => 1 + Z.of_nat n
  | None => -1
  end.

(** The character ['0' + i]. *)
Definition digit_char (i : Z) : ascii := ascii_of_nat (Z.to_nat (48 + i)).

(** [str(width)]: a string of [width] blanks in which the candidates are
    written from the left, in increasing order.  [s[k] = c] at
    [k >= s.size()] is undefined.  (A negative [width] makes the
    constructor of the string throw; [write], the only caller, passes a
    positive one, and the model answers [UB] there.) *)
Definition str (b : t) (width : Z) : res (list ascii) :=
  if width <? 0 then UB
  else
    r <- foldM (fun i st =>
                  on <- is_on b i ;;
                  if on then
                    s' <- vset (fst st) (snd st) (digit_char i) ;;
                    Ret (s', snd st + 1)
                  else Ret st)
               (zrange 1 9) (repeat " "%char (Z.to_nat width), 0) ;;
    Ret (fst r).

End Possible.

(** ** The static tables of class Sudoku *)

Record Topology : Type := MkTopology {
  _group : list (list Z);
  _neighbors : list (list Z);
  _groups_of : list (list Z)
}.

(** [_group(27), _neighbors(81), _groups_of(81)]: the state before
    [Sudoku::init] has run. *)
Definition topo0 : Topology :=
  MkTopology (repeat [] 27) (repeat [] 81) (repeat [] 81).

(** ** class Sudoku *)

Definition Board := list Possible.t.

Module Sudoku.

(** [Sudoku::init()] *)

Definition cell_groups (i j : Z) : list Z :=
  [i; 9 + j; 18 + (Z.quot i 3) * 3 + Z.quot j 3].

(** The body of the first doubly nested loop, for one cell. *)
Definition register (i j : Z) (t : Topology) : res Topology :=
  let k := i * 9 + j in
  foldM (fun x t =>
           g' <- vpush (_group t) x k ;;
           go' <- vpush (_groups_of t) k x ;;
           Ret (MkTopology g' (_neighbors t) go'))
        (cell_groups i j) t.

(** The body of the second loop, for one cell and one of its groups. *)
Definition link (k x : Z) (t : Topology) : res Topology :=
  foldM (fun j t =>
           gs <- vget (_groups_of t) k ;;
           g <- vget gs x ;;
           grp <- vget (_group t) g ;;
           k2 <- vget grp j ;;
           if k2 =? k then Ret t
           else
             n' <- vpush (_neighbors t) k k2 ;;
             Ret (MkTopology (_group t) n' (_groups_of t)))
        (zrange 0 9) t.

Definition init (t : Topology) : res Topology :=
  t1 <- foldM (fun i t => foldM (fun j t => register i j t) (zrange 0 9) t)
              (zrange 0 9) t ;;
  foldM (fun k t =>
           gs <- vget (_groups_of t) k ;;
           foldM (fun x t => link k x t)
                 (zrange 0 (length gs)) t)
        (zrange 0 (length (_neighbors t1))) t1.

(** [_cells(81)]: 81 default-constructed cells. *)
Definition fresh : Board := repeat Possible.new 81.

(** [possible(k)] returns a copy of [_cells[k]]. *)
Definition possible (cells : Board) (k : Z) : res Possible.t := vget cells k.

(** [is_solved()]: the loop returns [false] at the first cell whose count
    is not 1. *)
Fixpoint is_solved (cells : Board) : bool :=
  match cells with
  | [] => true
  | c :: cells' =>
      if negb (Possible.count c =? 1) then false else is_solved cells'
  end.

(** The sum of the candidate counts of all cells. *)
Fixpoint total (cells : Board) : nat :=
  match cells with
  | [] => O
  | c :: cells' => (Possible.countN c + total cells')%nat
  end.

(** A loop over [l] whose body reports success or failure and which
    returns [false] as soon as one iteration does; the state that the
    failing iteration leaves behind is kept. *)
Fixpoint for_each {A : Type} (body : A -> Board -> res (bool * Board))
         (l : list A) (cells : Board) : res (bool * Board) :=
  match l with
  | [] => Ret (true, cells)
  | a :: l' =>
      r <- body a cells ;;
      if fst r then for_each body l' (snd r) else Ret (false, snd r)
  end.

(** The body of [assign], over whatever [eliminate] it is given. *)
Definition assign_with (elim : Board -> Z -> Z -> res (bool * Board))
           (cells : Board) (k val : Z) : res (bool * Board) :=
  for_each (fun i cells => if negb (i =? val) then elim cells k i
                           else Ret (true, cells))
           (zrange 1 9) cells.

(** The inner loop of [eliminate]: [n] counts the members of the group
    that still admit [val], [ks] is the last of them ([None] while the
    C++ variable is still uninitialised). *)
Definition scan_group (cells : Board) (grp : list Z) (val : Z)
  : res (Z * option Z) :=
  foldM (fun j st =>
           p <- vget grp j ;;
           c <- vget cells p ;;
           on <- Possible.is_on c val ;;
           if on then Ret (fst st + 1, Some p) else Ret st)
        (zrange 0 9) (0, None).

Section WithTopology.

Variable t : Topology.

(** What [eliminate] does for one group [x] of the cell. *)
Definition check_group (asg : Board -> Z -> Z -> res (bool * Board))
           (val : Z) (x : Z) (cells : Board) : res (bool * Board) :=
  grp <- vget (_group t) x ;;
  st <- scan_group cells grp val ;;
  if fst st =? 0 then Ret (false, cells)
  else if fst st =? 1 then
    match snd st with
    | Some ks => asg cells ks val
    | None => UB
    end
  else Ret (true, cells).

(** [eliminate(k, val)], with [fuel] bounding the depth of the mutual
    recursion with [assign]. *)
Fixpoint eliminate (fuel : nat) (cells : Board) (k val : Z)
  : res (bool * Board) :=
  match fuel with
  | O => OutOfFuel
  | S fuel' =>
      c <- vget cells k ;;
      on <- Possible.is_on c val ;;
      if negb on then Ret (true, cells)
      else
        c' <- Possible.eliminate c val ;;
        cells1 <- vset cells k c' ;;
        let N := Possible.count c' in
        if N =? 0 then Ret (false, cells1)
        else
          r <- (if N =? 1 then
                  let v := Possible.val c' in
                  nbs <- vget (_neighbors t) k ;;
                  for_each (fun p cells => eliminate fuel' cells p v)
                           nbs cells1
                else Ret (true, cells1)) ;;
          if negb (fst r) then Ret (false, snd r)
          else
            gs <- vget (_groups_of t) k ;;
            for_each (check_group (assign_with (eliminate fuel')) val)
                     gs (snd r)
  end.

(** [assign(k, val)] *)
Definition assign (fuel : nat) (cells : Board) (k val : Z)
  : res (bool * Board) :=
  assign_with (eliminate fuel) cells k val.

(** A call of [assign] from outside the propagation: the fuel is the
    bound that [total] gives on the depth of the recursion. *)
Definition assign_run (cells : Board) (k val : Z) : res (bool * Board) :=
  assign (S (total cells)) cells k val.

End WithTopology.

(** [endl], as the character it puts on the stream. *)
Definition newline : ascii := ascii_of_nat 10.

(** The field width that [write] uses: one more than the largest count. *)
Definition write_width (cells : Board) : Z :=
  fold_left (fun w c => Z.max w (1 + Possible.count c)) cells 1.

(** [write(o)]: the characters that are put on [o]. *)
Definition write (cells : Board) : res (list ascii) :=
  let width := write_width cells in
  let sep := repeat "-"%char (Z.to_nat (3 * width)) in
  foldM (fun i o =>
           let o1 :=
             if (i =? 3) || (i =? 6)
             then o ++ sep ++ ["+"; "-"]%char ++ sep ++ ["+"]%char ++ sep
                    ++ [newline]
             else o in
           o2 <- foldM (fun j o =>
                          let o' :=
                            if (j =? 3) || (j =? 6)
                            then o ++ ["|"; " "]%char
                            else o in
                          c <- vget cells (i * 9 + j) ;;
                          s <- Possible.str c width ;;
                          Ret (o' ++ s))
                       (zrange 0 9) o1 ;;
           Ret (o2 ++ [newline]))
        (zrange 0 9) [].

(** The loop of [least_count]; [min] is only read once [k] is set. *)
Fixpoint least_count_loop (cells : Board) (i : Z) (k : Z) (min : option Z)
  : Z :=
  match cells with
  | [] => k
  | c :: cells' =>
      let m := Possible.count c in
      if (1 <? m) &&
         ((k =? -1) || match min with Some mn => m <? mn | None => false end)
      then least_count_loop cells' (i + 1) i (Some m)
      else least_count_loop cells' (i + 1) k min
  end.

(** [least_count()] *)
Definition least_count (cells : Board) : Z :=
  least_count_loop cells 0 (-1) None.

(** The value of a [char] in a comparison or in arithmetic: a signed
    byte.  (With an unsigned [char] the bytes from 128 up would be
    positive instead; they fail every test of the constructor either
    way.) *)
Definition char_val (c : ascii) : Z :=
  let n := Z.of_nat (nat_of_ascii c) in
  if n <? 128 then n else n - 256.

(** A search that returns the first result that is not null. *)
Fixpoint first_some {A B : Type} (body : A -> res (option B)) (l : list A)
  : res (option B) :=
  match l with
  | [] => Ret None
  | a :: l' =>
      r <- body a ;;
      match r with
      | Some x => Ret (Some x)
      | None => first_some body l'
      end
  end.

Section Search.

Variable t : Topology.

(** The loop of the constructor from character [s[i]] on, the cell
    index being [k].  The result is the board that the constructor
    leaves and the lines it wrote on [cerr]. *)
Fixpoint ctor_loop (s : string) (cells : Board) (k : Z)
  : res (Board * list string) :=
  match s with
  | EmptyString => Ret (cells, [])
  | String c s' =>
      if (char_val "1" <=? char_val c) && (char_val c <=? char_val "9")
      then
        r <- assign_run t cells k (char_val c - char_val "0") ;;
        if negb (fst r) then Ret (snd r, ["error"%string])
        else ctor_loop s' (snd r) (k + 1)
      else if (char_val c =? char_val "0") || (char_val c =? char_val ".")
      then ctor_loop s' cells (k + 1)
      else ctor_loop s' cells k
  end.

(** [Sudoku(string s)] *)
Definition Sudoku (s : string) : res (Board * list string) :=
  ctor_loop s fresh 0.

(** [solve]; a null [unique_ptr] is [None]. *)
Fixpoint solve (fuel : nat) (S : option Board) : res (option Board) :=
  match fuel with
  | O => OutOfFuel
  | Datatypes.S fuel' =>
      match S with
      | None => Ret None
      | Some b =>
          if is_solved b then Ret (Some b)
          else
            let k := least_count b in
            p <- possible b k ;;
            first_some
              (fun i =>
                 on <- Possible.is_on p i ;;
                 if on then
                   r <- assign_run t b k i ;;
                   if fst r then solve fuel' (Some (snd r))
                   else Ret None
                 else Ret None)
              (zrange 1 9)
      end
  end.

(** One measurement of [main]: build the board of a line and solve. *)
Definition solve_line (fuel : nat) (line : string) : res (option Board) :=
  b <- Sudoku line ;; solve fuel (Some (fst b)).

End Search.

End Sudoku.

(** The tables once [Sudoku::init()] has run on the fresh ones. *)
Definition topo : Topology :=
  Eval vm_compute in
    match Sudoku.init topo0 with
    | Ret t => t
    | _ => topo0
    end.

(** [main] never calls [Sudoku::init()]: the program as it is written runs
    every measurement on the tables of [topo0]. *)
Definition main_line (fuel : nat) (line : string) : res (option Board) :=
  Sudoku.solve_line topo0 fuel line.

(** * Specification vocabulary *)

(** ** Boards *)

(** The candidate set of cell [c], and whether digit [d] is on there. *)
Definition cell (cells : Board) (c : Z) : Possible.t :=
  nth (Z.to_nat c) cells [].

Definition on (cells : Board) (c d : Z) : bool :=
  nth (Z.to_nat (d - 1)) (cell cells c) false.

(** A board as the constructor allocates it: 81 cells of 9 flags. *)
Definition wf (cells : Board) : Prop :=
  length cells = 81%nat /\ Forall (fun p => length p = 9%nat) cells.

(** The same as a test, for closed instances. *)
Definition wfb (cells : Board) : bool :=
  (length cells =? 81)%nat && forallb (fun p => (length p =? 9)%nat) cells.

(** Flags are only ever cleared: [le_board cells' cells] says that
    [cells'] is [cells] with some flags turned off. *)
Definition le_flag (b' b : bool) : Prop := b' = true -> b = true.
Definition le_cell (p' p : Possible.t) : Prop := Forall2 le_flag p' p.
Definition le_board (cells' cells : Board) : Prop := Forall2 le_cell cells' cells.

(** The board after [_cells[k].eliminate(val)]. *)
Definition clear (cells : Board) (k val : Z) : Board :=
  upd cells (Z.to_nat k) (upd (cell cells k) (Z.to_nat (val - 1)) false).

(** Cell [c] has a candidate left. *)
Definition nonempty (cells : Board) (c : Z) : Prop :=
  (0 < Possible.countN (cell cells c))%nat.

(** The members of a group that still admit [val]. *)
Definition admitting (cells : Board) (val : Z) (grp : list Z) : list Z :=
  filter (fun p => on cells p val) grp.

(** The inner loop of [eliminate] over the members of a group, as a fold:
    the pair is the counter [n] and the variable [ks]. *)
Definition scan_step (cells : Board) (val p : Z) (st : Z * option Z)
  : Z * option Z :=
  if on cells p val then (fst st + 1, Some p) else st.

Definition scan_list (cells : Board) (val : Z) (grp : list Z)
           (st : Z * option Z) : Z * option Z :=
  fold_left (fun st p => scan_step cells val p st) grp st.

(** ** The tables *)

(** Group [x], the neighbours of cell [k], the groups of cell [k]. *)
Definition group (t : Topology) (x : Z) : list Z := nth (Z.to_nat x) (_group t) [].
Definition nbrs (t : Topology) (k : Z) : list Z := nth (Z.to_nat k) (_neighbors t) [].
Definition groups_of (t : Topology) (k : Z) : list Z := nth (Z.to_nat k) (_groups_of t) [].

Definition in_range (n x : Z) : bool := (0 <=? x) && (x <? n).
Definition memZ (x : Z) (l : list Z) : bool := existsb (Z.eqb x) l.

Fixpoint nodupb (l : list Z) : bool :=
  match l with
  | [] => true
  | x :: l' => negb (memZ x l') && nodupb l'
  end.

(** Cells [k] and [p] are different members of one group. *)
Definition share_group (t : Topology) (k p : Z) : bool :=
  negb (p =? k) &&
  existsb (fun x => memZ k (group t x) && memZ p (group t x)) (zrange 0 27).

(** The facts about the three tables that the proofs use: their sizes and
    index ranges, that a group has nine different members, that
    [_groups_of] is the converse of [_group], and that the neighbours of a
    cell are the other members of its groups. *)
Definition topo_ok (t : Topology) : bool :=
  (length (_group t) =? 27)%nat &&
  (length (_neighbors t) =? 81)%nat &&
  (length (_groups_of t) =? 81)%nat &&
  forallb (fun g => (length g =? 9)%nat && forallb (in_range 81) g && nodupb g)
          (_group t) &&
  forallb (forallb (in_range 81)) (_neighbors t) &&
  forallb (forallb (in_range 27)) (_groups_of t) &&
  forallb (fun k =>
             forallb (fun x => Bool.eqb (memZ x (groups_of t k))
                                        (memZ k (group t x)))
                     (zrange 0 27))
          (zrange 0 81) &&
  forallb (fun k =>
             forallb (fun p => Bool.eqb (memZ p (nbrs t k)) (share_group t k p))
                     (zrange 0 81))
          (zrange 0 81).

(** ** The propagation *)

(** The naked-single rule is done at cell [c]: if [c] is determined, its
    digit is off at every neighbour. *)
Definition Clean (t : Topology) (cells : Board) (c : Z) : Prop :=
  Possible.count (cell cells c) = 1 ->
  forall p, In p (nbrs t c) -> on cells p (Possible.val (cell cells c)) = false.

(** The invariant of a board under propagation. *)
Definition consistent (t : Topology) (cells : Board) : Prop :=
  forall c, 0 <= c < 81 -> Clean t cells c.

(** What a successful propagation from [cells] to [cells'] guarantees. *)
Definition good (t : Topology) (cells cells' : Board) : Prop :=
  le_board cells' cells /\
  (forall c, 0 <= c < 81 -> Clean t cells c -> Clean t cells' c) /\
  (forall c, 0 <= c < 81 -> nonempty cells c -> nonempty cells' c).

(** What any propagation guarantees, successful or not. *)
Definition post (t : Topology) (cells : Board) (r : bool * Board) : Prop :=
  le_board (snd r) cells /\ (fst r = true -> good t cells (snd r)).

(** Some iteration of a loop is reached and reports failure, leaving
    [cells']. *)
Definition loop_fails {A : Type} (body : A -> Board -> res (bool * Board))
           (l : list A) (cells cells' : Board) : Prop :=
  exists pre a post cs,
    l = pre ++ a :: post /\
    Sudoku.for_each body pre cells = Ret (true, cs) /\
    body a cs = Ret (false, cells').

(** The check of group [x] fails on [cs]: no member admits [val] any more,
    or exactly one member [ks] does and [assign(ks, val)] fails. *)
Definition group_fails (t : Topology) (fuel : nat) (val x : Z)
           (cs cells' : Board) : Prop :=
  (admitting cs val (group t x) = [] /\ cells' = cs) \/
  (exists ks, admitting cs val (group t x) = [ks] /\
              Sudoku.assign t fuel cs ks val = Ret (false, cells')).

(** What the naked-single phase of [eliminate] leaves when it does not
    fail: the board [cells2] after the digit of the newly determined cell
    [k] was eliminated from all its neighbours, or the board as it was
    when [k] keeps more than one candidate. *)
Definition naked_single_done (t : Topology) (fuel : nat) (cells1 : Board)
           (k : Z) (cells2 : Board) : Prop :=
  (Possible.count (cell cells1 k) = 1 /\
   Sudoku.for_each
     (fun p cs => Sudoku.eliminate t fuel cs p (Possible.val (cell cells1 k)))
     (nbrs t k) cells1 = Ret (true, cells2)) \/
  (1 < Possible.count (cell cells1 k) /\ cells2 = cells1).

(** ** The search *)

(** Every group holds every digit exactly once. *)
Definition valid (t : Topology) (cells : Board) : Prop :=
  forall x d, 0 <= x < 27 -> 1 <= d <= 9 ->
              length (admitting cells d (group t x)) = 1%nat.

(** What [least_count] has found after the cells of [pre]. *)
Definition least_inv (pre : Board) (k : Z) (min : option Z) : Prop :=
  (k = -1 /\
   forall c, 0 <= c < Z.of_nat (length pre) -> Possible.count (cell pre c) <= 1) \/
  (0 <= k < Z.of_nat (length pre) /\
   min = Some (Possible.count (cell pre k)) /\
   1 < Possible.count (cell pre k) /\
   (forall j, 0 <= j < Z.of_nat (length pre) -> 1 < Possible.count (cell pre j) ->
              Possible.count (cell pre k) <= Possible.count (cell pre j)) /\
   (forall j, 0 <= j < k -> 1 < Possible.count (cell pre j) ->
              Possible.count (cell pre k) < Possible.count (cell pre j))).

(** ** The puzzle string *)

(** The characters of a puzzle string.  A given is one of the characters
    of "123456789", its digit is its place there; a blank is '0' or '.';
    anything else is neither. *)
Fixpoint place_in (c : ascii) (s : string) (i : Z) : option Z :=
  match s with
  | EmptyString => None
  | String c' s' => if Ascii.eqb c c' then Some i else place_in c s' (i + 1)
  end.

Definition given (c : ascii) : option Z := place_in c "123456789" 1.

Definition blank (c : ascii) : bool := Ascii.eqb c "0" || Ascii.eqb c ".".

(** The cell index that the constructor has reached after the characters
    of [s], when no [assign] failed. *)
Fixpoint consumed (s : string) : Z :=
  match s with
  | EmptyString => 0
  | String c s' =>
      (match given c with
       | Some _ => 1
       | None => if blank c then 1 else 0
       end) + consumed s'
  end.

(** The board of a construction that reported no error. *)
Definition built_ok (t : Topology) (cells : Board) : Prop :=
  wf cells /\ consistent t cells /\ forall c, 0 <= c < 81 -> nonempty cells c.

(** ** Some boards *)

(** The board after [assign(0, 5)] on the fresh one. *)
Definition assigned_0_5 : Board :=
  Eval vm_compute in
    match Sudoku.assign topo 730 Sudoku.fresh 0 5 with
    | Ret r => snd r
    | _ => []
    end.

(** The solution that [solve] finds for the empty puzzle. *)
Definition solved_fresh : Board :=
  Eval vm_compute in
    match Sudoku.solve topo 100 (Some Sudoku.fresh) with
    | Ret (Some b) => b
    | _ => []
    end.

(** The board on which every cell is determined as 1. *)
Definition all_ones : Board := repeat (true :: repeat false 8) 81.

(** The empty puzzle: 81 blanks. *)
Definition blank_line : string :=
  "................................................................................."%string.

(** A puzzle that the propagation of its givens alone solves, and the
    digits of its solution. *)
Definition easy_line : string :=
  "003020600900305001001806400008102900700000008006708200002609500800203009005010300".

Definition easy_solution : list Z :=
  [4; 8; 3; 9; 2; 1; 6; 5; 7;
   9; 6; 7; 3; 4; 5; 8; 2; 1;
   2; 5; 1; 8; 7; 6; 4; 9; 3;
   5; 4; 8; 1; 3; 2; 9; 7; 6;
   7; 2; 9; 5; 6; 4; 1; 3; 8;
   1; 3; 6; 7; 9; 8; 2; 4; 5;
   3; 7; 2; 6; 8; 9; 5; 1; 4;
   8; 1; 4; 2; 5; 3; 7; 6; 9;
   6; 9; 5; 4; 1; 7; 3; 8; 2].

(** The board of the puzzle whose only given is a 1 in cell 0. *)
Definition board_of_1 : Board :=
  Eval vm_compute in
    match Sudoku.Sudoku topo "1" with
    | Ret r => fst r
    | _ => []
    end.

(** The board that the constructor leaves for two 1s in cells 0 and 1. *)
Definition board_of_11 : Board :=
  Eval vm_compute in
    match Sudoku.Sudoku topo "11" with
    | Ret r => fst r
    | _ => []
    end.

(** A complete, correct grid whose last digit was changed from 2 to 1,
    and the board that the constructor leaves for it. *)
Definition conflict_line : string :=
  "483921657967345821251876493548132976729564138136798245372689514814253769695417381".

Definition conflict_board : Board :=
  Eval vm_compute in
    match Sudoku.Sudoku topo conflict_line with
    | Ret r => fst r
    | _ => []
    end.

(** ** Display *)

(** The candidates of a cell, in increasing order. *)
Definition candidates (b : Possible.t) : list Z :=
  filter (fun i => nth (Z.to_nat (i - 1)) b false) (zrange 1 9).

(** What [str(width)] returns when the candidates fit: their digits, then
    blanks up to the width. *)
Definition cell_text (width : Z) (b : Possible.t) : list ascii :=
  map Possible.digit_char (candidates b)
  ++ repeat " "%char (Z.to_nat (width - Possible.count b)).

(** The output of [write] in closed form: the rule before rows 3 and 6,
    the bar before columns 3 and 6, the text of each cell, and a newline
    after each row. *)
Definition bar (j : Z) : list ascii :=
  if (j =? 3) || (j =? 6) then ["|"; " "]%char else [].

Definition rule (width i : Z) : list ascii :=
  if (i =? 3) || (i =? 6)
  then repeat "-"%char (Z.to_nat (3 * width)) ++ ["+"; "-"]%char
       ++ repeat "-"%char (Z.to_nat (3 * width)) ++ ["+"]%char
       ++ repeat "-"%char (Z.to_nat (3 * width)) ++ [Sudoku.newline]
  else [].

Definition render (cells : Board) : list ascii :=
  let w := Sudoku.write_width cells in
  concat (map (fun i =>
                 rule w i
                 ++ concat (map (fun j => bar j ++ cell_text w (cell cells (i * 9 + j)))
                                (zrange 0 9))
                 ++ [Sudoku.newline])
              (zrange 0 9)).

(** The characters of a text that the constructor does not skip. *)
Definition counts_as_cell (c : ascii) : bool :=
  match given c with
  | Some _ => true
  | None => blank c
  end.

Definition strip (s : list ascii) : list ascii := filter counts_as_cell s.

(** The 81 digits of a solved board, row by row. *)
Definition line_of (b : Board) : list ascii :=
  map (fun p => Possible.digit_char (Possible.val p)) b.

(** ** Solutions *)

(** A Sudoku solution: 81 determined cells, every group holding every
    digit once. *)
Definition solution (t : Topology) (sol : Board) : Prop :=
  wf sol /\ Sudoku.is_solved sol = true /\ valid t sol.

(** The same as a test, for closed instances. *)
Definition solutionb (t : Topology) (sol : Board) : bool :=
  wfb sol && Sudoku.is_solved sol &&
  forallb (fun x =>
             forallb (fun d => (length (admitting sol d (group t x)) =? 1)%nat)
                     (zrange 1 9))
          (zrange 0 27).

(** The givens of the line [s], scanned from cell index [k] on, are the
    digits that [sol] has in their cells. *)
Fixpoint agrees (sol : Board) (s : string) (k : Z) : bool :=
  match s with
  | EmptyString => true
  | String c s' =>
      match given c with
      | Some d => on sol k d && agrees sol s' (k + 1)
      | None => agrees sol s' (if blank c then k + 1 else k)
      end
  end.

(** In [cells], every cell that the line [s] gives a digit has no other
    candidate. *)
Fixpoint givens_set (cells : Board) (s : string) (k : Z) : Prop :=
  match s with
  | EmptyString => True
  | String c s' =>
      match given c with
      | Some d =>
          (forall i, 1 <= i <= 9 -> i <> d -> on cells k i = false) /\
          givens_set cells s' (k + 1)
      | None => givens_set cells s' (if blank c then k + 1 else k)
      end
  end.

(** Givens that exclude one another without two equal digits sharing a
    group: after 1, 2, 3, 4 in row 0, the next three cells of the row can
    only hold 6 or 7. *)
Definition hidden_conflict_line : string :=
  "1234....." ++ "...589..." ++ "........." ++
  "......56." ++ "......87." ++ "......9.." ++
  "........6" ++ "........7" ++ ".........".

(** The board that the constructor and [solve] reach for [easy_line]. *)
Definition easy_board : Board :=
  Eval vm_compute in
    match Sudoku.solve_line topo 2 easy_line with
    | Ret (Some b) => b
    | _ => []
    end.

(** ** The tables, in closed form *)

(** Cells [k] and [j] lie in one row, one column or one box. *)
Definition same_unit (k j : Z) : bool :=
  (j / 9 =? k / 9) || (j mod 9 =? k mod 9) ||
  ((j / 27 =? k / 27) && ((j mod 9) / 3 =? (k mod 9) / 3)).

(** The row, the column and the box of cell [k], as group numbers. *)
Definition units_of (k : Z) : list Z :=
  [k / 9; 9 + k mod 9; 18 + (k / 27) * 3 + (k mod 9) / 3].

(** The test of the built tables at cell [k]: its groups, the number
    of its neighbour entries, and membership in both directions. *)
Definition init_check (t : Topology) (k : Z) : bool :=
  (if list_eq_dec Z.eq_dec (groups_of t k) (units_of k) then true else false) &&
  (length (nbrs t k) =? 24)%nat &&
  (length (nodup Z.eq_dec (nbrs t k)) =? 20)%nat &&
  forallb (in_range 81) (nbrs t k) &&
  forallb (fun j => Bool.eqb (memZ j (nbrs t k)) (negb (j =? k) && same_unit k j))
          (zrange 0 81) &&
  forallb (fun x => Bool.eqb (memZ k (group t x)) (memZ x (units_of k)))
          (zrange 0 27).

(** ** The program as written *)

(** The digit that the program as written ends with in cell [c] of the
    line [s]: the given of that cell, and 1 where the line has a blank or
    has ended. *)
Fixpoint digit_at (s : string) (c : Z) : Z :=
  match s with
  | EmptyString => 1
  | String a s' =>
      match given a with
      | Some d => if c =? 0 then d else digit_at s' (c - 1)
      | None =>
          if blank a then (if c =? 0 then 1 else digit_at s' (c - 1))
          else digit_at s' c
      end
  end.

(** * Vectors: basic facts *)

Lemma vget_range {A : Type} (v : list A) (i : Z) (d : A) :
  0 <= i < Z.of_nat (length v) -> vget v i = Ret (nth (Z.to_nat i) v d).
Proof.
  intros Hi. unfold vget.
  destruct (Z.ltb_spec i 0); [lia|].
  destruct (nth_error v (Z.to_nat i)) eqn:E.
  - now rewrite (nth_error_nth v _ d E).
  - apply nth_error_None in E. lia.
Qed.

Lemma vget_Ret {A : Type} (v : list A) (i : Z) (x d : A) :
  vget v i = Ret x -> 0 <= i < Z.of_nat (length v) /\ x = nth (Z.to_nat i) v d.
Proof.
  unfold vget. destruct (Z.ltb_spec i 0); [discriminate|].
  destruct (nth_error v (Z.to_nat i)) eqn:E; [|discriminate].
  intros [= <-]. split.
  - assert (Z.to_nat i < length v)%nat by (apply nth_error_Some; congruence). lia.
  - symmetry. now apply nth_error_nth.
Qed.

Lemma vget_UB {A : Type} (v : list A) (i : Z) :
  ~ 0 <= i < Z.of_nat (length v) -> vget v i = UB.
Proof.
  intros Hi. unfold vget. destruct (Z.ltb_spec i 0); [reflexivity|].
  destruct (nth_error v (Z.to_nat i)) eqn:E; [|reflexivity].
  assert (Z.to_nat i < length v)%nat by (apply nth_error_Some; congruence). lia.
Qed.

Lemma vset_range {A : Type} (v : list A) (i : Z) (x : A) :
  0 <= i < Z.of_nat (length v) -> vset v i x = Ret (upd v (Z.to_nat i) x).
Proof.
  intros Hi. unfold vset.
  destruct (Z.leb_spec 0 i); [|lia].
  destruct (Z.ltb_spec i (Z.of_nat (length v))); [reflexivity|lia].
Qed.

Lemma upd_nth_same {A : Type} (v : list A) (n : nat) (x d : A) :
  (n < length v)%nat -> nth n (upd v n x) d = x.
Proof.
  revert n. induction v as [|y v IH]; intros [|n]; simpl; intros H;
    try lia; auto. apply IH. lia.
Qed.

Lemma upd_nth_other {A : Type} (v : list A) (n m : nat) (x d : A) :
  m <> n -> nth m (upd v n x) d = nth m v d.
Proof.
  revert n m. induction v as [|y v IH]; intros [|n] [|m]; simpl; intros H;
    auto; try congruence.
Qed.

Lemma Forall2_refl {A : Type} (R : A -> A -> Prop) (l : list A) :
  (forall y, R y y) -> Forall2 R l l.
Proof. intros H. induction l; constructor; auto. Qed.

Lemma upd_Forall2 {A : Type} (R : A -> A -> Prop) (v : list A) (n : nat)
      (x d : A) :
  (forall y, R y y) -> R x (nth n v d) -> Forall2 R (upd v n x) v.
Proof.
  intros Hrefl. revert n. induction v as [|y v IH]; intros [|n]; simpl; intros H.
  - constructor.
  - constructor.
  - constructor; [assumption|]. now apply Forall2_refl.
  - constructor; auto.
Qed.

Lemma Forall2_nth {A : Type} (R : A -> A -> Prop) (l' l : list A) (n : nat)
      (d : A) :
  Forall2 R l' l -> R d d -> R (nth n l' d) (nth n l d).
Proof.
  intros H Hd. revert n. induction H; intros [|n]; simpl; auto.
Qed.

Lemma Forall2_trans {A : Type} (R : A -> A -> Prop) (l1 l2 l3 : list A) :
  (forall x y z, R x y -> R y z -> R x z) ->
  Forall2 R l1 l2 -> Forall2 R l2 l3 -> Forall2 R l1 l3.
Proof.
  intros HR H12. revert l3. induction H12; intros l3 H23; inversion H23; subst;
    constructor; eauto.
Qed.

(** * Candidate sets: basic facts *)

Lemma le_flag_refl b : le_flag b b.
Proof. now intros H. Qed.

Lemma le_flag_trans b1 b2 b3 : le_flag b1 b2 -> le_flag b2 b3 -> le_flag b1 b3.
Proof. unfold le_flag. auto. Qed.

Lemma le_cell_refl p : le_cell p p.
Proof. apply Forall2_refl, le_flag_refl. Qed.

Lemma le_cell_trans p1 p2 p3 : le_cell p1 p2 -> le_cell p2 p3 -> le_cell p1 p3.
Proof. apply Forall2_trans, le_flag_trans. Qed.

Lemma le_board_refl cells : le_board cells cells.
Proof. apply Forall2_refl, le_cell_refl. Qed.

Lemma le_board_trans c1 c2 c3 : le_board c1 c2 -> le_board c2 c3 -> le_board c1 c3.
Proof. apply Forall2_trans, le_cell_trans. Qed.

Lemma le_cell_length p' p : le_cell p' p -> length p' = length p.
Proof. apply Forall2_length. Qed.

Lemma le_cell_countN p' p : le_cell p' p -> (Possible.countN p' <= Possible.countN p)%nat.
Proof.
  induction 1 as [|b' b p' p Hb _ IH]; simpl; [lia|].
  destruct b'; destruct b; try lia. specialize (Hb eq_refl). discriminate.
Qed.

Lemma le_board_total cells' cells :
  le_board cells' cells -> (Sudoku.total cells' <= Sudoku.total cells)%nat.
Proof.
  induction 1 as [|p' p c' c Hp _ IH]; simpl; [lia|].
  apply le_cell_countN in Hp. lia.
Qed.

Lemma le_board_wf cells' cells : le_board cells' cells -> wf cells -> wf cells'.
Proof.
  intros H [Hlen Hall]. split.
  - rewrite <- Hlen. now apply Forall2_length in H.
  - clear Hlen. induction H as [|p' p c' c Hp _ IH]; constructor.
    + inversion Hall; subst. apply le_cell_length in Hp. congruence.
    + inversion Hall; subst. auto.
Qed.

Lemma le_board_cell cells' cells c : le_board cells' cells -> le_cell (cell cells' c) (cell cells c).
Proof. intros H. unfold cell. apply Forall2_nth; [assumption|constructor]. Qed.

Lemma le_board_on cells' cells c d :
  le_board cells' cells -> on cells' c d = true -> on cells c d = true.
Proof.
  intros H. unfold on.
  apply (Forall2_nth le_flag _ _ (Z.to_nat (d - 1)) false (le_board_cell _ _ c H)).
  apply le_flag_refl.
Qed.

Lemma le_board_off cells' cells c d :
  le_board cells' cells -> on cells c d = false -> on cells' c d = false.
Proof.
  intros H Hoff. destruct (on cells' c d) eqn:E; [|reflexivity].
  apply (le_board_on _ _ _ _ H) in E. congruence.
Qed.

Lemma countN_upd_off p n :
  nth n p false = true ->
  (Possible.countN (upd p n false) + 1 = Possible.countN p)%nat.
Proof.
  revert n. induction p as [|b p IH]; intros [|n]; simpl; try discriminate.
  - intros ->. lia.
  - intros H. specialize (IH _ H). destruct b; lia.
Qed.

Lemma total_upd cells n c' :
  (n < length cells)%nat ->
  (Sudoku.total (upd cells n c') + Possible.countN (nth n cells [])
   = Sudoku.total cells + Possible.countN c')%nat.
Proof.
  revert n. induction cells as [|p cells IH]; intros [|n]; simpl; intros H; try lia.
  specialize (IH n ltac:(lia)). lia.
Qed.

Lemma wf_cell_length cells c :
  wf cells -> 0 <= c < 81 -> length (cell cells c) = 9%nat.
Proof.
  intros [Hlen Hall] Hc. rewrite Forall_forall in Hall. apply Hall.
  unfold cell. apply nth_In. lia.
Qed.

(** [find_true] returns the first flag that is on. *)
Lemma find_true_Some p n :
  Possible.find_true p = Some n ->
  nth n p false = true /\ forall m, (m < n)%nat -> nth m p false = false.
Proof.
  revert n. induction p as [|b p IH]; simpl; intros n H; [discriminate|].
  destruct b.
  - inversion H; subst. split; [reflexivity|]. intros; lia.
  - destruct (Possible.find_true p) as [n'|]; [|discriminate].
    inversion H; subst. destruct (IH n' eq_refl) as [H1 H2]. split; [exact H1|].
    intros [|m] Hm; [reflexivity|]. apply H2. lia.
Qed.

Lemma find_true_None p :
  Possible.find_true p = None <-> Possible.countN p = 0%nat.
Proof.
  induction p as [|b p IH]; simpl; [tauto|].
  destruct b; [split; [discriminate|lia]|].
  destruct (Possible.find_true p); simpl; split; intros H; try discriminate.
  - apply IH in H. discriminate.
  - now apply IH.
  - reflexivity.
Qed.

Lemma countN_pos p n : nth n p false = true -> (0 < Possible.countN p)%nat.
Proof.
  revert n. induction p as [|b p IH]; intros [|n]; simpl; try discriminate.
  - intros ->. lia.
  - intros H. specialize (IH _ H). destruct b; lia.
Qed.

(** In a set of one candidate, the candidate is the only flag on. *)
Lemma countN_one_unique p n m :
  Possible.countN p = 1%nat -> nth n p false = true -> nth m p false = true -> n = m.
Proof.
  revert n m. induction p as [|b p IH]; intros n m; simpl.
  - discriminate.
  - destruct b; intros Hc.
    + assert (H0 : Possible.countN p = 0%nat) by lia.
      destruct n as [|n]; destruct m as [|m]; auto; intros Hn Hm.
      * apply countN_pos in Hm. lia.
      * apply countN_pos in Hn. lia.
      * apply countN_pos in Hn. lia.
    + destruct n as [|n]; destruct m as [|m]; try discriminate.
      intros Hn Hm. f_equal. now apply IH.
Qed.

Lemma val_on p n :
  Possible.countN p = 1%nat -> nth n p false = true -> Possible.val p = 1 + Z.of_nat n.
Proof.
  intros Hc Hn. unfold Possible.val.
  destruct (Possible.find_true p) as [m|] eqn:E.
  - apply find_true_Some in E. destruct E as [E _].
    now rewrite (countN_one_unique p n m Hc Hn E).
  - apply find_true_None in E. lia.
Qed.

Lemma countN_witness p :
  (0 < Possible.countN p)%nat -> exists n, nth n p false = true.
Proof.
  induction p as [|b p IH]; simpl; [lia|].
  destruct b; intros H.
  - now exists 0%nat.
  - destruct (IH H) as [n Hn]. now exists (S n).
Qed.

(** A set of one candidate loses it or stays as it is. *)
Lemma le_cell_single p' p :
  le_cell p' p -> Possible.countN p = 1%nat -> (0 < Possible.countN p')%nat ->
  Possible.countN p' = 1%nat /\ Possible.val p' = Possible.val p.
Proof.
  intros Hle H1 Hpos.
  assert (Hc : Possible.countN p' = 1%nat).
  { apply le_cell_countN in Hle. lia. }
  split; [exact Hc|].
  destruct (countN_witness p' Hpos) as [n Hn].
  assert (Hn' : nth n p false = true).
  { apply (Forall2_nth le_flag p' p n false Hle (le_flag_refl false)). exact Hn. }
  now rewrite (val_on p' n Hc Hn), (val_on p n H1 Hn').
Qed.

(** * The tables: what the propagation relies on *)

Lemma topo_init : Sudoku.init topo0 = Ret topo.
Proof. vm_compute. reflexivity. Qed.

Lemma topo_ok_topo : topo_ok topo = true.
Proof. vm_compute. reflexivity. Qed.

Lemma zrange_In lo n x : In x (zrange lo n) <-> lo <= x < lo + Z.of_nat n.
Proof.
  revert lo. induction n as [|n IH]; intros lo; simpl.
  - lia.
  - rewrite IH. lia.
Qed.

Lemma memZ_In x l : memZ x l = true <-> In x l.
Proof.
  unfold memZ. rewrite existsb_exists. split.
  - intros (y & Hy & E). apply Z.eqb_eq in E. now subst.
  - intros H. exists x. split; [assumption|apply Z.eqb_refl].
Qed.

Lemma nodupb_NoDup l : nodupb l = true -> NoDup l.
Proof.
  induction l as [|x l IH]; simpl; intros H; constructor.
  - apply andb_prop in H. destruct H as [H _].
    intros Hin. apply memZ_In in Hin. rewrite Hin in H. discriminate.
  - apply IH. apply andb_prop in H. tauto.
Qed.

Lemma in_range_spec n x : in_range n x = true <-> 0 <= x < n.
Proof. unfold in_range. rewrite andb_true_iff, Z.leb_le, Z.ltb_lt. tauto. Qed.

Section Tables.

Variable t : Topology.
Hypothesis Ht : topo_ok t = true.

Lemma topo_parts :
  length (_group t) = 27%nat /\ length (_neighbors t) = 81%nat /\
  length (_groups_of t) = 81%nat /\
  (forall g, In g (_group t) ->
             length g = 9%nat /\ (forall p, In p g -> 0 <= p < 81) /\ NoDup g) /\
  (forall l, In l (_neighbors t) -> forall p, In p l -> 0 <= p < 81) /\
  (forall l, In l (_groups_of t) -> forall x, In x l -> 0 <= x < 27).
Proof.
  unfold topo_ok in Ht. repeat rewrite andb_true_iff in Ht.
  destruct Ht as [[[[[[[H1 H2] H3] H4] H5] H6] _] _].
  apply Nat.eqb_eq in H1, H2, H3.
  rewrite forallb_forall in H4, H5, H6.
  split; [exact H1|]. split; [exact H2|]. split; [exact H3|].
  split; [|split].
  - intros g Hg. specialize (H4 _ Hg). repeat rewrite andb_true_iff in H4.
    destruct H4 as [[Ha Hb] Hc]. apply Nat.eqb_eq in Ha.
    rewrite forallb_forall in Hb.
    split; [exact Ha|]. split; [|now apply nodupb_NoDup].
    intros p Hp. apply in_range_spec, Hb, Hp.
  - intros l Hl p Hp. specialize (H5 _ Hl). rewrite forallb_forall in H5.
    apply in_range_spec, H5, Hp.
  - intros l Hl x Hx. specialize (H6 _ Hl). rewrite forallb_forall in H6.
    apply in_range_spec, H6, Hx.
Qed.

Lemma nbrs_get k : 0 <= k < 81 -> vget (_neighbors t) k = Ret (nbrs t k).
Proof.
  intros Hk. apply vget_range. destruct topo_parts as (_ & H & _). lia.
Qed.

Lemma groups_of_get k : 0 <= k < 81 -> vget (_groups_of t) k = Ret (groups_of t k).
Proof.
  intros Hk. apply vget_range. destruct topo_parts as (_ & _ & H & _). lia.
Qed.

Lemma group_get x : 0 <= x < 27 -> vget (_group t) x = Ret (group t x).
Proof.
  intros Hx. apply vget_range. destruct topo_parts as (H & _). lia.
Qed.

Lemma nbrs_range k p : 0 <= k < 81 -> In p (nbrs t k) -> 0 <= p < 81.
Proof.
  intros Hk. destruct topo_parts as (_ & H & _ & _ & H5 & _).
  apply H5. unfold nbrs. apply nth_In. lia.
Qed.

Lemma groups_of_range k x : 0 <= k < 81 -> In x (groups_of t k) -> 0 <= x < 27.
Proof.
  intros Hk. destruct topo_parts as (_ & _ & H & _ & _ & H6).
  apply H6. unfold groups_of. apply nth_In. lia.
Qed.

Lemma group_facts x :
  0 <= x < 27 ->
  length (group t x) = 9%nat /\ (forall p, In p (group t x) -> 0 <= p < 81) /\
  NoDup (group t x).
Proof.
  intros Hx. destruct topo_parts as (H & _ & _ & H4 & _).
  apply H4. unfold group. apply nth_In. lia.
Qed.

Lemma groups_of_iff k x :
  0 <= k < 81 -> 0 <= x < 27 -> (In x (groups_of t k) <-> In k (group t x)).
Proof.
  intros Hk Hx. unfold topo_ok in Ht. repeat rewrite andb_true_iff in Ht.
  destruct Ht as [[_ H7] _]. rewrite forallb_forall in H7.
  specialize (H7 k ltac:(apply zrange_In; lia)). rewrite forallb_forall in H7.
  specialize (H7 x ltac:(apply zrange_In; lia)). apply Bool.eqb_prop in H7.
  rewrite <- !memZ_In. now rewrite H7.
Qed.

Lemma nbrs_iff k p :
  0 <= k < 81 -> 0 <= p < 81 ->
  (In p (nbrs t k) <->
   p <> k /\ exists x, 0 <= x < 27 /\ In k (group t x) /\ In p (group t x)).
Proof.
  intros Hk Hp. unfold topo_ok in Ht. repeat rewrite andb_true_iff in Ht.
  destruct Ht as [_ H8]. rewrite forallb_forall in H8.
  specialize (H8 k ltac:(apply zrange_In; lia)). rewrite forallb_forall in H8.
  specialize (H8 p ltac:(apply zrange_In; lia)). apply Bool.eqb_prop in H8.
  rewrite <- memZ_In, H8. unfold share_group.
  rewrite andb_true_iff, negb_true_iff, Z.eqb_neq, existsb_exists.
  split; intros [Hne (x & H1 & H2)]; (split; [exact Hne|]); exists x.
  - apply zrange_In in H1. apply andb_prop in H2.
    rewrite !memZ_In in H2. repeat split; try tauto; lia.
  - destruct H2 as [H2 H3]. split; [apply zrange_In; lia|].
    apply andb_true_iff. now rewrite !memZ_In.
Qed.

End Tables.

(** * Turning one flag off *)

Lemma is_on_on cells k val :
  wf cells -> 0 <= k < 81 -> 1 <= val <= 9 ->
  Possible.is_on (cell cells k) val = Ret (on cells k val).
Proof.
  intros Hwf Hk Hv. unfold Possible.is_on, on. apply vget_range.
  rewrite (wf_cell_length cells k Hwf Hk). lia.
Qed.

Lemma cell_get cells k :
  wf cells -> 0 <= k < 81 -> vget cells k = Ret (cell cells k).
Proof.
  intros [Hlen _] Hk. apply vget_range. lia.
Qed.

Lemma clear_cell_same cells k val :
  wf cells -> 0 <= k < 81 ->
  cell (clear cells k val) k = upd (cell cells k) (Z.to_nat (val - 1)) false.
Proof.
  intros [Hlen _] Hk. unfold clear, cell at 1. apply upd_nth_same. lia.
Qed.

Lemma clear_cell_other cells k val c :
  0 <= k -> 0 <= c -> c <> k -> cell (clear cells k val) c = cell cells c.
Proof.
  intros Hk Hc Hne. unfold clear, cell at 1. apply upd_nth_other. lia.
Qed.

Lemma clear_le cells k val : le_board (clear cells k val) cells.
Proof.
  unfold clear. apply upd_Forall2 with (d := []).
  - apply le_cell_refl.
  - fold (cell cells k). apply upd_Forall2 with (d := false).
    + apply le_flag_refl.
    + intros H. discriminate.
Qed.

Lemma clear_off cells k val :
  wf cells -> 0 <= k < 81 -> 1 <= val <= 9 -> on (clear cells k val) k val = false.
Proof.
  intros Hwf Hk Hv. unfold on. rewrite clear_cell_same by assumption.
  apply upd_nth_same. rewrite (wf_cell_length cells k Hwf Hk). lia.
Qed.

Lemma clear_count cells k val :
  wf cells -> 0 <= k < 81 -> on cells k val = true ->
  (Possible.countN (cell (clear cells k val) k) + 1
   = Possible.countN (cell cells k))%nat.
Proof.
  intros Hwf Hk Hon. rewrite clear_cell_same by assumption.
  now apply countN_upd_off.
Qed.

(** Each actual elimination takes one off the sum of the counts. *)
Lemma clear_total cells k val :
  wf cells -> 0 <= k < 81 -> on cells k val = true ->
  (Sudoku.total (clear cells k val) + 1 = Sudoku.total cells)%nat.
Proof.
  intros Hwf Hk Hon.
  pose proof (clear_count cells k val Hwf Hk Hon) as Hc.
  rewrite clear_cell_same in Hc by assumption.
  pose proof (total_upd cells (Z.to_nat k)
                (upd (cell cells k) (Z.to_nat (val - 1)) false)) as Ht.
  destruct Hwf as [Hlen _]. specialize (Ht ltac:(lia)).
  fold (cell cells k) in Ht. fold (clear cells k val) in Ht. lia.
Qed.

(** * More fuel does not change a result *)

Lemma for_each_mono {A : Type} (body body' : A -> Board -> res (bool * Board))
      (l : list A) :
  (forall a cs r, body a cs = Ret r -> body' a cs = Ret r) ->
  forall cs r, Sudoku.for_each body l cs = Ret r ->
               Sudoku.for_each body' l cs = Ret r.
Proof.
  intros Hb. induction l as [|a l IH]; intros cs r; cbn [Sudoku.for_each]; [auto|].
  destruct (body a cs) as [r1| |] eqn:E; cbn [bind]; try discriminate.
  rewrite (Hb _ _ _ E). cbn [bind]. destruct (fst r1); auto.
Qed.

Lemma assign_with_mono (elim elim' : Board -> Z -> Z -> res (bool * Board)) :
  (forall cs k i r, elim cs k i = Ret r -> elim' cs k i = Ret r) ->
  forall cs k val r, Sudoku.assign_with elim cs k val = Ret r ->
                     Sudoku.assign_with elim' cs k val = Ret r.
Proof.
  intros He cs k val r. unfold Sudoku.assign_with. apply for_each_mono.
  intros i cs' r'. destruct (negb (i =? val)); auto.
Qed.

Lemma check_group_mono t (asg asg' : Board -> Z -> Z -> res (bool * Board)) :
  (forall cs k i r, asg cs k i = Ret r -> asg' cs k i = Ret r) ->
  forall val x cs r, Sudoku.check_group t asg val x cs = Ret r ->
                     Sudoku.check_group t asg' val x cs = Ret r.
Proof.
  intros Ha val x cs r. unfold Sudoku.check_group.
  destruct (vget (_group t) x) as [grp| |]; cbn [bind]; try discriminate.
  destruct (Sudoku.scan_group cs grp val) as [st| |]; cbn [bind]; try discriminate.
  destruct (fst st =? 0); [auto|]. destruct (fst st =? 1); [|auto].
  destruct (snd st); auto.
Qed.

Lemma eliminate_fuel_S t fuel : forall cells k val r,
  Sudoku.eliminate t fuel cells k val = Ret r ->
  Sudoku.eliminate t (S fuel) cells k val = Ret r.
Proof.
  induction fuel as [|fuel IH]; intros cells k val r; [discriminate|].
  remember (S fuel) as fuel1 eqn:Ef.
  cbn [Sudoku.eliminate]. rewrite Ef at 1. cbn [Sudoku.eliminate].
  destruct (vget cells k) as [c| |]; cbn [bind]; try discriminate.
  destruct (Possible.is_on c val) as [b| |]; cbn [bind]; try discriminate.
  destruct (negb b); [auto|].
  destruct (Possible.eliminate c val) as [c'| |]; cbn [bind]; try discriminate.
  destruct (vset cells k c') as [cells1| |]; cbn [bind]; try discriminate.
  destruct (Possible.count c' =? 0); [auto|].
  assert (Hnb : forall r1,
             (if Possible.count c' =? 1
              then nbs <- vget (_neighbors t) k ;;
                   Sudoku.for_each
                     (fun p cs => Sudoku.eliminate t fuel cs p (Possible.val c'))
                     nbs cells1
              else Ret (true, cells1)) = Ret r1 ->
             (if Possible.count c' =? 1
              then nbs <- vget (_neighbors t) k ;;
                   Sudoku.for_each
                     (fun p cs => Sudoku.eliminate t fuel1 cs p (Possible.val c'))
                     nbs cells1
              else Ret (true, cells1)) = Ret r1).
  { intros r1. destruct (Possible.count c' =? 1); [|auto].
    destruct (vget (_neighbors t) k) as [nbs| |]; cbn [bind]; try discriminate.
    apply for_each_mono. intros p cs r2 H. subst fuel1. now apply IH. }
  match goal with
  | |- bind ?m _ = _ -> _ => destruct m as [r1| |] eqn:E1
  end; cbn [bind]; try discriminate.
  rewrite (Hnb r1 eq_refl). cbn [bind].
  destruct (negb (fst r1)); [auto|].
  destruct (vget (_groups_of t) k) as [gs| |]; cbn [bind]; try discriminate.
  apply for_each_mono. intros x cs r2. apply check_group_mono.
  intros cs' k' i r3. apply assign_with_mono.
  intros cs'' k'' i' r4 H. subst fuel1. now apply IH.
Qed.

Lemma eliminate_fuel_le t fuel fuel' cells k val r :
  (fuel <= fuel')%nat ->
  Sudoku.eliminate t fuel cells k val = Ret r ->
  Sudoku.eliminate t fuel' cells k val = Ret r.
Proof.
  induction 1 as [|fuel' _ IH]; [auto|].
  intros H. apply eliminate_fuel_S. auto.
Qed.

Lemma assign_fuel_le t fuel fuel' cells k val r :
  (fuel <= fuel')%nat ->
  Sudoku.assign t fuel cells k val = Ret r ->
  Sudoku.assign t fuel' cells k val = Ret r.
Proof.
  intros Hle. unfold Sudoku.assign. apply assign_with_mono.
  intros cs c i r'. now apply eliminate_fuel_le.
Qed.

(** A set in which only one flag can be on. *)
Lemma countN_only p n :
  (forall m, (m < length p)%nat -> m <> n -> nth m p false = false) ->
  (Possible.countN p <= 1)%nat /\
  ((0 < Possible.countN p)%nat -> nth n p false = true).
Proof.
  revert n. induction p as [|b p IH]; intros n H; simpl; [split; lia|].
  destruct n as [|n].
  - assert (H0 : Possible.countN p = 0%nat).
    { destruct (Possible.countN p) eqn:E; [reflexivity|exfalso].
      destruct (countN_witness p ltac:(lia)) as [m Hm].
      assert (m < length p)%nat.
      { destruct (Nat.lt_ge_cases m (length p)); [assumption|].
        rewrite nth_overflow in Hm by assumption. discriminate. }
      specialize (H (S m) ltac:(simpl; lia) ltac:(lia)). simpl in H. congruence. }
    destruct b; split; try lia; auto.
  - assert (Hb : b = false) by (apply (H 0%nat); simpl; lia).
    subst b. apply IH. intros m Hm Hne. apply (H (S m)); simpl; lia.
Qed.

Lemma wfb_wf cells : wfb cells = true -> wf cells.
Proof.
  unfold wfb. rewrite andb_true_iff, Nat.eqb_eq, forallb_forall.
  intros [H1 H2]. split; [exact H1|]. apply Forall_forall.
  intros p Hp. apply Nat.eqb_eq. auto.
Qed.

(** * The scan of a group *)

Lemma foldM_index {A S : Type} (F : A -> S -> res S) (post pre : list A) (s : S) :
  foldM (fun j s => p <- vget (pre ++ post) j ;; F p s)
        (zrange (Z.of_nat (length pre)) (length post)) s
  = foldM F post s.
Proof.
  revert pre s. induction post as [|a post IH]; intros pre s; [reflexivity|].
  cbn [length zrange foldM].
  assert (E : vget (pre ++ a :: post) (Z.of_nat (length pre)) = Ret a).
  { rewrite (vget_range _ _ a) by (rewrite length_app; simpl; lia).
    rewrite Nat2Z.id, app_nth2, Nat.sub_diag by lia. reflexivity. }
  rewrite E. cbn [bind]. destruct (F a s) as [s'| |]; cbn [bind]; try reflexivity.
  specialize (IH (pre ++ [a]) s').
  rewrite <- app_assoc in IH. cbn [app] in IH.
  rewrite length_app in IH. cbn [length] in IH.
  replace (Z.of_nat (length pre + 1)) with (Z.of_nat (length pre) + 1) in IH by lia.
  exact IH.
Qed.

Lemma scan_group_run cells grp val :
  wf cells -> 1 <= val <= 9 -> length grp = 9%nat ->
  (forall p, In p grp -> 0 <= p < 81) ->
  Sudoku.scan_group cells grp val = Ret (scan_list cells val grp (0, None)).
Proof.
  intros Hwf Hv Hlen Hr. unfold Sudoku.scan_group.
  change (zrange 0 9) with (zrange (Z.of_nat (@length Z [])) 9).
  rewrite <- Hlen.
  rewrite (foldM_index
             (fun p st => c <- vget cells p ;;
                          on <- Possible.is_on c val ;;
                          if on then Ret (fst st + 1, Some p) else Ret st)
             grp []).
  clear Hlen. unfold scan_list. generalize (0, @None Z) as st.
  induction grp as [|p grp IH]; intros st; [reflexivity|].
  cbn [foldM fold_left].
  rewrite (cell_get cells p Hwf) by (apply Hr; now left). cbn [bind].
  rewrite (is_on_on cells p val Hwf) by (try apply Hr; auto; now left).
  cbn [bind]. unfold scan_step at 2.
  destruct (on cells p val); cbn [bind]; apply IH; intros q Hq; apply Hr; now right.
Qed.

Lemma scan_list_count cells val grp st :
  fst (scan_list cells val grp st)
  = fst st + Z.of_nat (length (admitting cells val grp)).
Proof.
  revert st. unfold scan_list, admitting.
  induction grp as [|p grp IH]; intros st; cbn [fold_left filter]; [simpl; lia|].
  rewrite IH. unfold scan_step. destruct (on cells p val); cbn [fst length]; lia.
Qed.

Lemma scan_list_last cells val grp st :
  admitting cells val grp <> [] ->
  exists p, snd (scan_list cells val grp st) = Some p /\ In p grp /\
            on cells p val = true.
Proof.
  revert st. unfold scan_list, admitting.
  induction grp as [|p grp IH]; intros st; cbn [fold_left filter]; [congruence|].
  destruct (filter (fun p0 => on cells p0 val) grp) as [|q l] eqn:E.
  - unfold scan_step at 2. destruct (on cells p val) eqn:Hon; [|congruence].
    intros _. exists p. split; [|split; [now left|assumption]].
    clear IH. assert (Hall : forall q, In q grp -> on cells q val = false).
    { intros q Hq. destruct (on cells q val) eqn:Hq'; [|reflexivity].
      assert (In q (filter (fun p0 => on cells p0 val) grp))
        by (apply filter_In; auto).
      rewrite E in H. contradiction. }
    clear E. generalize (fst st + 1). intros n.
    induction grp as [|q grp IH]; [reflexivity|].
    cbn [fold_left]. unfold scan_step at 2.
    rewrite (Hall q) by now left. apply IH. intros; apply Hall; now right.
  - intros _. destruct (IH (scan_step cells val p st)) as (r & Hr & Hin & Hon).
    + congruence.
    + exists r. split; [exact Hr|]. split; [now right|exact Hon].
Qed.

(** * The propagation *)

Section Propagation.

Variable t : Topology.
Hypothesis Ht : topo_ok t = true.

Lemma good_refl cells : good t cells cells.
Proof. split; [apply le_board_refl|]. split; auto. Qed.

Lemma good_trans c1 c2 c3 : good t c1 c2 -> good t c2 c3 -> good t c1 c3.
Proof.
  intros (L1 & C1 & N1) (L2 & C2 & N2). split; [|split].
  - eapply le_board_trans; eassumption.
  - auto.
  - auto.
Qed.

Lemma post_refl cells : post t cells (true, cells).
Proof. split; simpl; [apply le_board_refl|]. intros _. apply good_refl. Qed.

Lemma post_fail cells cells' : le_board cells' cells -> post t cells (false, cells').
Proof. intros H. split; simpl; [exact H|discriminate]. Qed.

Lemma post_trans cells r1 r2 :
  post t cells r1 -> fst r1 = true -> post t (snd r1) r2 -> post t cells r2.
Proof.
  intros [L1 G1] H1 [L2 G2]. split.
  - eapply le_board_trans; eassumption.
  - intros H2. eapply good_trans; eauto.
Qed.

Lemma post_good cells cells' r :
  good t cells cells' -> post t cells' r -> post t cells r.
Proof.
  intros G [L2 G2]. split.
  - eapply le_board_trans; [eassumption|apply G].
  - intros H2. eapply good_trans; eauto.
Qed.

(** The body of [eliminate] on a well-formed board, with the vector
    accesses resolved. *)
Lemma eliminate_unfold fuel cells k val :
  wf cells -> 0 <= k < 81 -> 1 <= val <= 9 ->
  Sudoku.eliminate t (S fuel) cells k val =
  if negb (on cells k val) then Ret (true, cells)
  else
    let cells1 := clear cells k val in
    let N := Possible.count (cell cells1 k) in
    if N =? 0 then Ret (false, cells1)
    else
      r <- (if N =? 1 then
              Sudoku.for_each
                (fun p cells => Sudoku.eliminate t fuel cells p
                                  (Possible.val (cell cells1 k)))
                (nbrs t k) cells1
            else Ret (true, cells1)) ;;
      if negb (fst r) then Ret (false, snd r)
      else
        Sudoku.for_each
          (Sudoku.check_group t (Sudoku.assign_with (Sudoku.eliminate t fuel)) val)
          (groups_of t k) (snd r).
Proof.
  intros Hwf Hk Hv. cbn [Sudoku.eliminate].
  rewrite (cell_get cells k Hwf Hk). cbn [bind].
  rewrite (is_on_on cells k val Hwf Hk Hv). cbn [bind].
  destruct (on cells k val); cbn [negb]; [|reflexivity].
  unfold Possible.eliminate.
  rewrite vset_range by (rewrite (wf_cell_length cells k Hwf Hk); lia).
  cbn [bind].
  rewrite vset_range by (destruct Hwf; lia). cbn [bind].
  fold (clear cells k val).
  rewrite <- (clear_cell_same cells k val Hwf Hk).
  cbv zeta.
  destruct (Possible.count (cell (clear cells k val) k) =? 0); [reflexivity|].
  rewrite (nbrs_get t Ht k Hk), (groups_of_get t Ht k Hk). cbn [bind].
  reflexivity.
Qed.

Lemma check_group_run asg val x cells :
  wf cells -> 0 <= x < 27 -> 1 <= val <= 9 ->
  Sudoku.check_group t asg val x cells =
  let st := scan_list cells val (group t x) (0, None) in
  if fst st =? 0 then Ret (false, cells)
  else if fst st =? 1 then
         match snd st with
         | Some ks => asg cells ks val
         | None => UB
         end
       else Ret (true, cells).
Proof.
  intros Hwf Hx Hv. unfold Sudoku.check_group.
  rewrite (group_get t Ht x Hx). cbn [bind].
  destruct (group_facts t Ht x Hx) as (Hl & Hr & _).
  rewrite (scan_group_run cells (group t x) val Hwf Hv Hl Hr). reflexivity.
Qed.

(** A loop of propagation steps: if every iteration keeps [post], so
    does the loop, and what each successful iteration established about
    its own element still holds at the end. *)
Lemma for_each_post {A : Type} (body : A -> Board -> res (bool * Board))
      (E : A -> Board -> Prop) (l : list A) (cells0 : Board) :
  (forall a cells cells', E a cells -> le_board cells' cells -> E a cells') ->
  (forall a cells, In a l -> le_board cells cells0 ->
     exists r, body a cells = Ret r /\ post t cells r /\ E a (snd r)) ->
  forall cells, le_board cells cells0 ->
    exists r, Sudoku.for_each body l cells = Ret r /\ post t cells r /\
              (fst r = true -> forall a, In a l -> E a (snd r)).
Proof.
  intros Hst. induction l as [|a l IH]; intros Hbody cells Hle.
  - exists (true, cells). split; [reflexivity|]. split; [apply post_refl|].
    intros _ a [].
  - cbn [Sudoku.for_each].
    destruct (Hbody a cells (or_introl eq_refl) Hle) as (r1 & E1 & P1 & Ea).
    rewrite E1. cbn [bind]. destruct r1 as [b1 c1]. cbn [fst snd] in *.
    destruct b1.
    + destruct (IH (fun a' cs Hin => Hbody a' cs (or_intror Hin)) c1)
        as (r & Er & Pr & Hall).
      { eapply le_board_trans; [exact (proj1 P1)|exact Hle]. }
      exists r. split; [exact Er|]. split.
      { exact (post_trans cells (true, c1) r P1 eq_refl Pr). }
      intros Hr a' [<-|Hin].
      * eapply Hst; [exact Ea|exact (proj1 Pr)].
      * now apply Hall.
    + exists (false, c1). split; [reflexivity|].
      split; [apply post_fail; exact (proj1 P1)|discriminate].
Qed.

Lemma assign_with_post elim cells0 :
  (forall cells k i, le_board cells cells0 -> 0 <= k < 81 -> 1 <= i <= 9 ->
     exists r, elim cells k i = Ret r /\ post t cells r /\
               on (snd r) k i = false) ->
  forall cells k val, le_board cells cells0 -> 0 <= k < 81 ->
    exists r, Sudoku.assign_with elim cells k val = Ret r /\ post t cells r /\
              (fst r = true ->
               forall i, 1 <= i <= 9 -> i <> val -> on (snd r) k i = false).
Proof.
  intros Helim cells k val Hle Hk. unfold Sudoku.assign_with.
  destruct (for_each_post
              (fun i cells => if negb (i =? val) then elim cells k i
                              else Ret (true, cells))
              (fun i cs => i <> val -> on cs k i = false)
              (zrange 1 9) cells0) with (cells := cells)
    as (r & Er & Pr & Hall).
  - intros i cs cs' H Hle' Hne. eapply le_board_off; eauto.
  - intros i cs Hin Hle'. apply zrange_In in Hin.
    destruct (Z.eqb_spec i val) as [->|Hne]; cbn [negb].
    + exists (true, cs). split; [reflexivity|]. split; [apply post_refl|].
      congruence.
    + destruct (Helim cs k i Hle' Hk ltac:(lia)) as (r & Er & Pr & Hoff).
      exists r. auto.
  - exact Hle.
  - exists r. split; [exact Er|]. split; [exact Pr|].
    intros Hr i Hi Hne. apply Hall; auto. apply zrange_In. lia.
Qed.

Lemma clear_Clean_other cells k val c :
  wf cells -> 0 <= k < 81 -> 0 <= c < 81 -> c <> k ->
  Clean t cells c -> Clean t (clear cells k val) c.
Proof.
  intros Hwf Hk Hc Hne HC. unfold Clean.
  rewrite clear_cell_other by lia. intros H1 p Hp.
  eapply le_board_off; [apply clear_le|]. now apply HC.
Qed.

(** After the flag is cleared at [k] and the naked-single rule has run
    (when it applies), the board is a [good] successor of the old one. *)
Lemma naked_single_good cells k val cells2 :
  wf cells -> 0 <= k < 81 -> 1 <= val <= 9 ->
  (0 < Possible.countN (cell (clear cells k val) k))%nat ->
  good t (clear cells k val) cells2 ->
  (Possible.countN (cell (clear cells k val) k) = 1%nat ->
   forall p, In p (nbrs t k) ->
             on cells2 p (Possible.val (cell (clear cells k val) k)) = false) ->
  good t cells cells2.
Proof.
  intros Hwf Hk Hv Hpos (L & HCl & HNe) Hnb. split; [|split].
  - eapply le_board_trans; [exact L|apply clear_le].
  - intros c Hc HC. destruct (Z.eq_dec c k) as [->|Hne].
    + destruct (Nat.eq_dec (Possible.countN (cell (clear cells k val) k)) 1)
        as [H1'|H1'].
      * intros H1 p Hp.
        assert (Hk2 : (0 < Possible.countN (cell cells2 k))%nat)
          by (clear - H1; unfold Possible.count in H1; lia).
        pose proof (le_board_cell _ _ k L) as Lk.
        destruct (le_cell_single _ _ Lk H1' Hk2) as [_ Hval].
        rewrite Hval. now apply Hnb.
      * apply HCl; [exact Hc|]. intros H1. exfalso.
        clear - H1 H1'. unfold Possible.count in H1. lia.
    + apply HCl; [exact Hc|]. now apply clear_Clean_other.
  - intros c Hc Hn. apply HNe; [exact Hc|]. unfold nonempty.
    destruct (Z.eq_dec c k) as [->|Hne]; [exact Hpos|].
    rewrite clear_cell_other by lia. exact Hn.
Qed.

(** The central lemma: with fuel above the sum of the counts, a call of
    [eliminate] returns, it only clears flags, [val] is off at [k]
    afterwards, and a successful call leaves a [good] successor. *)
Lemma eliminate_spec fuel : forall cells k val,
  wf cells -> 0 <= k < 81 -> 1 <= val <= 9 ->
  (Sudoku.total cells < fuel)%nat ->
  exists r, Sudoku.eliminate t fuel cells k val = Ret r /\ post t cells r /\
            on (snd r) k val = false /\
            (on cells k val = true ->
             (Sudoku.total (snd r) < Sudoku.total cells)%nat).
Proof.
  induction fuel as [|fuel IH]; intros cells k val Hwf Hk Hv Hfuel; [lia|].
  rewrite (eliminate_unfold fuel cells k val Hwf Hk Hv).
  destruct (on cells k val) eqn:Hon; cbn [negb].
  2:{ exists (true, cells). split; [reflexivity|]. split; [apply post_refl|].
      split; [exact Hon|discriminate]. }
  cbv zeta.
  pose proof (clear_le cells k val) as L1.
  pose proof (clear_total cells k val Hwf Hk Hon) as T1.
  pose proof (clear_off cells k val Hwf Hk Hv) as Off1.
  pose proof (le_board_wf _ _ L1 Hwf) as W1.
  set (cells1 := clear cells k val) in *.
  assert (Helim : forall cs c i, le_board cs cells1 -> 0 <= c < 81 ->
            1 <= i <= 9 ->
            exists r, Sudoku.eliminate t fuel cs c i = Ret r /\ post t cs r /\
                      on (snd r) c i = false).
  { intros cs c i Hle Hc Hi.
    destruct (IH cs c i) as (r & Er & Pr & Hoff & _); auto.
    - eapply le_board_wf; eauto.
    - apply le_board_total in Hle. lia.
    - eauto. }
  unfold Possible.count.
  destruct (Z.eqb_spec (Z.of_nat (Possible.countN (cell cells1 k))) 0) as [H0|H0].
  { exists (false, cells1). split; [reflexivity|].
    split; [apply post_fail, L1|]. split; [exact Off1|]. cbn [snd]. lia. }
  assert (Hpos : (0 < Possible.countN (cell cells1 k))%nat) by lia.
  assert (Hstep : exists r1,
             (if Z.of_nat (Possible.countN (cell cells1 k)) =? 1
              then Sudoku.for_each
                     (fun p cs => Sudoku.eliminate t fuel cs p
                                    (Possible.val (cell cells1 k)))
                     (nbrs t k) cells1
              else Ret (true, cells1)) = Ret r1 /\
             le_board (snd r1) cells1 /\
             (fst r1 = true -> good t cells (snd r1))).
  { destruct (Z.eqb_spec (Z.of_nat (Possible.countN (cell cells1 k))) 1) as [H1|H1].
    - assert (Hv1 : 1 <= Possible.val (cell cells1 k) <= 9).
      { destruct (countN_witness _ Hpos) as [n Hn].
        rewrite (val_on _ n) by (auto; lia).
        assert (n < length (cell cells1 k))%nat.
        { destruct (Nat.lt_ge_cases n (length (cell cells1 k))); [assumption|].
          rewrite nth_overflow in Hn by assumption. discriminate. }
        rewrite (wf_cell_length cells1 k W1 Hk) in H. lia. }
      destruct (for_each_post
                  (fun p cs => Sudoku.eliminate t fuel cs p
                                 (Possible.val (cell cells1 k)))
                  (fun p cs => on cs p (Possible.val (cell cells1 k)) = false)
                  (nbrs t k) cells1) with (cells := cells1)
        as (r1 & E1 & P1 & Hall).
      + intros p cs cs' H Hle. eapply le_board_off; eauto.
      + intros p cs Hin Hle. apply Helim; auto.
        eapply nbrs_range; eauto.
      + apply le_board_refl.
      + exists r1. split; [exact E1|]. split; [exact (proj1 P1)|].
        intros Hr.
        apply (naked_single_good cells k val (snd r1) Hwf Hk Hv Hpos
                                 (proj2 P1 Hr)).
        intros _. exact (Hall Hr).
    - exists (true, cells1). split; [reflexivity|].
      split; [apply le_board_refl|]. intros _.
      apply (naked_single_good cells k val cells1 Hwf Hk Hv Hpos
                               (good_refl _)).
      intros Hc. exfalso. fold cells1 in Hc. clear - Hc H1. lia. }
  destruct Hstep as (r1 & E1 & L2 & G2). rewrite E1. cbn [bind].
  destruct r1 as [b1 cells2]. cbn [fst snd] in *.
  destruct b1; cbn [negb].
  2:{ exists (false, cells2). split; [reflexivity|]. split.
      - apply post_fail. eapply le_board_trans; eauto.
      - split; [eapply le_board_off; eauto|].
        intros _. cbn [snd]. apply le_board_total in L2. lia. }
  specialize (G2 eq_refl).
  destruct (for_each_post
              (Sudoku.check_group t (Sudoku.assign_with (Sudoku.eliminate t fuel)) val)
              (fun _ _ => True) (groups_of t k) cells1) with (cells := cells2)
    as (r & Er & Pr & _).
  - trivial.
  - intros x cs Hin Hle.
    assert (Hx : 0 <= x < 27) by (eapply groups_of_range; eauto).
    rewrite check_group_run; auto; [|eapply le_board_wf; eauto].
    cbv zeta. rewrite scan_list_count. cbn [fst].
    destruct (Z.eqb_spec (0 + Z.of_nat (length (admitting cs val (group t x)))) 0).
    { exists (false, cs). split; [reflexivity|].
      split; [apply post_fail, le_board_refl|trivial]. }
    destruct (Z.eqb_spec (0 + Z.of_nat (length (admitting cs val (group t x)))) 1).
    2:{ exists (true, cs). split; [reflexivity|]. split; [apply post_refl|trivial]. }
    destruct (scan_list_last cs val (group t x) (0, None)) as (ks & Eks & Hin' & _).
    { intros Hnil. rewrite Hnil in *. simpl in *. lia. }
    rewrite Eks.
    destruct (assign_with_post (Sudoku.eliminate t fuel) cells1 Helim cs ks val)
      as (r & Er & Pr & _); auto.
    { destruct (group_facts t Ht x Hx) as (_ & Hr & _). auto. }
    exists r. auto.
  - exact L2.
  - exists r. split; [exact Er|]. split; [eapply post_good; eauto|].
    assert (Lr : le_board (snd r) cells1).
    { eapply le_board_trans; [exact (proj1 Pr)|exact L2]. }
    split; [eapply le_board_off; eauto|].
    intros _. apply le_board_total in Lr. lia.
Qed.

Lemma assign_spec fuel cells k val :
  wf cells -> 0 <= k < 81 -> (Sudoku.total cells < fuel)%nat ->
  exists r, Sudoku.assign t fuel cells k val = Ret r /\ post t cells r /\
            (fst r = true ->
             forall i, 1 <= i <= 9 -> i <> val -> on (snd r) k i = false).
Proof.
  intros Hwf Hk Hfuel. unfold Sudoku.assign.
  apply assign_with_post with (cells0 := cells); [|apply le_board_refl|exact Hk].
  intros cs c i Hle Hc Hi.
  destruct (eliminate_spec fuel cs c i) as (r & Er & Pr & Hoff & _); eauto.
  - eapply le_board_wf; eauto.
  - apply le_board_total in Hle. lia.
Qed.

Lemma assign_run_spec cells k val :
  wf cells -> 0 <= k < 81 ->
  exists r, Sudoku.assign_run t cells k val = Ret r /\ post t cells r /\
            (fst r = true ->
             forall i, 1 <= i <= 9 -> i <> val -> on (snd r) k i = false).
Proof.
  intros Hwf Hk. unfold Sudoku.assign_run. apply assign_spec; auto.
Qed.

(** Whatever fuel made [assign] return, the result is the one that
    [assign_spec] describes. *)
Lemma assign_result fuel cells k val r :
  wf cells -> 0 <= k < 81 ->
  Sudoku.assign t fuel cells k val = Ret r ->
  post t cells r /\
  (fst r = true ->
   forall i, 1 <= i <= 9 -> i <> val -> on (snd r) k i = false).
Proof.
  intros Hwf Hk E.
  destruct (assign_spec (Nat.max fuel (S (Sudoku.total cells))) cells k val)
    as (r' & Er' & H); auto; [lia|].
  rewrite (assign_fuel_le t fuel _ cells k val r (Nat.le_max_l _ _) E) in Er'.
  inversion Er'; subst. exact H.
Qed.

(** The fuel of [assign_run] is enough: whatever fuel makes [assign]
    return, it returns what [assign_run] returns. *)
Lemma assign_run_any_fuel fuel cells k val r :
  wf cells -> 0 <= k < 81 ->
  Sudoku.assign t fuel cells k val = Ret r ->
  Sudoku.assign_run t cells k val = Ret r.
Proof.
  intros Hwf Hk E.
  destruct (assign_run_spec cells k val Hwf Hk) as (r' & Er' & _).
  unfold Sudoku.assign_run in *.
  pose proof (assign_fuel_le t fuel (Nat.max fuel (S (Sudoku.total cells)))
                             cells k val r (Nat.le_max_l _ _) E) as E1.
  pose proof (assign_fuel_le t _ (Nat.max fuel (S (Sudoku.total cells)))
                             cells k val r' (Nat.le_max_r _ _) Er') as E2.
  congruence.
Qed.

Lemma eliminate_result fuel cells k val r :
  wf cells -> 0 <= k < 81 -> 1 <= val <= 9 ->
  Sudoku.eliminate t fuel cells k val = Ret r ->
  post t cells r /\ on (snd r) k val = false /\
  (on cells k val = true -> (Sudoku.total (snd r) < Sudoku.total cells)%nat).
Proof.
  intros Hwf Hk Hv E.
  destruct (eliminate_spec (Nat.max fuel (S (Sudoku.total cells))) cells k val)
    as (r' & Er' & H); auto; [lia|].
  rewrite (eliminate_fuel_le t fuel _ cells k val r (Nat.le_max_l _ _) E) in Er'.
  inversion Er'; subst. exact H.
Qed.

End Propagation.

(** * The claims about the propagation *)

Section PropagationClaims.

Variable t : Topology.
Hypothesis Ht : topo_ok t = true.

(** C4.  The propagation terminates: an actual elimination takes exactly
    one off the sum of the candidate counts of the 81 cells, a call never
    raises the sum, and a recursion depth above the sum is never reached,
    so that [eliminate] and [assign] return a result on every board. *)
Theorem propagation_terminates cells k val fuel :
  wf cells -> 0 <= k < 81 -> 1 <= val <= 9 ->
  (Sudoku.total cells < fuel)%nat ->
  (on cells k val = true ->
   (Sudoku.total (clear cells k val) + 1 = Sudoku.total cells)%nat) /\
  (exists b cells',
      Sudoku.eliminate t fuel cells k val = Ret (b, cells') /\
      (Sudoku.total cells' <= Sudoku.total cells)%nat /\
      (on cells k val = true ->
       (Sudoku.total cells' < Sudoku.total cells)%nat)) /\
  (exists b cells',
      Sudoku.assign t fuel cells k val = Ret (b, cells') /\
      (Sudoku.total cells' <= Sudoku.total cells)%nat).
Proof.
  intros Hwf Hk Hv Hfuel. split; [|split].
  - intros Hon. now apply clear_total.
  - destruct (eliminate_spec t Ht fuel cells k val Hwf Hk Hv Hfuel)
      as ([b cells'] & E & P & _ & Hlt).
    exists b, cells'. split; [exact E|]. split; [|exact Hlt].
    apply le_board_total. exact (proj1 P).
  - destruct (assign_spec t Ht fuel cells k val Hwf Hk Hfuel)
      as ([b cells'] & E & P & _).
    exists b, cells'. split; [exact E|].
    apply le_board_total. exact (proj1 P).
Qed.

(** What a successful [assign(k, v)] of a candidate [v] leaves, when the
    naked-single rule was done at [k] before. *)
Lemma assign_success cells k v fuel cells' :
  wf cells -> 0 <= k < 81 -> 1 <= v <= 9 ->
  Clean t cells k ->
  on cells k v = true ->
  Sudoku.assign t fuel cells k v = Ret (true, cells') ->
  Possible.count (cell cells' k) = 1 /\
  Possible.val (cell cells' k) = v /\
  (forall i, 1 <= i <= 9 -> (on cells' k i = true <-> i = v)) /\
  (forall p, In p (nbrs t k) -> on cells' p v = false).
Proof.
  intros Hwf Hk Hv HC Hon E.
  destruct (assign_result t Ht fuel cells k v _ Hwf Hk E) as [[L G] Hoff].
  cbn [fst snd] in *. specialize (G eq_refl). specialize (Hoff eq_refl).
  destruct G as (_ & GC & GN).
  assert (Hne : nonempty cells' k).
  { apply GN; [exact Hk|]. unfold nonempty. eapply countN_pos. exact Hon. }
  pose proof (le_board_wf _ _ L Hwf) as Hwf'.
  pose proof (wf_cell_length cells' k Hwf' Hk) as Hlen.
  destruct (countN_only (cell cells' k) (Z.to_nat (v - 1))) as [Hle1 Hnth].
  { intros m Hm Hmn. specialize (Hoff (Z.of_nat m + 1) ltac:(lia) ltac:(lia)).
    unfold on in Hoff.
    replace (Z.to_nat (Z.of_nat m + 1 - 1)) with m in Hoff by lia. exact Hoff. }
  specialize (Hnth Hne). unfold nonempty in Hne.
  assert (Hc1 : Possible.countN (cell cells' k) = 1%nat) by lia.
  assert (Hval : Possible.val (cell cells' k) = v).
  { rewrite (val_on _ _ Hc1 Hnth). lia. }
  split; [unfold Possible.count; lia|]. split; [exact Hval|]. split.
  - intros i Hi. split.
    + intros Hi'. destruct (Z.eq_dec i v) as [|Hiv]; [assumption|].
      rewrite (Hoff i Hi Hiv) in Hi'. discriminate.
    + intros ->. exact Hnth.
  - intros p Hp. rewrite <- Hval.
    apply (GC k Hk HC); [unfold Possible.count; lia|exact Hp].
Qed.

(** C10, amended.  On a board where the naked-single rule is done at
    cell [k] (the cell is undetermined, or its digit is already off at
    its neighbours), a successful [assign(k, v)] of a candidate [v]
    leaves exactly [v] at [k] and [v] off at every peer of [k], that is,
    at every other cell that shares a group with [k]. *)
Theorem assign_determines cells k v fuel cells' :
  wf cells -> 0 <= k < 81 -> 1 <= v <= 9 ->
  Clean t cells k ->
  on cells k v = true ->
  Sudoku.assign t fuel cells k v = Ret (true, cells') ->
  Possible.count (cell cells' k) = 1 /\
  Possible.val (cell cells' k) = v /\
  (forall i, 1 <= i <= 9 -> (on cells' k i = true <-> i = v)) /\
  (forall p, 0 <= p < 81 -> p <> k ->
             (exists x, 0 <= x < 27 /\ In k (group t x) /\ In p (group t x)) ->
             on cells' p v = false).
Proof.
  intros Hwf Hk Hv HC Hon E.
  destruct (assign_success cells k v fuel cells' Hwf Hk Hv HC Hon E)
    as (H1 & H2 & H3 & H4).
  split; [exact H1|]. split; [exact H2|]. split; [exact H3|].
  intros p Hp Hpk Hx. apply H4.
  apply (nbrs_iff t Ht k p Hk Hp). split; assumption.
Qed.

End PropagationClaims.

Lemma wf_fresh : wf Sudoku.fresh.
Proof. apply wfb_wf. reflexivity. Qed.

Lemma propagation_terminates_witness :
  exists b cells',
    Sudoku.eliminate topo 730 Sudoku.fresh 0 1 = Ret (b, cells') /\
    (Sudoku.total cells' <= Sudoku.total Sudoku.fresh)%nat /\
    (on Sudoku.fresh 0 1 = true ->
     (Sudoku.total cells' < Sudoku.total Sudoku.fresh)%nat).
Proof.
  apply (propagation_terminates topo topo_ok_topo Sudoku.fresh 0 1 730).
  - exact wf_fresh.
  - lia.
  - lia.
  - vm_compute. lia.
Defined.

(** C10 as stated fails: cell 0 is already determined as 1 while its
    neighbour, cell 1, still admits 1; [assign(0, 1)] succeeds and changes
    nothing. *)
Lemma assign_determines_counterexample :
  let cells := upd Sudoku.fresh 0 (true :: repeat false 8) in
  on cells 0 1 = true /\
  Sudoku.assign topo 1 cells 0 1 = Ret (true, cells) /\
  In 1 (nbrs topo 0) /\ on cells 1 1 = true.
Proof.
  vm_compute. repeat split; auto.
Qed.

Lemma assign_determines_witness :
  Possible.count (cell assigned_0_5 0) = 1 /\
  Possible.val (cell assigned_0_5 0) = 5 /\
  (forall i, 1 <= i <= 9 -> (on assigned_0_5 0 i = true <-> i = 5)) /\
  (forall p, 0 <= p < 81 -> p <> 0 ->
             (exists x, 0 <= x < 27 /\ In 0 (group topo x) /\ In p (group topo x)) ->
             on assigned_0_5 p 5 = false).
Proof.
  apply (assign_determines topo topo_ok_topo Sudoku.fresh 0 5 730 assigned_0_5).
  - exact wf_fresh.
  - lia.
  - lia.
  - intros H. vm_compute in H. discriminate.
  - reflexivity.
  - vm_compute. reflexivity.
Defined.

(** * Failure and repetition of [eliminate] *)

Lemma for_each_false {A : Type} (body : A -> Board -> res (bool * Board))
      (l : list A) (cells cells' : Board) :
  Sudoku.for_each body l cells = Ret (false, cells') <->
  loop_fails body l cells cells'.
Proof.
  split.
  - revert cells. induction l as [|a l IH]; intros cells; cbn [Sudoku.for_each].
    + discriminate.
    + destruct (body a cells) as [[b1 c1]| |] eqn:E; cbn [bind fst snd];
        try discriminate.
      destruct b1.
      * intros H. destruct (IH _ H) as (pre & a' & post & cs & El & Ep & Ea).
        exists (a :: pre), a', post, cs. split; [now rewrite El|].
        split; [|exact Ea]. cbn [Sudoku.for_each]. rewrite E. exact Ep.
      * intros [= <-]. exists [], a, l, cells. auto.
  - intros (pre & a & post & cs & -> & Ep & Ea). revert cells Ep.
    induction pre as [|a' pre IH]; intros cells; cbn [Sudoku.for_each app].
    + intros [= ->]. rewrite Ea. reflexivity.
    + destruct (body a' cells) as [[b1 c1]| |]; cbn [bind fst snd];
        try discriminate.
      destruct b1; [apply IH|discriminate].
Qed.

Lemma admitting_single cells val grp st q :
  admitting cells val grp = [q] -> snd (scan_list cells val grp st) = Some q.
Proof.
  intros E. destruct (scan_list_last cells val grp st) as (p & Ep & Hin & Hon).
  - rewrite E. discriminate.
  - assert (Hp : In p (admitting cells val grp)) by (apply filter_In; auto).
    rewrite E in Hp. destruct Hp as [->|[]]. exact Ep.
Qed.

Section FailureClaims.

Variable t : Topology.
Hypothesis Ht : topo_ok t = true.

Lemma check_group_false fuel val x cs cells' :
  wf cs -> 0 <= x < 27 -> 1 <= val <= 9 ->
  (Sudoku.check_group t (Sudoku.assign t fuel) val x cs = Ret (false, cells') <->
   group_fails t fuel val x cs cells').
Proof.
  intros Hwf Hx Hv. rewrite (check_group_run t Ht _ val x cs Hwf Hx Hv).
  cbv zeta. rewrite scan_list_count. cbn [fst]. unfold group_fails.
  destruct (admitting cs val (group t x)) as [|q [|q' l]] eqn:E.
  - cbn. split.
    + intros [= <-]. left. auto.
    + intros [[_ ->]|(ks & H & _)]; [reflexivity|discriminate].
  - rewrite (admitting_single cs val (group t x) (0, None) q E). cbn. split.
    + intros H. right. exists q. auto.
    + intros [[H _]|(ks & [= <-] & H)]; [discriminate|exact H].
  - assert (H2 : 0 + Z.of_nat (length (q :: q' :: l)) >= 2)
      by (cbn [length]; lia).
    destruct (Z.eqb_spec (0 + Z.of_nat (length (q :: q' :: l))) 0); [lia|].
    destruct (Z.eqb_spec (0 + Z.of_nat (length (q :: q' :: l))) 1); [lia|].
    split; [discriminate|]. intros [[H _]|(ks & H & _)]; discriminate.
Qed.

(** The group loop of [eliminate] keeps [post], whatever part of it runs. *)
Lemma group_loop_post fuel val cells0 l cs r :
  wf cells0 -> (Sudoku.total cells0 < fuel)%nat -> 1 <= val <= 9 ->
  (forall x, In x l -> 0 <= x < 27) ->
  le_board cs cells0 ->
  Sudoku.for_each (Sudoku.check_group t (Sudoku.assign t fuel) val) l cs = Ret r ->
  post t cs r.
Proof.
  intros Hwf Hfuel Hv Hl Hle E.
  destruct (for_each_post t
              (Sudoku.check_group t (Sudoku.assign t fuel) val)
              (fun _ _ => True) l cells0) with (cells := cs)
    as (r' & Er' & Pr' & _).
  - trivial.
  - intros x cs' Hin Hle'.
    assert (Hwf' : wf cs') by (eapply le_board_wf; eauto).
    rewrite (check_group_run t Ht _ val x cs' Hwf' (Hl x Hin) Hv).
    cbv zeta. rewrite scan_list_count. cbn [fst].
    destruct (Z.eqb_spec (0 + Z.of_nat (length (admitting cs' val (group t x)))) 0).
    { exists (false, cs'). split; [reflexivity|].
      split; [apply post_fail, le_board_refl|trivial]. }
    destruct (Z.eqb_spec (0 + Z.of_nat (length (admitting cs' val (group t x)))) 1).
    2:{ exists (true, cs'). split; [reflexivity|]. split; [apply post_refl|trivial]. }
    destruct (scan_list_last cs' val (group t x) (0, None)) as (ks & Eks & Hin' & _).
    { intros Hnil. rewrite Hnil in *. simpl in *. lia. }
    rewrite Eks.
    destruct (assign_spec t Ht fuel cs' ks val) as (r' & Er' & Pr' & _); auto.
    { destruct (group_facts t Ht x (Hl x Hin)) as (_ & Hr & _). auto. }
    { apply le_board_total in Hle'. lia. }
    exists r'. auto.
  - exact Hle.
  - congruence.
Qed.

Lemma val_range cells k :
  wf cells -> 0 <= k < 81 -> (0 < Possible.countN (cell cells k))%nat ->
  1 <= Possible.val (cell cells k) <= 9.
Proof.
  intros Hwf Hk Hpos. unfold Possible.val.
  destruct (Possible.find_true (cell cells k)) as [n|] eqn:E.
  - apply find_true_Some in E. destruct E as [Hn _].
    assert (n < length (cell cells k))%nat.
    { destruct (Nat.lt_ge_cases n (length (cell cells k))); [assumption|].
      rewrite nth_overflow in Hn by assumption. discriminate. }
    rewrite (wf_cell_length cells k Hwf Hk) in H. lia.
  - apply find_true_None in E. lia.
Qed.

Lemma nbr_loop_post fuel v cells0 l cs r :
  wf cells0 -> (Sudoku.total cells0 < fuel)%nat -> 1 <= v <= 9 ->
  (forall p, In p l -> 0 <= p < 81) ->
  le_board cs cells0 ->
  Sudoku.for_each (fun p cs => Sudoku.eliminate t fuel cs p v) l cs = Ret r ->
  post t cs r.
Proof.
  intros Hwf Hfuel Hv Hl Hle E.
  destruct (for_each_post t (fun p cs => Sudoku.eliminate t fuel cs p v)
              (fun _ _ => True) l cells0) with (cells := cs)
    as (r' & Er' & Pr' & _).
  - trivial.
  - intros p cs' Hin Hle'.
    destruct (eliminate_spec t Ht fuel cs' p v) as (r' & Er' & Pr' & _); auto.
    + eapply le_board_wf; eauto.
    + apply le_board_total in Hle'. lia.
    + exists r'. auto.
  - exact Hle.
  - congruence.
Qed.

(** The tail of [eliminate]: the group loop from a board that the
    naked-single phase left. *)
Lemma group_loop_fails_iff fuel val k cells1 cells2 b cells' :
  wf cells1 -> (Sudoku.total cells1 < fuel)%nat -> 0 <= k < 81 ->
  1 <= val <= 9 -> le_board cells2 cells1 ->
  Sudoku.for_each (Sudoku.check_group t (Sudoku.assign t fuel) val)
                  (groups_of t k) cells2 = Ret (b, cells') ->
  (b = false <->
   exists pre x post cs,
     groups_of t k = pre ++ x :: post /\
     Sudoku.for_each (Sudoku.check_group t (Sudoku.assign t fuel) val)
                     pre cells2 = Ret (true, cs) /\
     group_fails t fuel val x cs cells').
Proof.
  intros Hwf Hfuel Hk Hv Hle E.
  assert (Hgo : forall pre x post cs,
             groups_of t k = pre ++ x :: post ->
             Sudoku.for_each (Sudoku.check_group t (Sudoku.assign t fuel) val)
                             pre cells2 = Ret (true, cs) ->
             wf cs /\ 0 <= x < 27).
  { intros pre x post cs El Ep. split.
    - apply (le_board_wf cs cells1); [|exact Hwf].
      eapply le_board_trans; [|exact Hle].
      refine (proj1 (group_loop_post fuel val cells1 pre cells2 _ Hwf Hfuel Hv
                                     _ Hle Ep)).
      intros y Hy. apply (groups_of_range t Ht k y Hk).
      rewrite El. apply in_or_app. now left.
    - apply (groups_of_range t Ht k x Hk). rewrite El.
      apply in_or_app. right. now left. }
  split.
  - intros ->. apply for_each_false in E.
    destruct E as (pre & x & post & cs & El & Ep & Ex).
    exists pre, x, post, cs. split; [exact El|]. split; [exact Ep|].
    destruct (Hgo pre x post cs El Ep) as [Hwf' Hx].
    now apply (check_group_false fuel val x cs cells' Hwf' Hx Hv).
  - intros (pre & x & post & cs & El & Ep & Ex).
    destruct (Hgo pre x post cs El Ep) as [Hwf' Hx].
    apply (check_group_false fuel val x cs cells' Hwf' Hx Hv) in Ex.
    assert (Ef : Sudoku.for_each
                   (Sudoku.check_group t (Sudoku.assign t fuel) val)
                   (groups_of t k) cells2 = Ret (false, cells')).
    { apply for_each_false. exists pre, x, post, cs. auto. }
    rewrite Ef in E. now inversion E.
Qed.

(** A group in the list of groups of [k] contains [k]. *)
Lemma groups_of_member k x pre post :
  0 <= k < 81 -> groups_of t k = pre ++ x :: post -> In k (group t x).
Proof.
  intros Hk El.
  assert (Hin : In x (groups_of t k))
    by (rewrite El; apply in_or_app; right; now left).
  apply (groups_of_iff t Ht k x Hk); [|exact Hin].
  exact (groups_of_range t Ht k x Hk Hin).
Qed.

(** C2, amended.  On a well-formed board, [eliminate(k, val)] returns a boolean
    together with the board it leaves (it never ends in an undefined
    access), and the boolean is [false] exactly when [val] was on at [k]
    and either its removal empties the cell, or one of the recursive
    [eliminate] calls on the neighbours fails, or the loop over the groups
    that contain [k] reaches a group in which no cell admits [val] any
    more or in which the recursive [assign] to the only admitting cell
    fails. *)
Theorem eliminate_fails_iff cells k val fuel :
  wf cells -> 0 <= k < 81 -> 1 <= val <= 9 ->
  (Sudoku.total cells < S fuel)%nat ->
  exists b cells',
    Sudoku.eliminate t (S fuel) cells k val = Ret (b, cells') /\
    (b = false <->
     on cells k val = true /\
     (Possible.count (cell (clear cells k val) k) = 0 \/
      (Possible.count (cell (clear cells k val) k) = 1 /\
       loop_fails
         (fun p cs => Sudoku.eliminate t fuel cs p
                        (Possible.val (cell (clear cells k val) k)))
         (nbrs t k) (clear cells k val) cells') \/
      (exists cells2 pre x post cs,
          naked_single_done t fuel (clear cells k val) k cells2 /\
          groups_of t k = pre ++ x :: post /\
          In k (group t x) /\
          Sudoku.for_each (Sudoku.check_group t (Sudoku.assign t fuel) val)
                          pre cells2 = Ret (true, cs) /\
          group_fails t fuel val x cs cells'))).
Proof.
  intros Hwf Hk Hv Hfuel.
  destruct (eliminate_spec t Ht (S fuel) cells k val Hwf Hk Hv Hfuel)
    as ([b cells'] & E & _).
  exists b, cells'. split; [exact E|].
  rewrite (eliminate_unfold t Ht fuel cells k val Hwf Hk Hv) in E.
  destruct (on cells k val) eqn:Hon; cbn [negb] in E.
  2:{ inversion E; subst. split; [discriminate|]. intros [H _]. discriminate. }
  cbv zeta in E.
  pose proof (clear_le cells k val) as L1.
  pose proof (clear_total cells k val Hwf Hk Hon) as T1.
  pose proof (le_board_wf _ _ L1 Hwf) as W1.
  assert (F1 : (Sudoku.total (clear cells k val) < fuel)%nat) by lia.
  set (cells1 := clear cells k val) in *.
  destruct (Z.eqb_spec (Possible.count (cell cells1 k)) 0) as [H0|H0].
  { inversion E; subst. split; auto. }
  assert (Hpos : (0 < Possible.countN (cell cells1 k))%nat)
    by (unfold Possible.count in H0; lia).
  pose proof (val_range cells1 k W1 Hk Hpos) as Hv1.
  destruct (Z.eqb_spec (Possible.count (cell cells1 k)) 1) as [H1|H1].
  - destruct (Sudoku.for_each
                (fun p cs => Sudoku.eliminate t fuel cs p
                               (Possible.val (cell cells1 k)))
                (nbrs t k) cells1) as [[b1 cells2]| |] eqn:E1;
      cbn [bind fst snd] in E; try discriminate.
    destruct b1; cbn [negb] in E.
    + assert (L2 : le_board cells2 cells1).
      { refine (proj1 (nbr_loop_post fuel _ cells1 (nbrs t k) cells1 _ W1 F1 Hv1
                                     _ (le_board_refl _) E1)).
        intros p Hp. eapply nbrs_range; eauto. }
      rewrite (group_loop_fails_iff fuel val k cells1 cells2 b cells'
                                    W1 F1 Hk Hv L2 E).
      split.
      * intros (pre & x & post & cs & El & Ep & Ex). split; [reflexivity|].
        right. right. exists cells2, pre, x, post, cs.
        split; [left; split; assumption|]. split; [exact El|].
        split; [exact (groups_of_member k x pre post Hk El)|auto].
      * intros [_ [H|[[_ H]|H]]].
        -- congruence.
        -- apply for_each_false in H. rewrite E1 in H. discriminate.
        -- destruct H as (c2 & pre & x & post & cs & [[_ Hd]|[Hd _]]
                          & El & _ & H); [|lia].
           rewrite E1 in Hd. inversion Hd; subst. exists pre, x, post, cs. auto.
    + inversion E; subst. split; [|reflexivity]. intros _.
      split; [reflexivity|]. right. left. split; [exact H1|].
      now apply for_each_false.
  - cbn [bind fst snd negb] in E.
    rewrite (group_loop_fails_iff fuel val k cells1 cells1 b cells'
                                  W1 F1 Hk Hv (le_board_refl _) E).
    split.
    + intros (pre & x & post & cs & El & Ep & Ex). split; [reflexivity|].
      right. right. exists cells1, pre, x, post, cs.
      split; [right; split; [unfold Possible.count in *; lia|reflexivity]|].
      split; [exact El|].
      split; [exact (groups_of_member k x pre post Hk El)|auto].
    + intros [_ [H|[[H _]|H]]]; try congruence.
      destruct H as (c2 & pre & x & post & cs & [[Hd _]|[_ Hd]] & El & _ & H);
        [congruence|].
      subst c2. exists pre, x, post, cs. auto.
Qed.

Lemma for_each_true_inv {A : Type} (body : A -> Board -> res (bool * Board))
      (l : list A) : forall cells cells' a,
  Sudoku.for_each body l cells = Ret (true, cells') -> In a l ->
  exists pre post cs cs',
    l = pre ++ a :: post /\
    Sudoku.for_each body pre cells = Ret (true, cs) /\
    body a cs = Ret (true, cs').
Proof.
  induction l as [|a0 l IH]; intros cells cells' a E Hin; [destruct Hin|].
  cbn [Sudoku.for_each] in E.
  destruct (body a0 cells) as [[b1 c1]| |] eqn:E0; cbn [bind fst snd] in E;
    try discriminate.
  destruct b1; [|discriminate].
  destruct Hin as [->|Hin].
  - exists [], l, cells, c1. auto.
  - destruct (IH c1 cells' a E Hin) as (pre & post & cs & cs' & -> & Ep & Ea).
    exists (a0 :: pre), post, cs, cs'. split; [reflexivity|]. split; [|exact Ea].
    cbn [Sudoku.for_each]. rewrite E0. exact Ep.
Qed.

Lemma admitting_le cells' cells val grp :
  le_board cells' cells -> admitting cells val grp = [] ->
  admitting cells' val grp = [].
Proof.
  intros L. unfold admitting. induction grp as [|p grp IH]; cbn [filter]; [auto|].
  destruct (on cells p val) eqn:E; [discriminate|].
  rewrite (le_board_off _ _ p val L E). exact IH.
Qed.

(** The second cause of C2 in its plain form: if, once [val] is removed
    at [k], some group that contains [k] has no cell left that admits
    [val], the call fails. *)
Lemma eliminate_group_exhausted cells k val fuel x :
  wf cells -> 0 <= k < 81 -> 1 <= val <= 9 ->
  (Sudoku.total cells < S fuel)%nat ->
  on cells k val = true ->
  0 <= x < 27 -> In k (group t x) ->
  admitting (clear cells k val) val (group t x) = [] ->
  exists cells', Sudoku.eliminate t (S fuel) cells k val = Ret (false, cells').
Proof.
  intros Hwf Hk Hv Hfuel Hon Hx Hkx Hnone.
  destruct (eliminate_spec t Ht (S fuel) cells k val Hwf Hk Hv Hfuel)
    as ([b cells'] & E & _).
  destruct b; [exfalso|exists cells'; exact E].
  rewrite (eliminate_unfold t Ht fuel cells k val Hwf Hk Hv), Hon in E.
  cbn [negb] in E. cbv zeta in E.
  pose proof (clear_le cells k val) as L1.
  pose proof (clear_total cells k val Hwf Hk Hon) as T1.
  pose proof (le_board_wf _ _ L1 Hwf) as W1.
  assert (F1 : (Sudoku.total (clear cells k val) < fuel)%nat) by lia.
  set (cells1 := clear cells k val) in *.
  destruct (Z.eqb_spec (Possible.count (cell cells1 k)) 0) as [H0|H0];
    [discriminate|].
  assert (Hpos : (0 < Possible.countN (cell cells1 k))%nat)
    by (unfold Possible.count in H0; lia).
  pose proof (val_range cells1 k W1 Hk Hpos) as Hv1.
  assert (Hphase : exists cells2,
             le_board cells2 cells1 /\
             Sudoku.for_each
               (Sudoku.check_group t (Sudoku.assign t fuel) val)
               (groups_of t k) cells2 = Ret (true, cells')).
  { destruct (Possible.count (cell cells1 k) =? 1).
    - destruct (Sudoku.for_each
                  (fun p cs => Sudoku.eliminate t fuel cs p
                                 (Possible.val (cell cells1 k)))
                  (nbrs t k) cells1) as [[b1 cells2]| |] eqn:E1;
        cbn [bind fst snd] in E; try discriminate.
      destruct b1; cbn [negb] in E; [|discriminate].
      exists cells2. split; [|exact E].
      refine (proj1 (nbr_loop_post fuel _ cells1 (nbrs t k) cells1 _ W1 F1 Hv1
                                   _ (le_board_refl _) E1)).
      intros p Hp. eapply nbrs_range; eauto.
    - cbn [bind fst snd negb] in E. exists cells1.
      split; [apply le_board_refl|exact E]. }
  destruct Hphase as (cells2 & L2 & E2).
  assert (Hin : In x (groups_of t k)) by (apply (groups_of_iff t Ht k x Hk Hx); exact Hkx).
  destruct (for_each_true_inv _ _ _ _ x E2 Hin)
    as (pre & post & cs & cs' & El & Ep & Ex).
  assert (Lcs : le_board cs cells2).
  { refine (proj1 (group_loop_post fuel val cells1 pre cells2 _ W1 F1 Hv _ L2 Ep)).
    intros y Hy. apply (groups_of_range t Ht k y Hk).
    rewrite El. apply in_or_app. now left. }
  assert (Lcs1 : le_board cs cells1) by (eapply le_board_trans; eauto).
  assert (Hfail : Sudoku.check_group t (Sudoku.assign t fuel) val x cs
                  = Ret (false, cs)).
  { apply check_group_false; auto; [eapply le_board_wf; eauto|].
    left. split; [|reflexivity]. eapply admitting_le; eauto. }
  rewrite Hfail in Ex. discriminate.
Qed.

(** C7, amended.  A second [eliminate(k, val)] right after a first one
    always succeeds and leaves the board that the first call left; and
    when [val] is already off at [k] the call succeeds and changes
    nothing. *)
Theorem eliminate_twice cells k val fuel b cells' :
  wf cells -> 0 <= k < 81 -> 1 <= val <= 9 ->
  Sudoku.eliminate t fuel cells k val = Ret (b, cells') ->
  (forall fuel2, Sudoku.eliminate t (S fuel2) cells' k val = Ret (true, cells')) /\
  (on cells k val = false -> b = true /\ cells' = cells).
Proof.
  intros Hwf Hk Hv E.
  destruct (eliminate_result t Ht fuel cells k val _ Hwf Hk Hv E)
    as ([L _] & Hoff & _).
  cbn [snd] in *. split.
  - intros fuel2.
    rewrite (eliminate_unfold t Ht fuel2 cells' k val
                              (le_board_wf _ _ L Hwf) Hk Hv).
    rewrite Hoff. reflexivity.
  - intros Hon. destruct fuel as [|fuel]; [discriminate|].
    rewrite (eliminate_unfold t Ht fuel cells k val Hwf Hk Hv), Hon in E.
    cbn [negb] in E. inversion E. auto.
Qed.

End FailureClaims.

Lemma wf_assigned_0_5 : wf assigned_0_5.
Proof. apply wfb_wf. reflexivity. Qed.

Lemma eliminate_fails_iff_witness :
  exists b cells',
    Sudoku.eliminate topo 730 assigned_0_5 0 5 = Ret (b, cells') /\
    (b = false <->
     on assigned_0_5 0 5 = true /\
     (Possible.count (cell (clear assigned_0_5 0 5) 0) = 0 \/
      (Possible.count (cell (clear assigned_0_5 0 5) 0) = 1 /\
       loop_fails
         (fun p cs => Sudoku.eliminate topo 729 cs p
                        (Possible.val (cell (clear assigned_0_5 0 5) 0)))
         (nbrs topo 0) (clear assigned_0_5 0 5) cells') \/
      (exists cells2 pre x post cs,
          naked_single_done topo 729 (clear assigned_0_5 0 5) 0 cells2 /\
          groups_of topo 0 = pre ++ x :: post /\
          In 0 (group topo x) /\
          Sudoku.for_each (Sudoku.check_group topo (Sudoku.assign topo 729) 5)
                          pre cells2 = Ret (true, cs) /\
          group_fails topo 729 5 x cs cells'))).
Proof.
  apply (eliminate_fails_iff topo topo_ok_topo assigned_0_5 0 5 729).
  - exact wf_assigned_0_5.
  - lia.
  - lia.
  - vm_compute. lia.
Defined.

Lemma wf_board_of_11 : wf board_of_11.
Proof. apply wfb_wf. vm_compute. reflexivity. Qed.

(** C2, as it was stated: a group of the cell without any cell that
    admits the digit does not make [eliminate] fail when the digit is
    already off at the cell.  On the board that the constructor leaves for
    the line "11", row 0 has no cell left for 9, and [eliminate(2, 9)]
    returns true at its first test. *)
Lemma eliminate_fails_iff_counterexample :
  Sudoku.Sudoku topo "11" = Ret (board_of_11, ["error"%string]) /\
  wf board_of_11 /\
  In 0 (groups_of topo 2) /\ In 2 (group topo 0) /\
  admitting board_of_11 9 (group topo 0) = [] /\
  forall fuel,
    Sudoku.eliminate topo (S fuel) board_of_11 2 9 = Ret (true, board_of_11).
Proof.
  split; [vm_compute; reflexivity|].
  split; [exact wf_board_of_11|].
  split; [vm_compute; tauto|]. split; [vm_compute; tauto|].
  split; [vm_compute; reflexivity|].
  intros fuel.
  rewrite (eliminate_unfold topo topo_ok_topo fuel board_of_11 2 9 wf_board_of_11)
    by lia.
  reflexivity.
Qed.

Lemma eliminate_twice_witness :
  (forall fuel2,
      Sudoku.eliminate topo (S fuel2) (clear assigned_0_5 0 5) 0 5
      = Ret (true, clear assigned_0_5 0 5)) /\
  (on assigned_0_5 0 5 = false ->
   false = true /\ clear assigned_0_5 0 5 = assigned_0_5).
Proof.
  apply (eliminate_twice topo topo_ok_topo assigned_0_5 0 5 2 false
                         (clear assigned_0_5 0 5)).
  - exact wf_assigned_0_5.
  - lia.
  - lia.
  - vm_compute. reflexivity.
Defined.

(** C7 as stated fails: on the board that [assign(0, 5)] leaves from the
    fresh one, the first [eliminate(0, 5)] empties cell 0 and reports
    failure, the second one finds 5 already off and reports success. *)
Lemma eliminate_twice_counterexample :
  exists cells1,
    Sudoku.eliminate topo 2 assigned_0_5 0 5 = Ret (false, cells1) /\
    Sudoku.eliminate topo 2 cells1 0 5 = Ret (true, cells1).
Proof.
  exists (clear assigned_0_5 0 5). split; vm_compute; reflexivity.
Qed.

(** * The search *)

Lemma is_solved_cell cells c :
  Sudoku.is_solved cells = true -> 0 <= c < Z.of_nat (length cells) ->
  Possible.count (cell cells c) = 1.
Proof.
  intros Hs Hc. unfold cell.
  assert (Hn : (Z.to_nat c < length cells)%nat) by lia.
  revert Hs Hn. generalize (Z.to_nat c) as n. clear Hc.
  induction cells as [|p cells IH]; intros n; cbn [Sudoku.is_solved length].
  - lia.
  - destruct (Z.eqb_spec (Possible.count p) 1) as [E|E]; cbn [negb];
      [|discriminate].
    intros Hs Hn. destruct n as [|n]; [exact E|]. apply IH; [exact Hs|lia].
Qed.

Lemma single_on cells c d :
  wf cells -> 0 <= c < 81 -> Possible.count (cell cells c) = 1 -> 1 <= d <= 9 ->
  (on cells c d = true <-> d = Possible.val (cell cells c)).
Proof.
  intros Hwf Hc H1 Hd.
  assert (Hc1 : Possible.countN (cell cells c) = 1%nat)
    by (unfold Possible.count in H1; lia).
  split.
  - intros Hon. unfold on in Hon. rewrite (val_on _ _ Hc1 Hon). lia.
  - intros ->. unfold on, Possible.val.
    destruct (Possible.find_true (cell cells c)) as [n|] eqn:E.
    + apply find_true_Some in E.
      replace (Z.to_nat (1 + Z.of_nat n - 1)) with n by lia. exact (proj1 E).
    + apply find_true_None in E. lia.
Qed.

Lemma first_some_Some {A B : Type} (body : A -> res (option B)) (l : list A)
      (x : B) :
  Sudoku.first_some body l = Ret (Some x) ->
  exists a, In a l /\ body a = Ret (Some x).
Proof.
  induction l as [|a l IH]; cbn [Sudoku.first_some]; [discriminate|].
  destruct (body a) as [[y|]| |] eqn:E; cbn [bind]; try discriminate.
  - intros [= <-]. exists a. split; [now left|exact E].
  - intros H. destruct (IH H) as (a' & Hin & Ha'). exists a'. split; [now right|exact Ha'].
Qed.

Lemma solve_unfold t fuel b :
  Sudoku.solve t (S fuel) (Some b) =
  if Sudoku.is_solved b then Ret (Some b)
  else
    p <- Sudoku.possible b (Sudoku.least_count b) ;;
    Sudoku.first_some
      (fun i =>
         on <- Possible.is_on p i ;;
         if on then
           r <- Sudoku.assign_run t b (Sudoku.least_count b) i ;;
           if fst r then Sudoku.solve t fuel (Some (snd r)) else Ret None
         else Ret None)
      (zrange 1 9).
Proof. reflexivity. Qed.

Section SolveClaims.

Variable t : Topology.
Hypothesis Ht : topo_ok t = true.

(** A solved board on which the naked-single rule is done everywhere is a
    Sudoku solution. *)
Lemma solved_consistent_valid cells :
  wf cells -> Sudoku.is_solved cells = true -> consistent t cells ->
  valid t cells.
Proof.
  intros Hwf Hs Hc x d Hx Hd.
  destruct (group_facts t Ht x Hx) as (Hlen & Hr & Hnd).
  set (digit := fun c => Possible.val (cell cells c)).
  assert (Hcnt : forall c, In c (group t x) -> Possible.count (cell cells c) = 1).
  { intros c Hin. apply is_solved_cell; [exact Hs|].
    destruct Hwf as [Hl _]. rewrite Hl. specialize (Hr c Hin). lia. }
  assert (Hown : forall c, In c (group t x) -> on cells c (digit c) = true).
  { intros c Hin. apply single_on; auto.
    apply val_range; auto. specialize (Hcnt c Hin).
    unfold Possible.count in Hcnt. lia. }
  assert (Hinj : ForallPairs (fun a b => digit a = digit b -> a = b) (group t x)).
  { intros a b Ha Hb E. destruct (Z.eq_dec a b) as [|Hne]; [assumption|exfalso].
    assert (Hnb : In b (nbrs t a)).
    { apply (nbrs_iff t Ht a b (Hr a Ha) (Hr b Hb)).
      split; [congruence|]. exists x. auto. }
    pose proof (Hc a (Hr a Ha) (Hcnt a Ha) b Hnb) as Hoff.
    fold (digit a) in Hoff. rewrite E, (Hown b Hb) in Hoff. discriminate. }
  assert (Hnd' : NoDup (map digit (group t x)))
    by (apply NoDup_map_NoDup_ForallPairs; auto).
  assert (Hall : incl (zrange 1 9) (map digit (group t x))).
  { apply NoDup_length_incl; [exact Hnd'| |].
    - rewrite length_map, Hlen. simpl. lia.
    - intros e He. apply in_map_iff in He. destruct He as (c & <- & Hin).
      apply zrange_In. unfold digit.
      assert (1 <= Possible.val (cell cells c) <= 9); [|lia].
      apply val_range; auto. specialize (Hcnt c Hin).
      unfold Possible.count in Hcnt. lia. }
  assert (Hd' : In d (map digit (group t x))) by (apply Hall, zrange_In; lia).
  apply in_map_iff in Hd'. destruct Hd' as (c & Ec & Hin).
  assert (Hc_in : In c (admitting cells d (group t x))).
  { apply filter_In. split; [exact Hin|]. rewrite <- Ec. now apply Hown. }
  assert (Huniq : forall c', In c' (admitting cells d (group t x)) -> c' = c).
  { intros c' Hc'. apply filter_In in Hc'. destruct Hc' as [Hin' Hon'].
    apply Hinj; auto. fold (digit c) in Ec. rewrite Ec. symmetry.
    apply (single_on cells c' d Hwf (Hr c' Hin') (Hcnt c' Hin') Hd). exact Hon'. }
  assert (Hnd2 : NoDup (admitting cells d (group t x)))
    by (apply NoDup_filter; exact Hnd).
  destruct (admitting cells d (group t x)) as [|a [|b l]].
  - destruct Hc_in.
  - reflexivity.
  - exfalso. inversion Hnd2 as [|? ? Hna _]; subst. apply Hna. left.
    rewrite (Huniq a), (Huniq b); auto; [right; now left|now left].
Qed.

(** [solve] keeps the invariant and only returns solved boards. *)
Lemma solve_consistent fuel : forall cells r,
  wf cells -> consistent t cells ->
  Sudoku.solve t fuel (Some cells) = Ret (Some r) ->
  wf r /\ consistent t r /\ Sudoku.is_solved r = true.
Proof.
  induction fuel as [|fuel IH]; intros cells r Hwf Hc; [discriminate|].
  rewrite solve_unfold. destruct (Sudoku.is_solved cells) eqn:Hs.
  { intros [= <-]. auto. }
  unfold Sudoku.possible.
  destruct (vget cells (Sudoku.least_count cells)) as [p| |] eqn:Ep;
    cbn [bind]; try discriminate.
  apply vget_Ret with (d := []) in Ep. destruct Ep as [Hk _].
  destruct Hwf as [Hlen Hall].
  assert (Hk81 : 0 <= Sudoku.least_count cells < 81)
    by (clear - Hk Hlen; unfold Board, Possible.t in *; lia).
  intros H. apply first_some_Some in H. destruct H as (i & _ & Hb).
  destruct (Possible.is_on p i) as [o| |]; cbn [bind] in Hb; try discriminate.
  destruct o; [|discriminate].
  destruct (Sudoku.assign_run t cells (Sudoku.least_count cells) i)
    as [[b1 c1]| |] eqn:Ea; cbn [bind fst snd] in Hb; try discriminate.
  destruct b1; [|discriminate].
  destruct (assign_result t Ht _ cells _ i _ (conj Hlen Hall) Hk81 Ea)
    as [[L G] _].
  cbn [fst snd] in *. specialize (G eq_refl). destruct G as (_ & GC & _).
  apply (IH c1 r); [eapply le_board_wf; [exact L|split; assumption]| |exact Hb].
  intros c Hc'. apply GC; auto.
Qed.

(** C1, amended.  On a board on which the naked-single rule is done
    everywhere (as on the fresh board and on every board that successful
    calls of [assign] lead to), a board that [solve] returns is solved and
    every one of the 27 groups holds every digit 1-9 exactly once. *)
Theorem solve_valid cells fuel cells' :
  wf cells -> consistent t cells ->
  Sudoku.solve t fuel (Some cells) = Ret (Some cells') ->
  Sudoku.is_solved cells' = true /\ valid t cells'.
Proof.
  intros Hwf Hc E.
  destruct (solve_consistent fuel cells cells' Hwf Hc E) as (Hwf' & Hc' & Hs).
  split; [exact Hs|]. now apply solved_consistent_valid.
Qed.

End SolveClaims.

Lemma cell_fresh c : 0 <= c < 81 -> cell Sudoku.fresh c = Possible.new.
Proof.
  intros Hc. unfold cell, Sudoku.fresh.
  apply (repeat_spec 81 Possible.new). apply nth_In. rewrite repeat_length. lia.
Qed.

(** On the fresh board no cell is determined. *)
Lemma consistent_fresh t : consistent t Sudoku.fresh.
Proof.
  intros c Hc H. rewrite (cell_fresh c Hc) in H. vm_compute in H. discriminate.
Qed.

Lemma nonempty_fresh c : 0 <= c < 81 -> nonempty Sudoku.fresh c.
Proof.
  intros Hc. unfold nonempty. rewrite (cell_fresh c Hc). vm_compute. lia.
Qed.

Lemma solve_valid_witness :
  Sudoku.is_solved solved_fresh = true /\ valid topo solved_fresh.
Proof.
  apply (solve_valid topo topo_ok_topo Sudoku.fresh 100 solved_fresh).
  - exact wf_fresh.
  - exact (consistent_fresh topo).
  - vm_compute. reflexivity.
Defined.

(** C1 as stated fails: [solve] returns the board of 81 ones as it is, a
    board that counts as solved and has nine 1s in the first row. *)
Lemma solve_valid_counterexample :
  Sudoku.solve topo 1 (Some all_ones) = Ret (Some all_ones) /\
  Sudoku.is_solved all_ones = true /\
  length (admitting all_ones 1 (group topo 0)) = 9%nat /\
  ~ valid topo all_ones.
Proof.
  split; [reflexivity|]. split; [reflexivity|]. split; [reflexivity|].
  intros H. specialize (H 0 1 ltac:(lia) ltac:(lia)). vm_compute in H.
  discriminate.
Qed.

(** The program as it is written: [main] runs on the tables that
    [Sudoku::init] was meant to fill, and on the empty puzzle it returns
    the board of 81 ones. *)
Lemma main_without_init :
  main_line 82 blank_line = Ret (Some all_ones).
Proof. vm_compute. reflexivity. Qed.

(** * Candidate sets and the choice of a cell *)

(** C5, amended.  [val()] returns the lowest remaining digit whenever at
    least one digit remains, which is the sole remaining digit when the
    count is 1, and it returns the sentinel -1 exactly when the count
    is 0. *)
Theorem val_lowest_candidate (b : Possible.t) :
  (Possible.count b = 0 <-> Possible.val b = -1) /\
  (0 < Possible.count b ->
   1 <= Possible.val b <= Z.of_nat (length b) /\
   Possible.is_on b (Possible.val b) = Ret true /\
   forall d, 1 <= d < Possible.val b -> Possible.is_on b d = Ret false) /\
  (Possible.count b = 1 ->
   forall d, Possible.is_on b d = Ret true -> d = Possible.val b).
Proof.
  unfold Possible.count, Possible.is_on. split; [|split].
  - unfold Possible.val. destruct (Possible.find_true b) as [n|] eqn:E.
    + split; [|lia]. intros H0.
      assert (Possible.find_true b = None) by (apply find_true_None; lia).
      congruence.
    + apply find_true_None in E. split; [reflexivity|lia].
  - intros Hpos. unfold Possible.val.
    destruct (Possible.find_true b) as [n|] eqn:E.
    + apply find_true_Some in E. destruct E as [Hn Hlow].
      assert (Hlt : (n < length b)%nat).
      { destruct (Nat.lt_ge_cases n (length b)); [assumption|].
        rewrite nth_overflow in Hn by assumption. discriminate. }
      split; [lia|]. split.
      * rewrite (vget_range b _ false) by lia.
        replace (Z.to_nat (1 + Z.of_nat n - 1)) with n by lia. now rewrite Hn.
      * intros d Hd. rewrite (vget_range b _ false) by lia.
        rewrite Hlow by lia. reflexivity.
    + apply find_true_None in E. lia.
  - intros H1 d Hd. apply vget_Ret with (d := false) in Hd.
    destruct Hd as [Hr Hd]. symmetry in Hd.
    rewrite (val_on b _ ltac:(lia) Hd). lia.
Qed.

(** C5 as stated fails: with all nine candidates left, [val()] is 1, not
    the sentinel. *)
Lemma val_lowest_candidate_counterexample :
  Possible.count Possible.new = 9 /\ Possible.val Possible.new = 1 /\
  Possible.val Possible.new <> -1.
Proof. split; [reflexivity|]. split; [reflexivity|discriminate]. Qed.

Lemma cell_app_old (pre : Board) (c : Possible.t) (j : Z) :
  0 <= j < Z.of_nat (length pre) -> cell (pre ++ [c]) j = cell pre j.
Proof. intros Hj. unfold cell. apply app_nth1. lia. Qed.

Lemma cell_app_new (pre : Board) (c : Possible.t) :
  cell (pre ++ [c]) (Z.of_nat (length pre)) = c.
Proof.
  unfold cell. rewrite Nat2Z.id, app_nth2, Nat.sub_diag by lia. reflexivity.
Qed.

Lemma least_count_loop_inv (suf : Board) : forall pre k min,
  least_inv pre k min ->
  exists min',
    least_inv (pre ++ suf)
              (Sudoku.least_count_loop suf (Z.of_nat (length pre)) k min) min'.
Proof.
  induction suf as [|c suf IH]; intros pre k min Hinv.
  - exists min. rewrite app_nil_r. exact Hinv.
  - cbn [Sudoku.least_count_loop].
    assert (Hlen : Z.of_nat (length (pre ++ [c])) = Z.of_nat (length pre) + 1)
      by (rewrite length_app; simpl; lia).
    replace (pre ++ c :: suf) with ((pre ++ [c]) ++ suf)
      by (rewrite <- app_assoc; reflexivity).
    rewrite <- Hlen.
    match goal with
    | |- context [if ?b then _ else _] => destruct b eqn:Eb
    end; apply IH.
    + right. rewrite Hlen, cell_app_new.
      apply andb_prop in Eb. destruct Eb as [Em Eb]. apply Z.ltb_lt in Em.
      split; [lia|]. split; [reflexivity|]. split; [exact Em|].
      destruct Hinv as [[-> Hall]|(Hk & -> & Hgt & Hmin & Hfirst)].
      * split; intros j Hj Hj1.
        -- destruct (Z.eq_dec j (Z.of_nat (length pre))) as [->|Hne].
           ++ rewrite cell_app_new. lia.
           ++ rewrite cell_app_old in Hj1 by lia. specialize (Hall j). lia.
        -- rewrite cell_app_old in Hj1 by lia. specialize (Hall j). lia.
      * apply orb_prop in Eb. destruct Eb as [Eb|Eb]; [apply Z.eqb_eq in Eb; lia|].
        apply Z.ltb_lt in Eb.
        split; intros j Hj Hj1.
        -- destruct (Z.eq_dec j (Z.of_nat (length pre))) as [->|Hne].
           ++ rewrite cell_app_new. lia.
           ++ rewrite cell_app_old in Hj1 |- * by lia.
              specialize (Hmin j ltac:(lia) Hj1). lia.
        -- rewrite cell_app_old in Hj1 |- * by lia.
           specialize (Hmin j ltac:(lia) Hj1). lia.
    + apply andb_false_iff in Eb.
      destruct Hinv as [[-> Hall]|(Hk & -> & Hgt & Hmin & Hfirst)].
      * left. split; [reflexivity|]. intros j Hj.
        destruct (Z.eq_dec j (Z.of_nat (length pre))) as [->|Hne].
        -- rewrite cell_app_new. destruct Eb as [Eb|Eb].
           ++ apply Z.ltb_ge in Eb. lia.
           ++ cbn in Eb. discriminate.
        -- rewrite cell_app_old by lia. apply Hall. lia.
      * right. rewrite !cell_app_old by lia.
        split; [lia|]. split; [reflexivity|]. split; [exact Hgt|].
        split; intros j Hj Hj1.
        -- destruct (Z.eq_dec j (Z.of_nat (length pre))) as [->|Hne].
           ++ rewrite cell_app_new in Hj1 |- *. destruct Eb as [Eb|Eb].
              ** apply Z.ltb_ge in Eb. lia.
              ** apply orb_false_iff in Eb. destruct Eb as [_ Eb].
                 apply Z.ltb_ge in Eb. lia.
           ++ rewrite cell_app_old in Hj1 |- * by lia. apply Hmin; [lia|exact Hj1].
        -- rewrite cell_app_old in Hj1 |- * by lia. now apply Hfirst.
Qed.

(** What [least_count] returns, from the invariant of its loop. *)
Lemma least_count_found (cells : Board) :
  let k := Sudoku.least_count cells in
  (k = -1 <->
   forall c, 0 <= c < Z.of_nat (length cells) -> Possible.count (cell cells c) <= 1) /\
  (k <> -1 ->
   0 <= k < Z.of_nat (length cells) /\
   1 < Possible.count (cell cells k) /\
   (forall j, 0 <= j < Z.of_nat (length cells) -> 1 < Possible.count (cell cells j) ->
              Possible.count (cell cells k) <= Possible.count (cell cells j)) /\
   (forall j, 0 <= j < k -> 1 < Possible.count (cell cells j) ->
              Possible.count (cell cells k) < Possible.count (cell cells j))).
Proof.
  cbv zeta. unfold Sudoku.least_count.
  destruct (least_count_loop_inv cells [] (-1) None) as [min' Hinv].
  { left. split; [reflexivity|]. simpl. intros; lia. }
  cbn [length app] in Hinv. change (Z.of_nat 0) with 0 in Hinv.
  destruct Hinv as [[Hk Hall]|(Hk & _ & Hgt & Hmin & Hfirst)].
  - rewrite Hk. split; [tauto|]. congruence.
  - split.
    + split; [lia|]. intros Hall. specialize (Hall _ Hk). lia.
    + intros _. auto.
Qed.

(** C6.  [least_count] returns -1 exactly when no cell has more than one
    candidate; otherwise it returns the index of a cell whose count is
    above 1, is minimal among the counts above 1, and is strictly below
    the count of every undetermined cell of lower index. *)
Theorem least_count_spec (cells : Board) :
  let k := Sudoku.least_count cells in
  (k = -1 <->
   forall c, 0 <= c < Z.of_nat (length cells) -> Possible.count (cell cells c) <= 1) /\
  (k <> -1 ->
   0 <= k < Z.of_nat (length cells) /\
   1 < Possible.count (cell cells k) /\
   (forall j, 0 <= j < Z.of_nat (length cells) -> 1 < Possible.count (cell cells j) ->
              Possible.count (cell cells k) <= Possible.count (cell cells j)) /\
   (forall j, 0 <= j < k -> 1 < Possible.count (cell cells j) ->
              Possible.count (cell cells k) < Possible.count (cell cells j))).
Proof. exact (least_count_found cells). Qed.

(** * The constructor *)

Lemma given_test c d :
  given c = Some d ->
  (Sudoku.char_val "1" <=? Sudoku.char_val c) &&
  (Sudoku.char_val c <=? Sudoku.char_val "9") = true /\
  Sudoku.char_val c - Sudoku.char_val "0" = d.
Proof.
  destruct c as [[] [] [] [] [] [] [] []]; intros H; vm_compute in H;
    try discriminate; inversion H; subst; split; reflexivity.
Qed.

Lemma not_given_test c :
  given c = None ->
  (Sudoku.char_val "1" <=? Sudoku.char_val c) &&
  (Sudoku.char_val c <=? Sudoku.char_val "9") = false /\
  (Sudoku.char_val c =? Sudoku.char_val "0") ||
  (Sudoku.char_val c =? Sudoku.char_val ".") = blank c.
Proof.
  destruct c as [[] [] [] [] [] [] [] []]; intros H; vm_compute in H;
    try discriminate; split; reflexivity.
Qed.

(** The loop of the constructor, unfolded once. *)
Lemma ctor_loop_next (t : Topology) (c : ascii) (s : string) (cells : Board)
        (k : Z) :
  Sudoku.ctor_loop t (String c s) cells k =
  match given c with
  | Some d =>
      r <- Sudoku.assign_run t cells k d ;;
      if fst r then Sudoku.ctor_loop t s (snd r) (k + 1)
      else Ret (snd r, ["error"%string])
  | None =>
      if blank c then Sudoku.ctor_loop t s cells (k + 1)
      else Sudoku.ctor_loop t s cells k
  end.
Proof.
  cbn [Sudoku.ctor_loop]. destruct (given c) as [d|] eqn:E.
  - destruct (given_test c d E) as [-> ->].
    destruct (Sudoku.assign_run t cells k d) as [r| |]; cbn [bind]; try reflexivity.
    destruct (fst r); reflexivity.
  - destruct (not_given_test c E) as [-> ->]. reflexivity.
Qed.

Lemma consumed_nonneg s : 0 <= consumed s.
Proof.
  induction s as [|c s IH]; cbn [consumed]; [lia|].
  destruct (given c); [lia|]. destruct (blank c); lia.
Qed.

Lemma given_range c d : given c = Some d -> 1 <= d <= 9.
Proof.
  destruct c as [[] [] [] [] [] [] [] []]; intros H; vm_compute in H;
    try discriminate; inversion H; lia.
Qed.

Lemma eliminate_out_of_range t fuel cells k i :
  ~ 0 <= k < Z.of_nat (length cells) ->
  Sudoku.eliminate t (S fuel) cells k i = UB.
Proof.
  intros Hk. cbn [Sudoku.eliminate]. rewrite (vget_UB cells k Hk). reflexivity.
Qed.

(** [assign] on a cell index outside the board is an access outside
    [_cells]. *)
Lemma assign_out_of_range t fuel cells k val :
  ~ 0 <= k < Z.of_nat (length cells) ->
  Sudoku.assign t (S fuel) cells k val = UB.
Proof.
  intros Hk. unfold Sudoku.assign, Sudoku.assign_with.
  change (zrange 1 9) with (1 :: 2 :: zrange 3 7). cbn [Sudoku.for_each].
  destruct (Z.eqb_spec 1 val) as [<-|Hne]; cbn [negb bind fst snd Z.eqb Pos.eqb].
  - rewrite (eliminate_out_of_range t fuel cells k 2 Hk). reflexivity.
  - rewrite (eliminate_out_of_range t fuel cells k 1 Hk). reflexivity.
Qed.

Lemma ctor_loop_app t (pre s : string) : forall cells k cells1,
  Sudoku.ctor_loop t pre cells k = Ret (cells1, []) ->
  Sudoku.ctor_loop t (pre ++ s) cells k
  = Sudoku.ctor_loop t s cells1 (k + consumed pre).
Proof.
  induction pre as [|c pre IH]; intros cells k cells1.
  - cbn. intros [= ->]. now rewrite Z.add_0_r.
  - cbn [append consumed]. rewrite !ctor_loop_next.
    destruct (given c) as [d|].
    + destruct (Sudoku.assign_run t cells k d) as [r| |]; cbn [bind];
        try discriminate.
      destruct (fst r); [|discriminate].
      intros H. rewrite (IH _ _ _ H). f_equal. lia.
    + destruct (blank c); intros H; rewrite (IH _ _ _ H); f_equal; lia.
Qed.

Section ConstructorClaims.

Variable t : Topology.
Hypothesis Ht : topo_ok t = true.

Lemma ctor_loop_ok (s : string) : forall cells k cells',
  0 <= k -> built_ok t cells ->
  Sudoku.ctor_loop t s cells k = Ret (cells', []) -> built_ok t cells'.
Proof.
  induction s as [|c s IH]; intros cells k cells' Hk Hok.
  - cbn. now intros [= <-].
  - rewrite ctor_loop_next. destruct (given c) as [d|].
    + destruct (Sudoku.assign_run t cells k d) as [[b c1]| |] eqn:Ea;
        cbn [bind fst snd]; try discriminate.
      destruct b; [|discriminate].
      destruct Hok as (Hwf & Hc & Hn).
      assert (Hk81 : 0 <= k < 81).
      { destruct (Z_lt_ge_dec k 81) as [|Hge]; [lia|exfalso].
        unfold Sudoku.assign_run in Ea.
        rewrite assign_out_of_range in Ea; [discriminate|].
        destruct Hwf as [Hl _]. unfold Board, Possible.t in *. lia. }
      destruct (assign_result t Ht _ cells k d _ Hwf Hk81 Ea) as [[L G] _].
      cbn [fst snd] in *. specialize (G eq_refl). destruct G as (_ & GC & GN).
      apply IH; [lia|]. split; [eapply le_board_wf; eauto|].
      split; [intros c0 Hc0; apply GC; auto|intros c0 Hc0; apply GN; auto].
    + destruct (blank c); apply IH; auto; lia.
Qed.

Lemma Sudoku_ok (s : string) (cells : Board) :
  Sudoku.Sudoku t s = Ret (cells, []) -> built_ok t cells.
Proof.
  intros H. apply (ctor_loop_ok s Sudoku.fresh 0 cells); [lia| |exact H].
  split; [exact wf_fresh|].
  split; [apply consistent_fresh|exact nonempty_fresh].
Qed.

(** A given whose digit is no longer a candidate of its cell makes
    [assign] fail. *)
Lemma assign_off_fails cells k d :
  wf cells -> 0 <= k < 81 -> 1 <= d <= 9 -> nonempty cells k ->
  on cells k d = false ->
  exists cells', Sudoku.assign_run t cells k d = Ret (false, cells') /\
                 le_board cells' cells.
Proof.
  intros Hwf Hk Hd Hne Hoff.
  destruct (assign_run_spec t Ht cells k d Hwf Hk) as ([b c'] & E & [L G] & Hoffs).
  cbn [fst snd] in *. destruct b.
  - exfalso. specialize (G eq_refl). destruct G as (_ & _ & GN).
    specialize (GN k Hk Hne). specialize (Hoffs eq_refl).
    pose proof (le_board_wf _ _ L Hwf) as Hwf'.
    destruct (countN_only (cell c' k) (Z.to_nat (d - 1))) as [_ Hnth].
    { intros m Hm Hmn. rewrite (wf_cell_length c' k Hwf' Hk) in Hm.
      specialize (Hoffs (Z.of_nat m + 1) ltac:(lia) ltac:(lia)).
      unfold on in Hoffs.
      replace (Z.to_nat (Z.of_nat m + 1 - 1)) with m in Hoffs by lia.
      exact Hoffs. }
    specialize (Hnth GN).
    pose proof (le_board_off _ _ k d L Hoff) as Hoff'. unfold on in Hoff'.
    congruence.
  - exists c'. auto.
Qed.

(** A construction that has reported the error has returned: the
    characters that follow change nothing. *)
Lemma ctor_loop_app_error (pre s : string) : forall cells k cells1,
  Sudoku.ctor_loop t pre cells k = Ret (cells1, ["error"%string]) ->
  Sudoku.ctor_loop t (pre ++ s) cells k = Ret (cells1, ["error"%string]).
Proof.
  induction pre as [|c pre IH]; intros cells k cells1.
  - cbn. discriminate.
  - cbn [append]. rewrite !ctor_loop_next.
    destruct (given c) as [d|].
    + destruct (Sudoku.assign_run t cells k d) as [r| |]; cbn [bind];
        try discriminate.
      destruct (fst r); [apply IH|auto].
    + destruct (blank c); apply IH.
Qed.

(** As long as the cell index stays on the board, the constructor
    returns, with or without the error line, and has only cleared
    flags. *)
Lemma ctor_loop_returns (s : string) : forall cells k,
  0 <= k -> k + consumed s <= 81 -> built_ok t cells ->
  exists cells' log,
    Sudoku.ctor_loop t s cells k = Ret (cells', log) /\
    le_board cells' cells /\ (log = [] \/ log = ["error"%string]).
Proof.
  induction s as [|c s IH]; intros cells k Hk Hend Hok.
  - exists cells, []. split; [reflexivity|]. split; [apply le_board_refl|auto].
  - rewrite ctor_loop_next. cbn [consumed] in Hend.
    pose proof (consumed_nonneg s) as Hs.
    destruct (given c) as [d|].
    + destruct Hok as (Hwf & Hc & Hn).
      destruct (assign_run_spec t Ht cells k d Hwf ltac:(lia))
        as ([b c1] & Ea & [L G] & _).
      rewrite Ea. cbn [bind fst snd] in *. destruct b.
      * specialize (G eq_refl). destruct G as (_ & GC & GN).
        destruct (IH c1 (k + 1)) as (cells' & log & E & L' & Hlog); [lia|lia| |].
        { split; [eapply le_board_wf; eauto|]. split.
          - intros c0 Hc0. apply GC; auto.
          - intros c0 Hc0. apply GN; auto. }
        exists cells', log. split; [exact E|].
        split; [eapply le_board_trans; eauto|exact Hlog].
      * exists c1, ["error"%string]. auto.
    + destruct (blank c); apply IH; auto; lia.
Qed.

(** Two equal givens in neighbouring cells: the construction reports the
    error, at the second of them at the latest. *)
Lemma equal_givens_fail (pre1 pre2 rest : string) (c : ascii) (d : Z) :
  given c = Some d ->
  consumed pre1 + 1 + consumed pre2 < 81 ->
  In (consumed pre1 + 1 + consumed pre2) (nbrs t (consumed pre1)) ->
  exists cells',
    Sudoku.Sudoku t (pre1 ++ String c (pre2 ++ String c rest))
    = Ret (cells', ["error"%string]).
Proof.
  intros Hc Hk2 Hnb. unfold Sudoku.Sudoku.
  pose proof (consumed_nonneg pre1) as H1. pose proof (consumed_nonneg pre2) as H2.
  pose proof (given_range c d Hc) as Hd.
  assert (Hfresh : built_ok t Sudoku.fresh).
  { split; [exact wf_fresh|].
    split; [apply consistent_fresh|exact nonempty_fresh]. }
  destruct (ctor_loop_returns pre1 Sudoku.fresh 0) as (c1 & log1 & E1 & _ & Hlog1);
    [lia|lia|exact Hfresh|].
  destruct Hlog1 as [->| ->].
  2:{ exists c1. now apply ctor_loop_app_error. }
  rewrite (ctor_loop_app t pre1 _ _ _ _ E1). cbn [Z.add].
  pose proof (ctor_loop_ok pre1 Sudoku.fresh 0 c1 ltac:(lia) Hfresh E1)
    as (Hwf1 & Hc1 & Hn1).
  rewrite ctor_loop_next, Hc.
  assert (Hk1 : 0 <= consumed pre1 < 81) by lia.
  destruct (assign_run_spec t Ht c1 (consumed pre1) d Hwf1 Hk1)
    as ([b c2] & Ea & [L2 G2] & _).
  rewrite Ea. cbn [bind fst snd] in *. destruct b.
  2:{ exists c2. reflexivity. }
  specialize (G2 eq_refl).
  assert (Hon : on c1 (consumed pre1) d = true).
  { destruct (on c1 (consumed pre1) d) eqn:Hon; [reflexivity|exfalso].
    destruct (assign_off_fails c1 (consumed pre1) d Hwf1 Hk1 Hd
                               (Hn1 _ Hk1) Hon) as (c' & Ea' & _).
    rewrite Ea in Ea'. discriminate. }
  destruct (assign_success t Ht c1 (consumed pre1) d _ c2 Hwf1 Hk1 Hd
                           (Hc1 _ Hk1) Hon Ea) as (_ & _ & _ & Hoff).
  assert (Hok2 : built_ok t c2).
  { destruct G2 as (_ & GC & GN). split; [eapply le_board_wf; eauto|].
    split; [intros c0 Hc0; apply GC; auto|intros c0 Hc0; apply GN; auto]. }
  destruct (ctor_loop_returns pre2 c2 (consumed pre1 + 1))
    as (c3 & log3 & E3 & L3 & Hlog3); [lia|lia|exact Hok2|].
  destruct Hlog3 as [->| ->].
  2:{ exists c3. now apply ctor_loop_app_error. }
  rewrite (ctor_loop_app t pre2 _ _ _ _ E3).
  pose proof (ctor_loop_ok pre2 c2 (consumed pre1 + 1) c3 ltac:(lia) Hok2 E3)
    as (Hwf3 & _ & Hn3).
  rewrite ctor_loop_next, Hc.
  assert (Hk2' : 0 <= consumed pre1 + 1 + consumed pre2 < 81) by lia.
  destruct (assign_off_fails c3 (consumed pre1 + 1 + consumed pre2) d Hwf3
                             Hk2' Hd (Hn3 _ Hk2'))
    as (c4 & Ea4 & _).
  { eapply le_board_off; [exact L3|]. now apply Hoff. }
  rewrite Ea4. cbn [bind fst snd]. exists c4. reflexivity.
Qed.

(** C9, amended.  When the [assign] of a given fails, the constructor writes one
    line on [cerr] and returns the board as that call left it, whatever
    characters follow; and this does happen when the givens clash: a line
    that puts two equal digits into neighbouring cells ends in that way,
    at the second of the two at the latest. *)
Theorem construction_stops :
  (forall pre c d cells cells' rest,
      Sudoku.Sudoku t pre = Ret (cells, []) ->
      given c = Some d ->
      Sudoku.assign_run t cells (consumed pre) d = Ret (false, cells') ->
      Sudoku.Sudoku t (pre ++ String c rest) = Ret (cells', ["error"%string])) /\
  (forall pre1 pre2 rest c d,
      given c = Some d ->
      consumed pre1 + 1 + consumed pre2 < 81 ->
      In (consumed pre1 + 1 + consumed pre2) (nbrs t (consumed pre1)) ->
      exists cells',
        Sudoku.Sudoku t (pre1 ++ String c (pre2 ++ String c rest))
        = Ret (cells', ["error"%string])).
Proof.
  split.
  - intros pre c d cells cells' rest Hpre Hc Ea. unfold Sudoku.Sudoku in *.
    rewrite (ctor_loop_app t pre (String c rest) _ _ _ Hpre).
    rewrite ctor_loop_next, Hc. cbn [Z.add]. rewrite Ea. reflexivity.
  - intros pre1 pre2 rest c d. apply equal_givens_fail.
Qed.

(** A puzzle line whose construction reported no error: whatever board
    [solve] returns for it is a Sudoku solution. *)
Lemma solve_line_valid (line : string) (cells : Board) (fuel : nat) (r : Board) :
  Sudoku.Sudoku t line = Ret (cells, []) ->
  Sudoku.solve t fuel (Some cells) = Ret (Some r) ->
  Sudoku.is_solved r = true /\ valid t r.
Proof.
  intros Hb Hs. destruct (Sudoku_ok line cells Hb) as (Hwf & Hc & _).
  destruct (solve_consistent t Ht fuel cells r Hwf Hc Hs) as (Hwf' & Hc' & Hsol).
  split; [exact Hsol|]. now apply (solved_consistent_valid t Ht).
Qed.

End ConstructorClaims.




Lemma construction_stops_witness :
  Sudoku.Sudoku topo ("1" ++ String "1" "23")
  = Ret (board_of_11, ["error"%string]) /\
  exists cells',
    Sudoku.Sudoku topo ("1" ++ String "1" ("..." ++ String "1" "23"))
    = Ret (cells', ["error"%string]).
Proof.
  destruct (construction_stops topo topo_ok_topo) as [Hstop Hequal]. split.
  - apply (Hstop "1"%string "1"%char 1 board_of_1 board_of_11 "23"%string).
    + vm_compute. reflexivity.
    + reflexivity.
    + vm_compute. reflexivity.
  - apply (Hequal "1"%string "..."%string "23"%string "1"%char 1).
    + reflexivity.
    + vm_compute. reflexivity.
    + vm_compute. tauto.
Defined.

(** * The search, step by step *)

Lemma first_some_first {A B : Type} (body : A -> res (option B)) (l : list A)
      (x : B) :
  Sudoku.first_some body l = Ret (Some x) <->
  exists pre a post,
    l = pre ++ a :: post /\ Forall (fun a' => body a' = Ret None) pre /\
    body a = Ret (Some x).
Proof.
  split.
  - induction l as [|a l IH]; cbn [Sudoku.first_some]; [discriminate|].
    destruct (body a) as [[y|]| |] eqn:E; cbn [bind]; try discriminate.
    + intros [= <-]. exists [], a, l. auto.
    + intros H. destruct (IH H) as (pre & a' & post & -> & Hpre & Ha').
      exists (a :: pre), a', post. auto.
  - intros (pre & a & post & -> & Hpre & Ha).
    induction Hpre as [|a' pre Ha' _ IH]; cbn [Sudoku.first_some app].
    + rewrite Ha. reflexivity.
    + rewrite Ha'. exact IH.
Qed.

Lemma first_some_none {A B : Type} (body : A -> res (option B)) (l : list A) :
  (forall a, In a l -> exists r, body a = Ret r) ->
  (Sudoku.first_some body l = Ret None <->
   Forall (fun a => body a = Ret None) l).
Proof.
  induction l as [|a l IH]; intros Hret; cbn [Sudoku.first_some].
  - split; auto.
  - destruct (Hret a (or_introl eq_refl)) as [[y|] E]; rewrite E; cbn [bind].
    + split; [discriminate|]. intros H. inversion H; subst. congruence.
    + rewrite IH by (intros; apply Hret; now right). split.
      * intros H. constructor; assumption.
      * intros H. now inversion H.
Qed.

(** Whatever board [solve] returns is solved. *)
Lemma solve_returns_solved t fuel : forall S r,
  Sudoku.solve t fuel S = Ret (Some r) -> Sudoku.is_solved r = true.
Proof.
  induction fuel as [|fuel IH]; intros S r; [discriminate|].
  destruct S as [b|]; [|discriminate].
  rewrite solve_unfold. destruct (Sudoku.is_solved b) eqn:Hs.
  { now intros [= <-]. }
  destruct (Sudoku.possible b (Sudoku.least_count b)) as [p| |];
    cbn [bind]; try discriminate.
  intros H. apply first_some_Some in H. destruct H as (i & _ & Hb).
  destruct (Possible.is_on p i) as [o| |]; cbn [bind] in Hb; try discriminate.
  destruct o; [|discriminate].
  destruct (Sudoku.assign_run t b (Sudoku.least_count b) i) as [[b1 c1]| |];
    cbn [bind fst snd] in Hb; try discriminate.
  destruct b1; [|discriminate]. exact (IH _ _ Hb).
Qed.

(** What [solve] does on a board that has a cell to branch on: a null
    pointer and a solved board are returned as they are; otherwise the
    digits 1..9 are tried in this order at the cell [k] that
    [least_count] gives, each on its own copy of the board, and the
    result of the first branch that is not null is returned. *)
Lemma solve_search t fuel b :
  Sudoku.solve t (S fuel) None = Ret None /\
  (Sudoku.is_solved b = true -> Sudoku.solve t (S fuel) (Some b) = Ret (Some b)) /\
  (Sudoku.is_solved b = false -> wf b -> Sudoku.least_count b <> -1 ->
   Sudoku.solve t (S fuel) (Some b) =
   Sudoku.first_some
     (fun i =>
        if on b (Sudoku.least_count b) i then
          r <- Sudoku.assign_run t b (Sudoku.least_count b) i ;;
          if fst r then Sudoku.solve t fuel (Some (snd r)) else Ret None
        else Ret None)
     (zrange 1 9)).
Proof.
  split; [reflexivity|]. split.
  - intros Hs. rewrite solve_unfold, Hs. reflexivity.
  - intros Hs Hwf Hk. rewrite solve_unfold, Hs.
    destruct (least_count_found b) as [_ H]. cbv zeta in H.
    specialize (H Hk). destruct H as (Hr & _).
    assert (Hk81 : 0 <= Sudoku.least_count b < 81).
    { destruct Hwf as [Hl _]. unfold Board, Possible.t in *. lia. }
    unfold Sudoku.possible. rewrite (cell_get b _ Hwf Hk81). cbn [bind].
    assert (Hbody : forall i, In i (zrange 1 9) ->
               Possible.is_on (cell b (Sudoku.least_count b)) i
               = Ret (on b (Sudoku.least_count b) i)).
    { intros i Hi. apply zrange_In in Hi. apply is_on_on; auto. lia. }
    revert Hbody. generalize (zrange 1 9) as l.
    induction l as [|i l IH]; intros Hbody; [reflexivity|].
    cbn [Sudoku.first_some]. rewrite (Hbody i (or_introl eq_refl)). cbn [bind].
    rewrite IH by (intros; apply Hbody; now right). reflexivity.
Qed.

(** The model run on a published puzzle gives its published solution. *)
Lemma solve_easy_line :
  match Sudoku.solve_line topo 2 easy_line with
  | Ret (Some b) => map Possible.val b
  | _ => []
  end = easy_solution.
Proof. vm_compute. reflexivity. Qed.

(** On a board that is not solved and on which no cell has more than one
    candidate, [least_count] answers -1 and [solve] reads [_cells[-1]]. *)
Lemma solve_no_candidate_cell t fuel b :
  Sudoku.is_solved b = false -> Sudoku.least_count b = -1 ->
  Sudoku.solve t (S fuel) (Some b) = UB.
Proof.
  intros Hs Hk. rewrite solve_unfold, Hs, Hk. reflexivity.
Qed.

(** C3, the defect.  The constructor gives up on the last given of
    [conflict_line] and leaves cell 80 without a candidate; [solve], which
    [main] calls on that board all the same, finds it unsolved, gets -1
    from [least_count] and uses it as an index: the outcome is undefined
    instead of "no solution". *)
Theorem solve_conflict_board_undefined (fuel : nat) :
  Sudoku.Sudoku topo conflict_line = Ret (conflict_board, ["error"%string]) /\
  Sudoku.is_solved conflict_board = false /\
  Sudoku.least_count conflict_board = -1 /\
  Sudoku.solve topo (S fuel) (Some conflict_board) = UB /\
  Sudoku.solve_line topo (S fuel) conflict_line = UB.
Proof.
  assert (E : Sudoku.Sudoku topo conflict_line
              = Ret (conflict_board, ["error"%string]))
    by (vm_compute; reflexivity).
  assert (Hs : Sudoku.is_solved conflict_board = false) by reflexivity.
  assert (Hk : Sudoku.least_count conflict_board = -1) by reflexivity.
  split; [exact E|]. split; [exact Hs|]. split; [exact Hk|].
  split; [now apply solve_no_candidate_cell|].
  unfold Sudoku.solve_line. rewrite E. cbn [bind fst].
  now apply solve_no_candidate_cell.
Qed.

(** The same happens, deeper in the search, for the line of two equal
    givens in one row. *)
Lemma solve_two_equal_givens : Sudoku.solve_line topo 100 "11" = UB.
Proof. vm_compute. reflexivity. Qed.

(** * Propagation and solutions *)

Lemma solutionb_solution t sol : solutionb t sol = true -> solution t sol.
Proof.
  unfold solutionb. rewrite !andb_true_iff. intros [[H1 H2] H3].
  split; [now apply wfb_wf|]. split; [exact H2|].
  intros x d Hx Hd. rewrite forallb_forall in H3.
  specialize (H3 x ltac:(apply zrange_In; lia)). rewrite forallb_forall in H3.
  specialize (H3 d ltac:(apply zrange_In; lia)). now apply Nat.eqb_eq in H3.
Qed.

Lemma Forall2_upd_r {A : Type} (R : A -> A -> Prop) (l' l : list A) (n : nat)
      (x d : A) :
  Forall2 R l' l -> R (nth n l' d) x -> Forall2 R l' (upd l n x).
Proof.
  intros H. revert n. induction H as [|a b l' l Hab Hl IH]; intros [|n]; simpl;
    intros Hx; constructor; auto.
Qed.

(** Clearing a flag that a smaller board does not have keeps it smaller. *)
Lemma clear_keeps sol cells k d :
  le_board sol cells -> on sol k d = false -> le_board sol (clear cells k d).
Proof.
  intros L Hoff. unfold clear. apply Forall2_upd_r with (d := []); [exact L|].
  fold (cell sol k). apply Forall2_upd_r with (d := false).
  - exact (le_board_cell _ _ k L).
  - intros H. change (on sol k d = true) in H. congruence.
Qed.

Lemma for_each_keeps {A : Type} (body : A -> Board -> res (bool * Board))
      (Inv : Board -> Prop) (l : list A) :
  (forall a cs, In a l -> Inv cs ->
                exists cs', body a cs = Ret (true, cs') /\ Inv cs') ->
  forall cs, Inv cs ->
             exists cs', Sudoku.for_each body l cs = Ret (true, cs') /\ Inv cs'.
Proof.
  induction l as [|a l IH]; intros Hb cs Hcs.
  - exists cs. auto.
  - cbn [Sudoku.for_each].
    destruct (Hb a cs (or_introl eq_refl) Hcs) as (c1 & E1 & H1).
    rewrite E1. cbn [bind fst snd].
    apply IH; [|exact H1]. intros a' cs' Hin. apply Hb. now right.
Qed.

Section Solutions.

Variable t : Topology.
Hypothesis Ht : topo_ok t = true.
Variable sol : Board.
Hypothesis Hsol : solution t sol.

Lemma sol_count c : 0 <= c < 81 -> Possible.count (cell sol c) = 1.
Proof.
  intros Hc. destruct Hsol as ([Hl _] & Hs & _).
  apply is_solved_cell; [exact Hs|]. unfold Board, Possible.t in *. lia.
Qed.

(** In a solution, neighbours hold different digits. *)
Lemma sol_neighbours k p v :
  0 <= k < 81 -> 1 <= v <= 9 -> In p (nbrs t k) ->
  on sol k v = true -> on sol p v = false.
Proof.
  intros Hk Hv Hp Hon.
  pose proof (nbrs_range t Ht k p Hk Hp) as Hpr.
  apply (nbrs_iff t Ht k p Hk Hpr) in Hp. destruct Hp as (Hne & x & Hx & Hkx & Hpx).
  destruct Hsol as (_ & _ & Hval). specialize (Hval x v Hx Hv).
  destruct (on sol p v) eqn:Hp; [exfalso|reflexivity].
  assert (H1 : In k (admitting sol v (group t x))) by (apply filter_In; auto).
  assert (H2 : In p (admitting sol v (group t x))) by (apply filter_In; auto).
  destruct (admitting sol v (group t x)) as [|a [|b l]]; try discriminate.
  destruct H1 as [<-|[]]. destruct H2 as [<-|[]]. congruence.
Qed.

(** In a solution, every group has a cell for every digit. *)
Lemma sol_group_has x d :
  0 <= x < 27 -> 1 <= d <= 9 ->
  exists c, In c (group t x) /\ on sol c d = true.
Proof.
  intros Hx Hd. destruct Hsol as (_ & _ & Hval). specialize (Hval x d Hx Hd).
  destruct (admitting sol d (group t x)) as [|c l] eqn:E; [discriminate|].
  assert (Hin : In c (admitting sol d (group t x))) by (rewrite E; now left).
  apply filter_In in Hin. exists c. exact Hin.
Qed.

Lemma sol_other_off c d i :
  0 <= c < 81 -> 1 <= d <= 9 -> 1 <= i <= 9 ->
  on sol c d = true -> i <> d -> on sol c i = false.
Proof.
  intros Hc Hd Hi Hon Hne. destruct Hsol as (Hwf & _).
  destruct (on sol c i) eqn:E; [exfalso|reflexivity].
  apply (single_on sol c d Hwf Hc (sol_count c Hc) Hd) in Hon.
  apply (single_on sol c i Hwf Hc (sol_count c Hc) Hi) in E. congruence.
Qed.

(** [assign(c, d)] of the solution's digit, over an [eliminate] that keeps
    the solution. *)
Lemma assign_with_keeps elim (Inv : Board -> Prop) cs c d :
  (forall cs i, Inv cs -> 1 <= i <= 9 -> on sol c i = false ->
                exists cs', elim cs c i = Ret (true, cs') /\ Inv cs') ->
  0 <= c < 81 -> 1 <= d <= 9 -> on sol c d = true -> Inv cs ->
  exists cs', Sudoku.assign_with elim cs c d = Ret (true, cs') /\ Inv cs'.
Proof.
  intros Helim Hc Hd Hon Hcs. unfold Sudoku.assign_with.
  apply for_each_keeps with (Inv := Inv); [|exact Hcs].
  intros i cs0 Hin Hcs0. apply zrange_In in Hin.
  destruct (Z.eqb_spec i d) as [->|Hne]; cbn [negb].
  - exists cs0. auto.
  - apply Helim; auto; [lia|]. apply (sol_other_off c d i); auto. lia.
Qed.

(** The heart of the matter: eliminating at [k] a digit that the solution
    does not have there succeeds and keeps every digit of the solution. *)
Lemma eliminate_keeps fuel : forall cells k d,
  wf cells -> 0 <= k < 81 -> 1 <= d <= 9 -> (Sudoku.total cells < fuel)%nat ->
  le_board sol cells -> on sol k d = false ->
  exists cells', Sudoku.eliminate t fuel cells k d = Ret (true, cells') /\
                 le_board sol cells' /\ le_board cells' cells.
Proof.
  induction fuel as [|fuel IH]; intros cells k d Hwf Hk Hd Hfuel Hle Hoff; [lia|].
  rewrite (eliminate_unfold t Ht fuel cells k d Hwf Hk Hd).
  destruct (on cells k d) eqn:Hon; cbn [negb].
  2:{ exists cells. split; [reflexivity|]. split; [exact Hle|apply le_board_refl]. }
  cbv zeta.
  pose proof (clear_le cells k d) as L1.
  pose proof (clear_total cells k d Hwf Hk Hon) as T1.
  pose proof (le_board_wf _ _ L1 Hwf) as W1.
  pose proof (clear_keeps sol cells k d Hle Hoff) as K1.
  set (cells1 := clear cells k d) in *.
  pose proof (sol_count k Hk) as Hsk.
  pose proof (le_cell_countN _ _ (le_board_cell _ _ k K1)) as Hge.
  assert (Hpos : (0 < Possible.countN (cell cells1 k))%nat)
    by (unfold Possible.count in Hsk; lia).
  unfold Possible.count at 1.
  destruct (Z.eqb_spec (Z.of_nat (Possible.countN (cell cells1 k))) 0) as [H0|_];
    [lia|].
  set (Inv := fun cs : Board => le_board sol cs /\ le_board cs cells1).
  assert (Helim : forall c cs i, Inv cs -> 1 <= i <= 9 -> on sol c i = false ->
             0 <= c < 81 ->
             exists cs', Sudoku.eliminate t fuel cs c i = Ret (true, cs') /\ Inv cs').
  { intros c cs i [Hs Hc1] Hi Hoffi Hc.
    destruct (IH cs c i) as (cs' & E & Hs' & Hc'); auto.
    - eapply le_board_wf; eauto.
    - apply le_board_total in Hc1. lia.
    - exists cs'. split; [exact E|]. split; [exact Hs'|].
      eapply le_board_trans; eauto. }
  assert (Hphase : exists cells2,
             (if Possible.count (cell cells1 k) =? 1
              then Sudoku.for_each
                     (fun p cs => Sudoku.eliminate t fuel cs p
                                    (Possible.val (cell cells1 k)))
                     (nbrs t k) cells1
              else Ret (true, cells1)) = Ret (true, cells2) /\ Inv cells2).
  { destruct (Z.eqb_spec (Possible.count (cell cells1 k)) 1) as [H1|H1].
    - pose proof (val_range cells1 k W1 Hk Hpos) as Hv.
      assert (Hsv : on sol k (Possible.val (cell cells1 k)) = true).
      { destruct (le_cell_single _ _ (le_board_cell _ _ k K1)) as [_ Hval].
        - unfold Possible.count in H1. lia.
        - unfold Possible.count in Hsk. lia.
        - rewrite <- Hval. destruct Hsol as (Hwfs & _).
          apply (single_on sol k _ Hwfs Hk Hsk); [|reflexivity].
          rewrite Hval. exact Hv. }
      apply for_each_keeps with (Inv := Inv).
      + intros p cs Hin Hcs. apply Helim; auto.
        * eapply sol_neighbours; eauto.
        * eapply nbrs_range; eauto.
      + split; [exact K1|apply le_board_refl].
    - exists cells1. split; [reflexivity|]. split; [exact K1|apply le_board_refl]. }
  destruct Hphase as (cells2 & E2 & Hinv2). rewrite E2. cbn [bind fst snd negb].
  destruct (for_each_keeps
              (Sudoku.check_group t (Sudoku.assign_with (Sudoku.eliminate t fuel)) d)
              Inv (groups_of t k)) with (cs := cells2) as (cells' & E' & Hs' & Hc').
  - intros x cs Hin [Hs Hc1].
    assert (Hx : 0 <= x < 27) by (eapply groups_of_range; eauto).
    assert (Hwfc : wf cs) by (eapply le_board_wf; eauto).
    rewrite (check_group_run t Ht _ d x cs Hwfc Hx Hd).
    cbv zeta. rewrite scan_list_count. cbn [fst].
    destruct (sol_group_has x d Hx Hd) as (c & Hcin & Hcon).
    assert (Hadm : In c (admitting cs d (group t x))).
    { apply filter_In. split; [exact Hcin|]. eapply le_board_on; eauto. }
    destruct (admitting cs d (group t x)) as [|q [|q' l]] eqn:Eadm.
    + destruct Hadm.
    + destruct Hadm as [->|[]].
      rewrite (admitting_single cs d (group t x) (0, None) c Eadm). cbn.
      destruct (group_facts t Ht x Hx) as (_ & Hr & _).
      apply (assign_with_keeps (Sudoku.eliminate t fuel) Inv cs c d);
        [|exact (Hr c Hcin)|exact Hd|exact Hcon|split; assumption].
      intros cs0 i Hcs0 Hi Hoffi. apply Helim; auto.
    + assert (H2 : 0 + Z.of_nat (length (q :: q' :: l)) >= 2)
        by (cbn [length]; lia).
      destruct (Z.eqb_spec (0 + Z.of_nat (length (q :: q' :: l))) 0); [lia|].
      destruct (Z.eqb_spec (0 + Z.of_nat (length (q :: q' :: l))) 1); [lia|].
      exists cs. split; [reflexivity|]. split; assumption.
  - exact Hinv2.
  - exists cells'. split; [exact E'|]. split; [exact Hs'|].
    eapply le_board_trans; eauto.
Qed.

Lemma assign_keeps fuel cells k d :
  wf cells -> 0 <= k < 81 -> 1 <= d <= 9 -> (Sudoku.total cells < fuel)%nat ->
  le_board sol cells -> on sol k d = true ->
  exists cells', Sudoku.assign t fuel cells k d = Ret (true, cells') /\
                 le_board sol cells' /\ le_board cells' cells.
Proof.
  intros Hwf Hk Hd Hfuel Hle Hon. unfold Sudoku.assign.
  destruct (assign_with_keeps (Sudoku.eliminate t fuel)
              (fun cs => le_board sol cs /\ le_board cs cells) cells k d)
    as (cells' & E & H); auto.
  - intros cs i [Hs Hc] Hi Hoffi.
    destruct (eliminate_keeps fuel cs k i) as (cs' & E & Hs' & Hc'); auto.
    + eapply le_board_wf; eauto.
    + apply le_board_total in Hc. lia.
    + exists cs'. split; [exact E|]. split; [exact Hs'|].
      eapply le_board_trans; eauto.
  - split; [exact Hle|apply le_board_refl].
  - exists cells'. auto.
Qed.

End Solutions.

Lemma on_in_range cells k d :
  wf cells -> 0 <= k -> 1 <= d -> on cells k d = true -> k < 81 /\ d <= 9.
Proof.
  intros [Hl Hall] Hk Hd Hon. unfold on, cell in Hon.
  assert (Hk' : (Z.to_nat k < 81)%nat).
  { destruct (Nat.lt_ge_cases (Z.to_nat k) 81) as [|Hge]; [assumption|].
    rewrite (nth_overflow cells) in Hon by lia.
    destruct (Z.to_nat (d - 1)); discriminate. }
  split; [lia|].
  assert (Hlen : length (nth (Z.to_nat k) cells []) = 9%nat).
  { rewrite Forall_forall in Hall. apply Hall. apply nth_In. lia. }
  destruct (Nat.lt_ge_cases (Z.to_nat (d - 1)) 9) as [|Hge]; [lia|].
  rewrite nth_overflow in Hon by lia. discriminate.
Qed.

Lemma is_solved_all cells :
  (forall c, 0 <= c < Z.of_nat (length cells) -> Possible.count (cell cells c) = 1) ->
  Sudoku.is_solved cells = true.
Proof.
  induction cells as [|p cells IH]; intros H; cbn [Sudoku.is_solved]; [reflexivity|].
  assert (Hp : Possible.count p = 1).
  { specialize (H 0). cbn in H. apply H. lia. }
  rewrite Hp. cbn. apply IH. intros c Hc.
  specialize (H (c + 1)). unfold cell in *.
  replace (Z.to_nat (c + 1)) with (S (Z.to_nat c)) in H by lia.
  apply H. cbn [length]. lia.
Qed.

(** A board that lost a candidate in one cell has a smaller sum. *)
Lemma total_lt_cell cells' cells n :
  le_board cells' cells -> (n < length cells)%nat ->
  (Possible.countN (nth n cells' []) < Possible.countN (nth n cells []))%nat ->
  (Sudoku.total cells' < Sudoku.total cells)%nat.
Proof.
  intros L. revert n. induction L as [|p' p c' c Hp Hl IH]; intros n Hn Hlt.
  - simpl in Hn. lia.
  - cbn [Sudoku.total]. destruct n as [|n]; cbn [nth length] in *.
    + fold (le_board c' c) in Hl. apply le_board_total in Hl. lia.
    + apply le_cell_countN in Hp. specialize (IH n ltac:(lia) Hlt). lia.
Qed.

Lemma first_some_spec {A B : Type} (body : A -> res (option B)) (l : list A)
      (Q : B -> Prop) :
  (forall a, In a l -> exists r, body a = Ret r /\ (forall x, r = Some x -> Q x)) ->
  exists r, Sudoku.first_some body l = Ret r /\
            (forall x, r = Some x -> Q x) /\
            (r = None -> forall a, In a l -> body a = Ret None).
Proof.
  induction l as [|a l IH]; intros Hb; cbn [Sudoku.first_some].
  - exists None. split; [reflexivity|]. split; [discriminate|]. intros _ a [].
  - destruct (Hb a (or_introl eq_refl)) as ([x|] & E & HQ); rewrite E; cbn [bind].
    + exists (Some x). split; [reflexivity|]. split; [exact HQ|discriminate].
    + destruct IH as (r & Er & HQr & Hnone).
      { intros a' Hin. apply Hb. now right. }
      exists r. split; [exact Er|]. split; [exact HQr|].
      intros Hr a' [<-|Hin]; [exact E|now apply Hnone].
Qed.

Section SearchAndSolutions.

Variable t : Topology.
Hypothesis Ht : topo_ok t = true.

(** The constructor on a line whose givens are those of a solution. *)
Lemma ctor_loop_keeps sol (s : string) :
  solution t sol ->
  forall cells k,
    0 <= k -> built_ok t cells -> le_board sol cells -> agrees sol s k = true ->
    exists cells',
      Sudoku.ctor_loop t s cells k = Ret (cells', []) /\
      le_board sol cells' /\ le_board cells' cells /\ built_ok t cells' /\
      givens_set cells' s k.
Proof.
  intros Hsol. induction s as [|c s IH]; intros cells k Hk Hok Hle Hag.
  - exists cells. cbn. repeat split; auto; try apply le_board_refl; apply Hok.
  - rewrite ctor_loop_next. cbn [agrees givens_set] in *.
    destruct (given c) as [d|] eqn:Hc.
    + apply andb_prop in Hag. destruct Hag as [Hon Hag].
      pose proof (given_range c d Hc) as Hd.
      destruct Hsol as (Hwfs & Hrest).
      destruct (on_in_range sol k d Hwfs Hk ltac:(lia) Hon) as [Hk81 _].
      destruct Hok as (Hwf & Hc0 & Hn0).
      destruct (assign_keeps t Ht sol (conj Hwfs Hrest) (S (Sudoku.total cells))
                             cells k d Hwf ltac:(lia) Hd ltac:(lia) Hle Hon)
        as (c1 & Ea & Hs1 & Hl1).
      unfold Sudoku.assign_run. rewrite Ea. cbn [bind fst snd].
      destruct (assign_result t Ht _ cells k d _ Hwf ltac:(lia) Ea)
        as [[_ G] Hoffs].
      cbn [fst snd] in *. specialize (G eq_refl). specialize (Hoffs eq_refl).
      destruct G as (_ & GC & GN).
      destruct (IH c1 (k + 1)) as (cells' & E & Hs' & Hl' & Hok' & Hg');
        [lia| |exact Hs1|exact Hag|].
      { split; [eapply le_board_wf; eauto|].
        split; [intros c0 Hc0'; apply GC; auto|intros c0 Hc0'; apply GN; auto]. }
      exists cells'. split; [exact E|]. split; [exact Hs'|].
      split; [eapply le_board_trans; eauto|]. split; [exact Hok'|].
      split; [|exact Hg']. intros i Hi Hne.
      eapply le_board_off; [exact Hl'|]. now apply Hoffs.
    + destruct (blank c); apply IH; auto; lia.
Qed.

(** [solve] on a board without an empty cell: it returns, what it returns
    is below the board, and it does not return null when some solution is
    below the board. *)
Lemma solve_spec fuel : forall b,
  wf b -> (forall c, 0 <= c < 81 -> nonempty b c) ->
  (Sudoku.total b < fuel)%nat ->
  exists r, Sudoku.solve t fuel (Some b) = Ret r /\
            (forall b', r = Some b' -> le_board b' b) /\
            (forall sol, solution t sol -> le_board sol b -> r <> None).
Proof.
  induction fuel as [|fuel IH]; intros b Hwf Hne Hfuel; [lia|].
  destruct (solve_search t fuel b) as (_ & Hsolved & Hsearch).
  destruct (Sudoku.is_solved b) eqn:Hs.
  { exists (Some b). split; [now apply Hsolved|]. split.
    - intros b' [= <-]. apply le_board_refl.
    - discriminate. }
  destruct (least_count_found b) as [Hm1 Hfound]. cbv zeta in Hm1, Hfound.
  assert (Hlen : Z.of_nat (length b) = 81).
  { destruct Hwf as [Hl _]. unfold Board, Possible.t in *. lia. }
  assert (Hk : Sudoku.least_count b <> -1).
  { intros Hk. rewrite (is_solved_all b) in Hs; [discriminate|].
    intros c Hc. destruct Hm1 as [Hm1 _]. specialize (Hm1 Hk c Hc).
    specialize (Hne c ltac:(lia)). unfold nonempty in Hne.
    unfold Possible.count in *. lia. }
  rewrite (Hsearch eq_refl Hwf Hk).
  destruct (Hfound Hk) as (Hkr & Hgt & _).
  set (k := Sudoku.least_count b) in *.
  assert (Hk81 : 0 <= k < 81) by lia.
  assert (Hbody : forall i, In i (zrange 1 9) ->
             exists r,
               (if on b k i
                then r <- Sudoku.assign_run t b k i ;;
                     if fst r then Sudoku.solve t fuel (Some (snd r)) else Ret None
                else Ret None) = Ret r /\
               (forall x, r = Some x -> le_board x b) /\
               (forall sol, solution t sol -> le_board sol b ->
                            on sol k i = true -> r <> None)).
  { intros i Hi. apply zrange_In in Hi.
    destruct (on b k i) eqn:Hon.
    2:{ exists None. split; [reflexivity|]. split; [discriminate|].
        intros sol _ Hle Hsi. apply (le_board_on _ _ _ _ Hle) in Hsi. congruence. }
    destruct (assign_run_spec t Ht b k i Hwf Hk81) as ([ok b1] & Ea & [L G] & _).
    rewrite Ea. cbn [bind fst snd] in *. destruct ok.
    2:{ exists None. split; [reflexivity|]. split; [discriminate|].
        intros sol Hsol Hle Hsi. exfalso.
        destruct (assign_keeps t Ht sol Hsol (S (Sudoku.total b)) b k i Hwf Hk81
                               ltac:(lia) ltac:(lia) Hle Hsi) as (b1' & Ea' & _).
        unfold Sudoku.assign_run in Ea. rewrite Ea in Ea'. discriminate. }
    specialize (G eq_refl). destruct G as (_ & GC & GN).
    assert (Hcl : Clean t b k).
    { intros H1. exfalso. unfold k in *. lia. }
    destruct (assign_success t Ht b k i _ b1 Hwf Hk81 ltac:(lia) Hcl Hon Ea)
      as (Hc1 & _).
    assert (Hlt : (Sudoku.total b1 < Sudoku.total b)%nat).
    { apply (total_lt_cell b1 b (Z.to_nat k) L); [lia|].
      fold (cell b1 k). fold (cell b k). unfold Possible.count in *. lia. }
    destruct (IH b1) as (r & Er & Hle1 & Hsome).
    - eapply le_board_wf; eauto.
    - intros c Hc. apply GN; auto.
    - lia.
    - exists r. split; [exact Er|]. split.
      + intros x Hx. eapply le_board_trans; [now apply Hle1|exact L].
      + intros sol Hsol Hle Hsi.
        destruct (assign_keeps t Ht sol Hsol (S (Sudoku.total b)) b k i Hwf Hk81
                               ltac:(lia) ltac:(lia) Hle Hsi) as (b1' & Ea' & Hs1 & _).
        unfold Sudoku.assign_run in Ea. rewrite Ea in Ea'. inversion Ea'; subst b1'.
        now apply (Hsome sol). }
  destruct (first_some_spec _ (zrange 1 9) (fun x => le_board x b)
              (fun i Hi => match Hbody i Hi with
                           | ex_intro _ r (conj E (conj HQ _)) =>
                               ex_intro _ r (conj E HQ)
                           end))
    as (r & Er & HQ & Hnone).
  exists r. split; [exact Er|]. split; [exact HQ|].
  intros sol Hsol Hle Hr.
  pose proof Hsol as (Hwfs & Hss & _).
  assert (Hc1 : Possible.count (cell sol k) = 1).
  { apply is_solved_cell; [exact Hss|]. destruct Hwfs as [Hl _].
    unfold Board, Possible.t in *. lia. }
  assert (Hpos : (0 < Possible.countN (cell sol k))%nat)
    by (unfold Possible.count in Hc1; lia).
  pose proof (val_range sol k Hwfs Hk81 Hpos) as Hv.
  assert (Hsi : on sol k (Possible.val (cell sol k)) = true)
    by (apply (single_on sol k _ Hwfs Hk81 Hc1 Hv); reflexivity).
  assert (Hin : In (Possible.val (cell sol k)) (zrange 1 9))
    by (apply zrange_In; lia).
  destruct (Hbody _ Hin) as (r' & Er' & _ & Hsome).
  rewrite (Hnone Hr _ Hin) in Er'. inversion Er'; subst r'.
  now apply (Hsome sol Hsol Hle Hsi).
Qed.

End SearchAndSolutions.

Lemma le_cell_eq p' p :
  le_cell p' p -> Possible.countN p' = Possible.countN p -> p' = p.
Proof.
  induction 1 as [|b' b p' p Hb Hl IH]; [reflexivity|].
  pose proof (le_cell_countN p' p Hl) as Hle. cbn [Possible.countN].
  destruct b', b; intros E.
  - f_equal. apply IH. lia.
  - specialize (Hb eq_refl). discriminate.
  - lia.
  - f_equal. apply IH. lia.
Qed.

(** A solved board below a solved board is that board. *)
Lemma le_board_solved_eq s b :
  le_board s b -> Sudoku.is_solved s = true -> Sudoku.is_solved b = true -> s = b.
Proof.
  induction 1 as [|p' p s b Hp Hl IH]; [reflexivity|].
  cbn [Sudoku.is_solved].
  destruct (Z.eqb_spec (Possible.count p') 1) as [E'|]; [|discriminate].
  destruct (Z.eqb_spec (Possible.count p) 1) as [E|]; [|discriminate].
  cbn [negb]. intros Hs Hb. f_equal; [|now apply IH].
  apply le_cell_eq; [exact Hp|]. unfold Possible.count in *. lia.
Qed.

Lemma le_board_fresh cells : wf cells -> le_board cells Sudoku.fresh.
Proof.
  intros [Hl Hall]. unfold Sudoku.fresh. rewrite <- Hl. clear Hl.
  induction Hall as [|p cells Hp _ IH]; cbn [length repeat]; constructor; auto.
  unfold Possible.new. rewrite <- Hp. clear.
  induction p as [|b p IH]; cbn [length repeat]; constructor; auto.
  intros _. reflexivity.
Qed.

Section SolutionClaims.

Variable t : Topology.
Hypothesis Ht : topo_ok t = true.

(** The givens of a line are the digits of every solved board that lies
    below a board on which they are set. *)
Lemma givens_agree sol b' cells (s : string) : forall k,
  0 <= k -> wf sol -> agrees sol s k = true ->
  wf b' -> Sudoku.is_solved b' = true -> le_board b' cells ->
  givens_set cells s k -> agrees b' s k = true.
Proof.
  induction s as [|c s IH]; intros k Hk Hwfs Hag Hwf Hs Hle Hg; [reflexivity|].
  cbn [agrees givens_set] in *. destruct (given c) as [d|] eqn:Hc.
  - apply andb_prop in Hag. destruct Hag as [Hon Hag]. destruct Hg as [Hoff Hg].
    pose proof (given_range c d Hc) as Hd.
    destruct (on_in_range sol k d Hwfs Hk ltac:(lia) Hon) as [Hk81 _].
    apply andb_true_intro. split; [|apply IH; auto; lia].
    assert (Hc1 : Possible.count (cell b' k) = 1).
    { apply is_solved_cell; [exact Hs|]. destruct Hwf as [Hl _].
      unfold Board, Possible.t in *. lia. }
    assert (Hpos : (0 < Possible.countN (cell b' k))%nat)
      by (unfold Possible.count in Hc1; lia).
    pose proof (val_range b' k Hwf ltac:(lia) Hpos) as Hv.
    assert (Hown : on b' k (Possible.val (cell b' k)) = true)
      by (apply (single_on b' k _ Hwf ltac:(lia) Hc1 Hv); reflexivity).
    destruct (Z.eq_dec (Possible.val (cell b' k)) d) as [<-|Hne]; [exact Hown|].
    apply (le_board_on _ _ _ _ Hle) in Hown.
    rewrite (Hoff _ Hv Hne) in Hown. discriminate.
  - destruct (blank c); apply IH; auto; lia.
Qed.

(** Propagation never loses a solution.  On a board from which a solution
    can still be reached (each of its digits is still a candidate of its
    cell), [assign] of the solution's digit succeeds, [eliminate] of any
    other digit succeeds, and the solution can still be reached from the
    board that the call leaves. *)
Theorem propagation_keeps_solution sol cells k d fuel :
  solution t sol -> wf cells -> 0 <= k < 81 -> 1 <= d <= 9 ->
  (Sudoku.total cells < fuel)%nat -> le_board sol cells ->
  (on sol k d = true ->
   exists cells', Sudoku.assign t fuel cells k d = Ret (true, cells') /\
                  le_board sol cells' /\ le_board cells' cells) /\
  (on sol k d = false ->
   exists cells', Sudoku.eliminate t fuel cells k d = Ret (true, cells') /\
                  le_board sol cells' /\ le_board cells' cells).
Proof.
  intros Hsol Hwf Hk Hd Hfuel Hle. split; intros Hon.
  - now apply (assign_keeps t Ht sol Hsol).
  - now apply (eliminate_keeps t Ht sol Hsol).
Qed.

(** A line whose givens are taken from a solution is constructed without
    the error line; the solution can be reached from the board, and each
    given cell has its given as only candidate. *)
Theorem construction_keeps_solution sol (line : string) :
  solution t sol -> agrees sol line 0 = true ->
  exists cells,
    Sudoku.Sudoku t line = Ret (cells, []) /\
    wf cells /\ le_board sol cells /\ givens_set cells line 0.
Proof.
  intros Hsol Hag. unfold Sudoku.Sudoku.
  assert (Hfresh : built_ok t Sudoku.fresh).
  { split; [exact wf_fresh|].
    split; [apply consistent_fresh|exact nonempty_fresh]. }
  assert (Hlf : le_board sol Sudoku.fresh) by (apply le_board_fresh, Hsol).
  destruct (ctor_loop_keeps t Ht sol line Hsol Sudoku.fresh 0
                            ltac:(lia) Hfresh Hlf Hag)
    as (cells & E & Hs & _ & Hok & Hg).
  exists cells. split; [exact E|]. split; [apply Hok|]. auto.
Qed.

(** [solve] returns on every board that has no empty cell, given a
    recursion depth above the sum of the counts: it never reaches the
    access at index -1; and a board it returns is solved and only lacks
    candidates of the board it was given. *)
Theorem solve_returns b fuel :
  wf b -> (forall c, 0 <= c < 81 -> nonempty b c) ->
  (Sudoku.total b < fuel)%nat ->
  exists r, Sudoku.solve t fuel (Some b) = Ret r /\
            forall b', r = Some b' ->
                       Sudoku.is_solved b' = true /\ le_board b' b.
Proof.
  intros Hwf Hne Hfuel.
  destruct (solve_spec t Ht fuel b Hwf Hne Hfuel) as (r & E & Hle & _).
  exists r. split; [exact E|]. intros b' ->. split; [|now apply Hle].
  exact (solve_returns_solved t fuel _ _ E).
Qed.


(** When exactly one solution can be reached from the board, [solve]
    returns that solution. *)
Theorem solve_unique b sol fuel :
  wf b -> consistent t b -> (forall c, 0 <= c < 81 -> nonempty b c) ->
  (Sudoku.total b < fuel)%nat ->
  solution t sol -> le_board sol b ->
  (forall s, solution t s -> le_board s b -> s = sol) ->
  Sudoku.solve t fuel (Some b) = Ret (Some sol).
Proof.
  intros Hwf Hc Hne Hfuel Hsol Hle Huniq.
  destruct (solve_spec t Ht fuel b Hwf Hne Hfuel) as (r & E & Hler & Hsome).
  destruct r as [b'|]; [|exfalso; exact (Hsome sol Hsol Hle eq_refl)].
  rewrite E. do 2 f_equal. apply Huniq; [|now apply Hler].
  destruct (solve_consistent t Ht fuel b b' Hwf Hc E) as (Hwf' & Hc' & Hs').
  split; [exact Hwf'|]. split; [exact Hs'|].
  now apply (solved_consistent_valid t Ht).
Qed.

(** From the puzzle line to the answer: for a line whose givens are taken
    from a solution, construction followed by [solve] returns a solution
    that has the givens of the line; and when the line has only one
    solution, that is the board returned. *)
Theorem solve_line_solves sol (line : string) fuel :
  solution t sol -> agrees sol line 0 = true -> (729 < fuel)%nat ->
  exists b',
    Sudoku.solve_line t fuel line = Ret (Some b') /\
    solution t b' /\ agrees b' line 0 = true /\
    ((forall s, solution t s -> agrees s line 0 = true -> s = sol) -> b' = sol).
Proof.
  intros Hsol Hag Hfuel. unfold Sudoku.solve_line, Sudoku.Sudoku.
  assert (Hfresh : built_ok t Sudoku.fresh).
  { split; [exact wf_fresh|].
    split; [apply consistent_fresh|exact nonempty_fresh]. }
  assert (Hlf0 : le_board sol Sudoku.fresh) by (apply le_board_fresh, Hsol).
  destruct (ctor_loop_keeps t Ht sol line Hsol Sudoku.fresh 0
                            ltac:(lia) Hfresh Hlf0 Hag)
    as (cells & E & Hs & Hlf & (Hwf & Hc & Hne) & Hg).
  rewrite E. cbn [bind fst].
  assert (Hfuel' : (Sudoku.total cells < fuel)%nat).
  { apply le_board_total in Hlf. change (Sudoku.total Sudoku.fresh) with 729%nat in Hlf.
    lia. }
  destruct (solve_spec t Ht fuel cells Hwf Hne Hfuel') as (r & Er & Hler & Hsome).
  destruct r as [b'|]; [|exfalso; exact (Hsome sol Hsol Hs eq_refl)].
  exists b'. split; [exact Er|].
  destruct (solve_consistent t Ht fuel cells b' Hwf Hc Er) as (Hwf' & Hc' & Hs').
  assert (Hsolb : solution t b').
  { split; [exact Hwf'|]. split; [exact Hs'|].
    now apply (solved_consistent_valid t Ht). }
  assert (Hagb : agrees b' line 0 = true).
  { apply (givens_agree sol b' cells line 0); auto; [lia|apply Hsol]. }
  split; [exact Hsolb|]. split; [exact Hagb|]. intros Huniq. now apply Huniq.
Qed.

End SolutionClaims.

(** C9, as it was stated: givens can exclude one another without any
    [assign] of the construction failing.  No solution has the givens of
    [hidden_conflict_line], yet the constructor builds its board without
    the error line; only the search finds out. *)
Lemma construction_stops_counterexample :
  (forall sol, solution topo sol -> agrees sol hidden_conflict_line 0 = false) /\
  exists cells,
    Sudoku.Sudoku topo hidden_conflict_line = Ret (cells, []) /\
    Sudoku.solve topo 402 (Some cells) = Ret None.
Proof.
  assert (Hrun : exists cells,
             Sudoku.Sudoku topo hidden_conflict_line = Ret (cells, []) /\
             Sudoku.solve topo 402 (Some cells) = Ret None /\
             (Sudoku.total cells < 402)%nat).
  { eexists. split; [vm_compute; reflexivity|].
    split; [vm_compute; reflexivity|]. vm_compute. lia. }
  split; [|destruct Hrun as (cells & E & Es & _); exists cells; auto].
  intros sol Hsol. destruct (agrees sol hidden_conflict_line 0) eqn:Hag;
    [exfalso|reflexivity].
  destruct Hrun as (cells & E & Es & Hfuel).
  assert (Hfresh : built_ok topo Sudoku.fresh).
  { split; [exact wf_fresh|].
    split; [apply consistent_fresh|exact nonempty_fresh]. }
  assert (Hlf : le_board sol Sudoku.fresh) by (apply le_board_fresh, Hsol).
  destruct (ctor_loop_keeps topo topo_ok_topo sol hidden_conflict_line Hsol
                            Sudoku.fresh 0 ltac:(lia) Hfresh Hlf Hag)
    as (cells' & E' & Hle & _ & (Hwf & _ & Hne) & _).
  unfold Sudoku.Sudoku in E. rewrite E in E'. injection E' as <-.
  destruct (solve_spec topo topo_ok_topo 402 cells Hwf Hne Hfuel)
    as (r & Er & _ & Hsome).
  rewrite Es in Er. injection Er as <-.
  exact (Hsome sol Hsol Hle eq_refl).
Qed.

(** A solution is a board on which the naked-single rule is done and no
    cell is empty. *)
Lemma solution_built_ok t sol :
  topo_ok t = true -> solution t sol -> built_ok t sol.
Proof.
  intros Ht Hsol. pose proof Hsol as (Hwf & Hs & _). split; [exact Hwf|].
  assert (Hcnt : forall c, 0 <= c < 81 -> (0 < Possible.countN (cell sol c))%nat).
  { intros c Hc. pose proof (sol_count t sol Hsol c Hc) as H1.
    unfold Possible.count in H1. lia. }
  split; [|exact Hcnt].
  intros c Hc H1 p Hp.
  pose proof (val_range sol c Hwf Hc (Hcnt c Hc)) as Hv.
  apply (sol_neighbours t Ht sol Hsol c p _ Hc Hv Hp).
  apply (single_on sol c _ Hwf Hc H1 Hv). reflexivity.
Qed.

Lemma solution_easy_board : solution topo easy_board.
Proof. apply solutionb_solution. vm_compute. reflexivity. Qed.

Lemma propagation_keeps_solution_witness :
  (on easy_board 0 4 = true ->
   exists cells', Sudoku.assign topo 730 Sudoku.fresh 0 4 = Ret (true, cells') /\
                  le_board easy_board cells' /\ le_board cells' Sudoku.fresh) /\
  (on easy_board 0 4 = false ->
   exists cells', Sudoku.eliminate topo 730 Sudoku.fresh 0 4 = Ret (true, cells') /\
                  le_board easy_board cells' /\ le_board cells' Sudoku.fresh).
Proof.
  apply (propagation_keeps_solution topo topo_ok_topo easy_board Sudoku.fresh 0 4 730).
  - exact solution_easy_board.
  - exact wf_fresh.
  - lia.
  - lia.
  - vm_compute. lia.
  - apply le_board_fresh. apply wfb_wf. reflexivity.
Defined.

Lemma construction_keeps_solution_witness :
  exists cells,
    Sudoku.Sudoku topo easy_line = Ret (cells, []) /\
    wf cells /\ le_board easy_board cells /\ givens_set cells easy_line 0.
Proof.
  apply (construction_keeps_solution topo topo_ok_topo easy_board easy_line).
  - exact solution_easy_board.
  - vm_compute. reflexivity.
Defined.

Lemma solve_returns_witness :
  exists r, Sudoku.solve topo 730 (Some Sudoku.fresh) = Ret r /\
            forall b', r = Some b' ->
                       Sudoku.is_solved b' = true /\ le_board b' Sudoku.fresh.
Proof.
  apply (solve_returns topo topo_ok_topo Sudoku.fresh 730).
  - exact wf_fresh.
  - exact nonempty_fresh.
  - vm_compute. lia.
Defined.


Lemma solve_unique_witness :
  Sudoku.solve topo 82 (Some easy_board) = Ret (Some easy_board).
Proof.
  destruct (solution_built_ok topo easy_board topo_ok_topo solution_easy_board)
    as (Hwf & Hc & Hne).
  apply (solve_unique topo topo_ok_topo easy_board easy_board 82).
  - exact Hwf.
  - exact Hc.
  - exact Hne.
  - vm_compute. lia.
  - exact solution_easy_board.
  - apply le_board_refl.
  - intros s (_ & Hs & _) Hle. apply le_board_solved_eq; auto.
Defined.

Lemma solve_line_solves_witness :
  exists b',
    Sudoku.solve_line topo 730 easy_line = Ret (Some b') /\
    solution topo b' /\ agrees b' easy_line 0 = true /\
    ((forall s, solution topo s -> agrees s easy_line 0 = true -> s = easy_board) ->
     b' = easy_board).
Proof.
  apply (solve_line_solves topo topo_ok_topo easy_board easy_line 730).
  - exact solution_easy_board.
  - vm_compute. reflexivity.
  - lia.
Defined.

(** * Candidate sets, once more *)

Lemma upd_nth_same_len {A : Type} (v : list A) (n : nat) :
  forall d, upd v n (nth n v d) = v.
Proof.
  revert n. induction v as [|y v IH]; intros [|n] d; simpl; auto.
  now rewrite IH.
Qed.

Lemma countN_upd_same p n :
  nth n p false = false -> upd p n false = p.
Proof.
  intros H. rewrite <- H at 1. apply upd_nth_same_len.
Qed.

(** The operations of a candidate set on one another.  Within the range
    of the set, [eliminate(i)] turns [i] off, leaves every other digit as
    it was, lowers the count by one when [i] was on and changes nothing
    when it was off; outside the range both [eliminate] and [is_on] are
    accesses outside the vector. *)
Theorem possible_eliminate_laws (b : Possible.t) (i : Z) :
  (1 <= i <= Z.of_nat (length b) ->
   exists on_i b',
     Possible.is_on b i = Ret on_i /\
     Possible.eliminate b i = Ret b' /\
     length b' = length b /\
     Possible.is_on b' i = Ret false /\
     (forall j, j <> i -> Possible.is_on b' j = Possible.is_on b j) /\
     Possible.count b' = Possible.count b - (if on_i then 1 else 0) /\
     (on_i = false -> b' = b)) /\
  (~ 1 <= i <= Z.of_nat (length b) ->
   Possible.is_on b i = UB /\ Possible.eliminate b i = UB).
Proof.
  unfold Possible.is_on, Possible.eliminate, Possible.count. split.
  - intros Hi. exists (nth (Z.to_nat (i - 1)) b false), (upd b (Z.to_nat (i - 1)) false).
    assert (Hlen : length (upd b (Z.to_nat (i - 1)) false) = length b).
    { generalize (Z.to_nat (i - 1)). clear. induction b as [|y b IH]; intros [|n]; simpl; auto. }
    split; [apply vget_range; lia|]. split; [apply vset_range; lia|].
    split; [exact Hlen|]. split.
    { rewrite (vget_range _ _ false) by lia. f_equal. apply upd_nth_same. lia. }
    split.
    { intros j Hj. destruct (Z_lt_ge_dec j 1) as [Hlo|Hlo].
      - rewrite !vget_UB by lia. reflexivity.
      - destruct (Z_le_gt_dec j (Z.of_nat (length b))) as [Hhi|Hhi].
        + rewrite !(vget_range _ _ false) by lia. f_equal.
          apply upd_nth_other. lia.
        + rewrite !vget_UB by lia. reflexivity. }
    split.
    { destruct (nth (Z.to_nat (i - 1)) b false) eqn:E.
      - pose proof (countN_upd_off b _ E). lia.
      - rewrite (countN_upd_same b _ E). lia. }
    intros E. now apply countN_upd_same.
  - intros Hi. split; [apply vget_UB; lia|].
    unfold vset. destruct (Z.leb_spec 0 (i - 1)); cbn [andb]; [|reflexivity].
    destruct (Z.ltb_spec (i - 1) (Z.of_nat (length b))); [lia|reflexivity].
Qed.

Lemma possible_eliminate_laws_witness :
  exists on_i b',
    Possible.is_on Possible.new 3 = Ret on_i /\
    Possible.eliminate Possible.new 3 = Ret b' /\
    length b' = length Possible.new /\
    Possible.is_on b' 3 = Ret false /\
    (forall j, j <> 3 -> Possible.is_on b' j = Possible.is_on Possible.new j) /\
    Possible.count b' = Possible.count Possible.new - (if on_i then 1 else 0) /\
    (on_i = false -> b' = Possible.new).
Proof.
  apply (proj1 (possible_eliminate_laws Possible.new 3)). vm_compute.
  split; discriminate.
Defined.

Lemma vset_UB' {A : Type} (pre : list A) (x : A) :
  vset (pre ++ []) (Z.of_nat (length pre)) x = UB.
Proof.
  unfold vset. rewrite app_nil_r.
  destruct (Z.ltb_spec (Z.of_nat (length pre)) (Z.of_nat (length pre))); [lia|].
  now rewrite andb_false_r.
Qed.

Lemma upd_app_mid {A : Type} (pre rest : list A) (x y : A) :
  upd (pre ++ x :: rest) (length pre) y = pre ++ y :: rest.
Proof. induction pre as [|a pre IH]; simpl; [reflexivity|]. now rewrite IH. Qed.

Lemma filter_on_count (b : Possible.t) : forall lo,
  length (filter (fun i => nth (Z.to_nat (i - lo)) b false) (zrange lo (length b)))
  = Possible.countN b.
Proof.
  induction b as [|x b IH]; intros lo; [reflexivity|].
  cbn [length zrange filter].
  assert (E : filter (fun i => nth (Z.to_nat (i - lo)) (x :: b) false)
                     (zrange (lo + 1) (length b))
              = filter (fun i => nth (Z.to_nat (i - (lo + 1))) b false)
                       (zrange (lo + 1) (length b))).
  { apply filter_ext_in. intros i Hi. apply zrange_In in Hi.
    replace (Z.to_nat (i - lo)) with (S (Z.to_nat (i - (lo + 1)))) by lia.
    reflexivity. }
  rewrite E, Z.sub_diag. cbn [Z.to_nat nth].
  destruct x; cbn [length Possible.countN]; now rewrite IH.
Qed.

Lemma candidates_count (b : Possible.t) :
  length b = 9%nat -> length (candidates b) = Possible.countN b.
Proof.
  intros Hl. unfold candidates. rewrite <- (filter_on_count b 1), Hl. reflexivity.
Qed.

(** The loop of [str] from a string in which the characters of [pre] are
    written and [n] blanks are left. *)
Lemma str_loop (b : Possible.t) (l : list Z) :
  (forall i, In i l -> 1 <= i <= Z.of_nat (length b)) ->
  forall pre n,
    foldM (fun i st =>
             on <- Possible.is_on b i ;;
             if on then
               s' <- vset (fst st) (snd st) (Possible.digit_char i) ;;
               Ret (s', snd st + 1)
             else Ret st)
          l (pre ++ repeat " "%char n, Z.of_nat (length pre))
    = let c := filter (fun i => nth (Z.to_nat (i - 1)) b false) l in
      if (length c <=? n)%nat
      then Ret (pre ++ map Possible.digit_char c ++ repeat " "%char (n - length c),
                Z.of_nat (length pre + length c))
      else UB.
Proof.
  induction l as [|i l IH]; intros Hl pre n; cbv zeta.
  - cbn. rewrite Nat.sub_0_r, Nat.add_0_r. reflexivity.
  - cbn [foldM filter]. unfold Possible.is_on at 1.
    rewrite (vget_range b (i - 1) false) by (specialize (Hl i (or_introl eq_refl)); lia).
    cbn [bind]. destruct (nth (Z.to_nat (i - 1)) b false); cbn [fst snd length].
    + destruct n as [|n].
      * cbn [repeat]. rewrite vset_UB'. reflexivity.
      * rewrite vset_range
          by (rewrite length_app, repeat_length; cbn [length]; lia).
        cbn [bind]. rewrite Nat2Z.id. cbn [repeat]. rewrite upd_app_mid.
        specialize (IH (fun j Hj => Hl j (or_intror Hj)) (pre ++ [Possible.digit_char i]) n).
        cbv zeta in IH. rewrite length_app in IH. cbn [length] in IH.
        replace (Z.of_nat (length pre) + 1) with (Z.of_nat (length pre + 1)) by lia.
        rewrite <- app_assoc in IH. cbn [app] in IH. rewrite IH.
        cbn [Nat.leb Nat.sub map app].
        destruct (length (filter (fun i0 => nth (Z.to_nat (i0 - 1)) b false) l) <=? n)%nat;
          [|reflexivity].
        rewrite <- app_assoc. cbn [app]. do 2 f_equal. lia.
    + apply IH. intros j Hj. apply Hl. now right.
Qed.

Lemma str_run (b : Possible.t) (width : Z) :
  length b = 9%nat -> 0 <= width ->
  Possible.str b width =
  if Possible.count b <=? width then Ret (cell_text width b) else UB.
Proof.
  intros Hl Hw. unfold Possible.str.
  destruct (Z.ltb_spec width 0); [lia|].
  change (repeat " "%char (Z.to_nat width), 0)
    with ([] ++ repeat " "%char (Z.to_nat width), Z.of_nat (@length ascii [])).
  rewrite (str_loop b (zrange 1 9)) by (intros i Hi; apply zrange_In in Hi; lia).
  cbv zeta. fold (candidates b). rewrite (candidates_count b Hl).
  unfold Possible.count.
  destruct (Nat.leb_spec (Possible.countN b) (Z.to_nat width));
    destruct (Z.leb_spec (Z.of_nat (Possible.countN b)) width); try lia.
  - cbn [bind fst app]. unfold cell_text, Possible.count. do 3 f_equal. lia.
  - reflexivity.
Qed.

(** [str(width)] on a set of nine flags: when the candidates fit into the
    width, the result has exactly [width] characters, the digits of the
    candidates in increasing order followed by blanks; when there are
    more candidates than the width, the loop writes past the end of the
    string. *)
Theorem str_spec (b : Possible.t) (width : Z) :
  length b = 9%nat -> 0 <= width ->
  (Possible.count b <= width ->
   Possible.str b width = Ret (cell_text width b) /\
   Z.of_nat (length (cell_text width b)) = width) /\
  (width < Possible.count b -> Possible.str b width = UB).
Proof.
  intros Hl Hw. rewrite (str_run b width Hl Hw). split; intros H.
  - destruct (Z.leb_spec (Possible.count b) width); [|lia]. split; [reflexivity|].
    unfold cell_text. rewrite length_app, length_map, repeat_length.
    rewrite (candidates_count b Hl). unfold Possible.count in *. lia.
  - destruct (Z.leb_spec (Possible.count b) width); [lia|reflexivity].
Qed.

Lemma str_spec_witness :
  (Possible.count Possible.new <= 9 ->
   Possible.str Possible.new 9 = Ret (cell_text 9 Possible.new) /\
   Z.of_nat (length (cell_text 9 Possible.new)) = 9) /\
  (9 < Possible.count Possible.new -> Possible.str Possible.new 9 = UB).
Proof.
  apply (str_spec Possible.new 9); [reflexivity|lia].
Defined.

(** * The display *)

Lemma write_width_ge (cells : Board) :
  1 <= Sudoku.write_width cells /\
  forall c, In c cells -> 1 + Possible.count c <= Sudoku.write_width cells.
Proof.
  unfold Sudoku.write_width.
  assert (H : forall w,
             w <= fold_left (fun w c => Z.max w (1 + Possible.count c)) cells w /\
             forall c, In c cells ->
                       1 + Possible.count c
                       <= fold_left (fun w c => Z.max w (1 + Possible.count c)) cells w).
  { induction cells as [|p cells IH]; intros w; cbn [fold_left].
    - split; [lia|]. intros c [].
    - destruct (IH (Z.max w (1 + Possible.count p))) as [H1 H2]. split; [lia|].
      intros c [<-|Hin]; [lia|now apply H2]. }
  exact (H 1).
Qed.

Lemma foldM_append {A B : Type} (f : A -> list B -> res (list B))
      (g : A -> list B) (l : list A) :
  (forall a o, In a l -> f a o = Ret (o ++ g a)) ->
  forall o, foldM f l o = Ret (o ++ concat (map g l)).
Proof.
  induction l as [|a l IH]; intros Hf o; cbn [foldM map concat].
  - now rewrite app_nil_r.
  - rewrite (Hf a o (or_introl eq_refl)). cbn [bind].
    rewrite IH by (intros; apply Hf; now right). now rewrite <- app_assoc.
Qed.

(** [write] on a board of 81 cells of 9 flags never leaves a string or
    the board: it puts [render cells] on the stream. *)
Lemma write_run (cells : Board) : wf cells -> Sudoku.write cells = Ret (render cells).
Proof.
  intros Hwf. unfold Sudoku.write, render. cbv zeta.
  destruct (write_width_ge cells) as [Hw1 Hwc].
  set (w := Sudoku.write_width cells) in *.
  rewrite (foldM_append _
             (fun i => rule w i
                       ++ concat (map (fun j => bar j ++ cell_text w (cell cells (i * 9 + j)))
                                      (zrange 0 9))
                       ++ [Sudoku.newline])); [reflexivity|].
  intros i o Hi. apply zrange_In in Hi.
  rewrite (foldM_append _ (fun j => bar j ++ cell_text w (cell cells (i * 9 + j)))).
  - cbn [bind]. f_equal. unfold rule.
    destruct ((i =? 3) || (i =? 6)); cbn [app]; now rewrite <- !app_assoc.
  - intros j o' Hj. apply zrange_In in Hj.
    rewrite (cell_get cells (i * 9 + j) Hwf) by lia. cbn [bind].
    assert (Hin : In (cell cells (i * 9 + j)) cells).
    { unfold cell. apply nth_In. destruct Hwf as [Hl _]. lia. }
    rewrite (str_run _ w) by (try apply wf_cell_length; auto; lia).
    specialize (Hwc _ Hin).
    destruct (Z.leb_spec (Possible.count (cell cells (i * 9 + j))) w); [|lia].
    cbn [bind]. f_equal. unfold bar.
    destruct ((j =? 3) || (j =? 6)); cbn [app]; now rewrite <- ?app_assoc.
Qed.

Lemma strip_app (a b : list ascii) : strip (a ++ b) = strip a ++ strip b.
Proof. apply filter_app. Qed.

Lemma strip_repeat (c : ascii) (n : nat) :
  counts_as_cell c = false -> strip (repeat c n) = [].
Proof.
  intros H. induction n as [|n IH]; [reflexivity|].
  cbn [repeat]. unfold strip in *. cbn [filter]. now rewrite H.
Qed.

Lemma given_digit_char (d : Z) : 1 <= d <= 9 -> given (Possible.digit_char d) = Some d.
Proof.
  intros Hd.
  assert (H : d = 1 \/ d = 2 \/ d = 3 \/ d = 4 \/ d = 5 \/ d = 6 \/ d = 7 \/
              d = 8 \/ d = 9) by lia.
  repeat (destruct H as [->|H]; [reflexivity|]). subst. reflexivity.
Qed.

Lemma candidates_range (p : Possible.t) i : In i (candidates p) -> 1 <= i <= 9.
Proof.
  unfold candidates. intros H. apply filter_In in H. destruct H as [H _].
  apply zrange_In in H. lia.
Qed.

Lemma strip_cell_text (w : Z) (p : Possible.t) :
  strip (cell_text w p) = map Possible.digit_char (candidates p).
Proof.
  unfold cell_text. rewrite strip_app, strip_repeat, app_nil_r by reflexivity.
  pose proof (candidates_range p) as Hr. induction (candidates p) as [|i l IH];
    [reflexivity|].
  cbn [map]. unfold strip in *. cbn [filter]. unfold counts_as_cell at 1.
  rewrite given_digit_char by (apply Hr; now left).
  f_equal. apply IH. intros j Hj. apply Hr. now right.
Qed.

Lemma strip_bar (j : Z) : strip (bar j) = [].
Proof. unfold bar. destruct ((j =? 3) || (j =? 6)); reflexivity. Qed.

Lemma strip_rule (w i : Z) : strip (rule w i) = [].
Proof.
  unfold rule. destruct ((i =? 3) || (i =? 6)); [|reflexivity].
  rewrite !strip_app, !strip_repeat by reflexivity. reflexivity.
Qed.

Lemma strip_concat_map {A : Type} (f g : A -> list ascii) (l : list A) :
  (forall a, In a l -> strip (f a) = g a) ->
  strip (concat (map f l)) = concat (map g l).
Proof.
  induction l as [|a l IH]; intros H; [reflexivity|].
  cbn [map concat]. rewrite strip_app, (H a (or_introl eq_refl)).
  f_equal. apply IH. intros; apply H; now right.
Qed.

(** The cell index [i * 9 + j] runs through the cells row by row. *)
Lemma grid_index {B : Type} (h : Z -> list B) :
  concat (map (fun i => concat (map (fun j => h (i * 9 + j)) (zrange 0 9)))
              (zrange 0 9))
  = concat (map h (zrange 0 81)).
Proof. cbn. rewrite !app_nil_r, <- !app_assoc. reflexivity. Qed.

Lemma map_cell_range {B : Type} (g : Possible.t -> B) (cells : Board) :
  map (fun k => g (cell cells k)) (zrange 0 (length cells)) = map g cells.
Proof.
  assert (H : forall pre : Board,
             map (fun k => g (cell (pre ++ cells) k))
                 (zrange (Z.of_nat (length pre)) (length cells))
             = map g cells).
  { induction cells as [|c cells IH]; intros pre; [reflexivity|].
    cbn [length zrange map]. f_equal.
    - unfold cell. rewrite Nat2Z.id, app_nth2, Nat.sub_diag by lia. reflexivity.
    - specialize (IH (pre ++ [c])). rewrite <- app_assoc in IH. cbn [app] in IH.
      rewrite length_app in IH. cbn [length] in IH.
      replace (Z.of_nat (length pre + 1)) with (Z.of_nat (length pre) + 1) in IH by lia.
      exact IH. }
  exact (H []).
Qed.

Lemma strip_render (cells : Board) :
  wf cells ->
  strip (render cells)
  = concat (map (fun p => map Possible.digit_char (candidates p)) cells).
Proof.
  intros [Hl _]. unfold render. cbv zeta.
  rewrite (strip_concat_map _
             (fun i => concat (map (fun j => map Possible.digit_char
                                               (candidates (cell cells (i * 9 + j))))
                                   (zrange 0 9)))).
  - rewrite (grid_index (fun k => map Possible.digit_char (candidates (cell cells k)))).
    change 81%nat with 81%nat. rewrite <- Hl.
    apply (f_equal (@concat ascii)).
    apply (map_cell_range (fun p => map Possible.digit_char (candidates p))).
  - intros i _. rewrite !strip_app, strip_rule. cbn [app].
    replace (strip [Sudoku.newline]) with (@nil ascii) by reflexivity.
    rewrite app_nil_r. apply strip_concat_map.
    intros j _. now rewrite strip_app, strip_bar, strip_cell_text.
Qed.

Lemma cell_text_length (cells : Board) (k : Z) :
  wf cells -> 0 <= k < 81 ->
  length (cell_text (Sudoku.write_width cells) (cell cells k))
  = Z.to_nat (Sudoku.write_width cells).
Proof.
  intros Hwf Hk. destruct (write_width_ge cells) as [Hw1 Hwc].
  assert (Hin : In (cell cells k) cells).
  { unfold cell. apply nth_In. destruct Hwf as [Hl _]. lia. }
  specialize (Hwc _ Hin). unfold cell_text.
  rewrite length_app, length_map, repeat_length.
  rewrite (candidates_count _ (wf_cell_length cells k Hwf Hk)).
  unfold Possible.count in *. lia.
Qed.

Lemma render_length (cells : Board) :
  wf cells ->
  Z.of_nat (length (render cells)) = 99 * Sudoku.write_width cells + 53.
Proof.
  intros Hwf. destruct (write_width_ge cells) as [Hw1 _].
  unfold render, rule. cbv zeta.
  assert (H3 : Z.of_nat (length (repeat "-"%char (Z.to_nat (3 * Sudoku.write_width cells))))
               = 3 * Sudoku.write_width cells) by (rewrite repeat_length; lia).
  set (dashes := repeat "-"%char (Z.to_nat (3 * Sudoku.write_width cells))) in *.
  clearbody dashes.
  remember (99 * Sudoku.write_width cells + 53) as size eqn:Esize.
  cbn [zrange map concat Z.add].
  unfold bar. cbn [Z.eqb Pos.eqb orb Z.mul Pos.mul Z.add Pos.add Pos.succ].
  repeat rewrite length_app. cbn [length].
  rewrite !(cell_text_length cells) by (try assumption; lia).
  lia.
Qed.

(** [write] on a well-formed board succeeds; the characters it puts on the
    stream that are digits are, in this order, the candidates of cell 0 in
    increasing order, then those of cell 1, and so on; every other
    character is layout; and the output has 99 w + 53 characters for the
    field width w, which is one more than the largest candidate count. *)
Theorem write_digits (cells : Board) :
  wf cells ->
  exists out,
    Sudoku.write cells = Ret out /\
    strip out = concat (map (fun p => map Possible.digit_char (candidates p)) cells) /\
    Z.of_nat (length out) = 99 * Sudoku.write_width cells + 53 /\
    (forall c, In c cells -> Possible.count c < Sudoku.write_width cells).
Proof.
  intros Hwf. exists (render cells). split; [now apply write_run|].
  split; [now apply strip_render|]. split; [now apply render_length|].
  intros c Hc. destruct (write_width_ge cells) as [_ H]. specialize (H c Hc). lia.
Qed.

Lemma write_digits_witness :
  exists out,
    Sudoku.write board_of_1 = Ret out /\
    strip out = concat (map (fun p => map Possible.digit_char (candidates p)) board_of_1) /\
    Z.of_nat (length out) = 99 * Sudoku.write_width board_of_1 + 53 /\
    (forall c, In c board_of_1 -> Possible.count c < Sudoku.write_width board_of_1).
Proof.
  apply (write_digits board_of_1). apply wfb_wf. reflexivity.
Defined.

(** * Reading back what was displayed *)

(** The constructor skips the characters that [strip] removes. *)
Lemma ctor_loop_strip t (s : list ascii) : forall cells k,
  Sudoku.ctor_loop t (string_of_list_ascii s) cells k
  = Sudoku.ctor_loop t (string_of_list_ascii (strip s)) cells k.
Proof.
  induction s as [|c s IH]; intros cells k; [reflexivity|].
  cbn [string_of_list_ascii]. rewrite ctor_loop_next.
  unfold strip. cbn [filter]. fold (strip s). unfold counts_as_cell.
  destruct (given c) as [d|] eqn:Hc.
  - cbn [string_of_list_ascii]. rewrite ctor_loop_next, Hc.
    destruct (Sudoku.assign_run t cells k d) as [r| |]; cbn [bind]; try reflexivity.
    destruct (fst r); [apply IH|reflexivity].
  - destruct (blank c) eqn:Hb.
    + cbn [string_of_list_ascii]. rewrite ctor_loop_next, Hc, Hb. apply IH.
    + apply IH.
Qed.

Lemma candidates_single (p : Possible.t) :
  length p = 9%nat -> Possible.countN p = 1%nat -> candidates p = [Possible.val p].
Proof.
  intros Hl H1. pose proof (candidates_count p Hl) as Hc. rewrite H1 in Hc.
  destruct (candidates p) as [|i [|j l]] eqn:E; try discriminate.
  assert (Hin : In i (candidates p)) by (rewrite E; now left).
  unfold candidates in Hin. apply filter_In in Hin. destruct Hin as [Hr Hon].
  apply zrange_In in Hr. rewrite (val_on p _ H1 Hon). f_equal. lia.
Qed.

Lemma strip_render_solved (b : Board) :
  wf b -> Sudoku.is_solved b = true -> strip (render b) = line_of b.
Proof.
  intros Hwf Hs. rewrite (strip_render b Hwf). unfold line_of.
  destruct Hwf as [_ Hall]. induction b as [|p b IH]; [reflexivity|].
  cbn [Sudoku.is_solved] in Hs.
  destruct (Z.eqb_spec (Possible.count p) 1) as [E|]; [|discriminate].
  cbn [negb] in Hs. inversion Hall; subst. cbn [map concat].
  rewrite candidates_single by (auto; unfold Possible.count in E; lia).
  cbn [map app]. f_equal. now apply IH.
Qed.

Lemma cell_app_head (pre l : Board) (p : Possible.t) :
  cell (pre ++ p :: l) (Z.of_nat (length pre)) = p.
Proof.
  unfold cell. rewrite Nat2Z.id, app_nth2, Nat.sub_diag by lia. reflexivity.
Qed.

Section ReadBack.

Variable t : Topology.
Hypothesis Ht : topo_ok t = true.
Variable b : Board.
Hypothesis Hb : solution t b.

Lemma solved_cell_facts k :
  0 <= k < 81 ->
  1 <= Possible.val (cell b k) <= 9 /\ on b k (Possible.val (cell b k)) = true.
Proof.
  intros Hk. pose proof Hb as (Hwf & _).
  pose proof (sol_count t b Hb k Hk) as H1.
  assert (Hpos : (0 < Possible.countN (cell b k))%nat)
    by (unfold Possible.count in H1; lia).
  pose proof (val_range b k Hwf Hk Hpos) as Hv. split; [exact Hv|].
  apply (single_on b k _ Hwf Hk H1 Hv). reflexivity.
Qed.

Lemma agrees_line_of (l : Board) : forall pre,
  b = pre ++ l ->
  agrees b (string_of_list_ascii (line_of l)) (Z.of_nat (length pre)) = true.
Proof.
  induction l as [|p l IH]; intros pre E; [reflexivity|].
  cbn [line_of map string_of_list_ascii agrees].
  assert (Hk : 0 <= Z.of_nat (length pre) < 81).
  { destruct Hb as ([Hl _] & _). rewrite E, length_app in Hl. cbn [length] in Hl. lia. }
  destruct (solved_cell_facts _ Hk) as [Hv Hon].
  rewrite E, cell_app_head in Hv, Hon. rewrite <- E in Hon.
  rewrite (given_digit_char _ Hv), Hon. cbn [andb].
  specialize (IH (pre ++ [p])). rewrite length_app in IH. cbn [length] in IH.
  replace (Z.of_nat (length pre + 1)) with (Z.of_nat (length pre) + 1) in IH by lia.
  apply IH. rewrite <- app_assoc. exact E.
Qed.

Lemma givens_line_of cells (l : Board) : forall pre,
  b = pre ++ l ->
  givens_set cells (string_of_list_ascii (line_of l)) (Z.of_nat (length pre)) ->
  forall k, Z.of_nat (length pre) <= k < 81 ->
            forall i, 1 <= i <= 9 -> i <> Possible.val (cell b k) ->
                      on cells k i = false.
Proof.
  induction l as [|p l IH]; intros pre E Hg k Hk i Hi Hne.
  - exfalso. destruct Hb as ([Hl _] & _). rewrite E, app_nil_r in Hl. lia.
  - cbn [line_of map string_of_list_ascii givens_set] in Hg.
    assert (Hk0 : 0 <= Z.of_nat (length pre) < 81) by lia.
    destruct (solved_cell_facts _ Hk0) as [Hv _].
    pose proof (cell_app_head pre l p) as Hp. rewrite <- E in Hp.
    rewrite Hp in Hv. rewrite (given_digit_char _ Hv) in Hg.
    destruct Hg as [Hoff Hg].
    destruct (Z.eq_dec k (Z.of_nat (length pre))) as [->|Hkne].
    + apply Hoff; [exact Hi|]. now rewrite <- Hp.
    + apply (IH (pre ++ [p])); auto.
      * rewrite <- app_assoc. exact E.
      * rewrite length_app. cbn [length].
        replace (Z.of_nat (length pre + 1)) with (Z.of_nat (length pre) + 1) by lia.
        exact Hg.
      * rewrite length_app. cbn [length]. lia.
Qed.

(** The constructor on the 81 digits of a solution rebuilds it. *)
Lemma construct_line_of :
  Sudoku.Sudoku t (string_of_list_ascii (line_of b)) = Ret (b, []).
Proof.
  pose proof Hb as (Hwf & Hs & _).
  assert (Hfresh : built_ok t Sudoku.fresh).
  { split; [exact wf_fresh|].
    split; [apply consistent_fresh|exact nonempty_fresh]. }
  pose proof (agrees_line_of b [] eq_refl) as Hag. cbn [length] in Hag.
  destruct (ctor_loop_keeps t Ht b _ Hb Sudoku.fresh 0 ltac:(lia) Hfresh
                            (le_board_fresh b Hwf) Hag)
    as (cells & E & Hle & _ & (Hwfc & _ & _) & Hg).
  unfold Sudoku.Sudoku. rewrite E. do 2 f_equal. symmetry.
  apply le_board_solved_eq; [exact Hle|exact Hs|].
  apply is_solved_all. intros k Hk.
  assert (Hk81 : 0 <= k < 81).
  { destruct Hwfc as [Hl _]. unfold Board, Possible.t in *. lia. }
  destruct (solved_cell_facts k Hk81) as [Hv Hon].
  destruct (countN_only (cell cells k) (Z.to_nat (Possible.val (cell b k) - 1)))
    as [Hle1 _].
  { intros m Hm Hmn. rewrite (wf_cell_length cells k Hwfc Hk81) in Hm.
    pose proof (givens_line_of cells b [] eq_refl Hg k ltac:(cbn [length]; lia)
                               (Z.of_nat m + 1) ltac:(lia) ltac:(lia)) as Hoff.
    unfold on in Hoff.
    replace (Z.to_nat (Z.of_nat m + 1 - 1)) with m in Hoff by lia. exact Hoff. }
  assert (Hpos : (0 < Possible.countN (cell cells k))%nat).
  { eapply countN_pos. apply (le_board_on _ _ _ _ Hle) in Hon. exact Hon. }
  unfold Possible.count. lia.
Qed.

End ReadBack.

(** What [write] displays for a solution, the constructor reads back as
    that solution: the layout characters are skipped, the 81 digits are
    assigned without a contradiction, and the board is the one that was
    displayed. *)
Theorem write_then_construct (t : Topology) (b : Board) :
  topo_ok t = true -> solution t b ->
  exists out,
    Sudoku.write b = Ret out /\
    Sudoku.Sudoku t (string_of_list_ascii out) = Ret (b, []).
Proof.
  intros Ht Hb. pose proof Hb as (Hwf & Hs & _).
  exists (render b). split; [now apply write_run|].
  unfold Sudoku.Sudoku. rewrite ctor_loop_strip, (strip_render_solved b Hwf Hs).
  exact (construct_line_of t Ht b Hb).
Qed.

Lemma write_then_construct_witness :
  exists out,
    Sudoku.write easy_board = Ret out /\
    Sudoku.Sudoku topo (string_of_list_ascii out) = Ret (easy_board, []).
Proof.
  apply (write_then_construct topo easy_board).
  - exact topo_ok_topo.
  - exact solution_easy_board.
Defined.

(** * The tables that [init] builds *)

Lemma init_checked : forallb (init_check topo) (zrange 0 81) = true.
Proof. vm_compute. reflexivity. Qed.

(** [init] fills the tables with the rows, columns and boxes of the grid:
    cell [k] belongs to its row, its column and its box, a group holds [k]
    exactly when it is one of these three, and the neighbours of [k] are
    the other cells of its row, column or box: 20 cells in 24 entries,
    those that share the box and a line with [k] being pushed twice. *)
Theorem init_tables :
  exists t,
    Sudoku.init topo0 = Ret t /\
    forall k, 0 <= k < 81 ->
      groups_of t k = units_of k /\
      (forall x, 0 <= x < 27 -> (In k (group t x) <-> In x (units_of k))) /\
      length (nbrs t k) = 24%nat /\
      length (nodup Z.eq_dec (nbrs t k)) = 20%nat /\
      (forall j, In j (nbrs t k) <->
                 0 <= j < 81 /\ j <> k /\ same_unit k j = true).
Proof.
  exists topo. split; [exact topo_init|]. intros k Hk.
  pose proof init_checked as H. rewrite forallb_forall in H.
  specialize (H k (proj2 (zrange_In 0 81 k) ltac:(lia))).
  unfold init_check in H.
  apply andb_prop in H. destruct H as [H H5].
  apply andb_prop in H. destruct H as [H H4].
  apply andb_prop in H. destruct H as [H H3].
  apply andb_prop in H. destruct H as [H H2'].
  apply andb_prop in H. destruct H as [H1 H2].
  rewrite forallb_forall in H3, H4, H5.
  split.
  { destruct (list_eq_dec Z.eq_dec (groups_of topo k) (units_of k));
      [assumption|discriminate]. }
  split.
  { intros x Hx. specialize (H5 x (proj2 (zrange_In 0 27 x) ltac:(lia))).
    apply Bool.eqb_prop in H5. rewrite <- !memZ_In, H5. reflexivity. }
  split; [now apply Nat.eqb_eq|].
  split; [now apply Nat.eqb_eq|].
  intros j. split.
  - intros Hin. assert (Hj : 0 <= j < 81).
    { apply in_range_spec. now apply H3. }
    specialize (H4 j (proj2 (zrange_In 0 81 j) ltac:(lia))).
    apply Bool.eqb_prop in H4. apply memZ_In in Hin. rewrite H4 in Hin.
    apply andb_prop in Hin. destruct Hin as [Hne Hs].
    split; [exact Hj|]. split; [|exact Hs].
    intros ->. rewrite Z.eqb_refl in Hne. discriminate.
  - intros (Hj & Hne & Hs).
    specialize (H4 j (proj2 (zrange_In 0 81 j) ltac:(lia))).
    apply Bool.eqb_prop in H4. apply memZ_In. rewrite H4, Hs.
    destruct (Z.eqb_spec j k); [contradiction|reflexivity].
Qed.

(** * The program as written: the tables are never filled *)

Lemma topo0_row {A : Type} (k : Z) :
  0 <= k < 81 -> vget (repeat (@nil A) 81) k = Ret [].
Proof.
  intros Hk. rewrite (vget_range _ k []) by (rewrite repeat_length; lia).
  now rewrite nth_repeat.
Qed.

Lemma clear_on_other cells k a d :
  wf cells -> 0 <= k < 81 -> 1 <= a -> 1 <= d -> d <> a ->
  on (clear cells k a) k d = on cells k d.
Proof.
  intros Hwf Hk Ha Hd Hne. unfold on. rewrite clear_cell_same by assumption.
  apply upd_nth_other. lia.
Qed.

(** Without the tables [eliminate] only turns the flag off, and fails
    exactly when that empties the cell. *)
Lemma eliminate_topo0 fuel cells k val :
  wf cells -> 0 <= k < 81 -> 1 <= val <= 9 ->
  Sudoku.eliminate topo0 (S fuel) cells k val =
  if on cells k val
  then Ret (negb (Possible.count (cell (clear cells k val) k) =? 0),
            clear cells k val)
  else Ret (true, cells).
Proof.
  intros Hwf Hk Hv. cbn [Sudoku.eliminate].
  rewrite (cell_get cells k Hwf Hk). cbn [bind].
  rewrite (is_on_on cells k val Hwf Hk Hv). cbn [bind].
  destruct (on cells k val); cbn [negb]; [|reflexivity].
  unfold Possible.eliminate.
  rewrite vset_range by (rewrite (wf_cell_length cells k Hwf Hk); lia).
  cbn [bind].
  rewrite vset_range by (destruct Hwf; lia). cbn [bind].
  fold (clear cells k val).
  rewrite <- (clear_cell_same cells k val Hwf Hk).
  destruct (Possible.count (cell (clear cells k val) k) =? 0); [reflexivity|].
  cbn [negb topo0 _neighbors _groups_of].
  rewrite !(topo0_row k Hk).
  destruct (Possible.count (cell (clear cells k val) k) =? 1); reflexivity.
Qed.

Lemma assign_loop_topo0 fuel k d (l : list Z) :
  0 <= k < 81 -> 1 <= d <= 9 -> (forall i, In i l -> 1 <= i <= 9) ->
  forall cs, wf cs -> on cs k d = true ->
  exists cs',
    Sudoku.for_each
      (fun i cells => if negb (i =? d)
                      then Sudoku.eliminate topo0 (S fuel) cells k i
                      else Ret (true, cells)) l cs = Ret (true, cs') /\
    wf cs' /\ le_board cs' cs /\
    (forall c, 0 <= c -> c <> k -> cell cs' c = cell cs c) /\
    (forall i, 1 <= i <= 9 ->
               on cs' k i = on cs k i && (negb (memZ i l) || (i =? d))).
Proof.
  intros Hk Hd. induction l as [|a l IH]; intros Hl cs Hwf Hon.
  - exists cs. split; [reflexivity|]. split; [exact Hwf|].
    split; [apply le_board_refl|]. split; [reflexivity|].
    intros i _. cbn. now rewrite andb_true_r.
  - assert (Ha : 1 <= a <= 9) by (apply Hl; now left).
    assert (Hl' : forall i, In i l -> 1 <= i <= 9) by (intros; apply Hl; now right).
    cbn [Sudoku.for_each].
    assert (Hstep : exists c1,
      (if negb (a =? d) then Sudoku.eliminate topo0 (S fuel) cs k a
       else Ret (true, cs)) = Ret (true, c1) /\
      wf c1 /\ le_board c1 cs /\ on c1 k d = true /\
      (forall c, 0 <= c -> c <> k -> cell c1 c = cell cs c) /\
      (forall i, 1 <= i <= 9 ->
                 on c1 k i = on cs k i && (negb (i =? a) || (i =? d)))).
    { destruct (Z.eqb_spec a d) as [->|Hne]; cbn [negb].
      - exists cs. split; [reflexivity|]. split; [exact Hwf|].
        split; [apply le_board_refl|]. split; [exact Hon|].
        split; [reflexivity|]. intros i _.
        destruct (i =? d); cbn; now rewrite andb_true_r.
      - rewrite (eliminate_topo0 fuel cs k a Hwf Hk Ha).
        destruct (on cs k a) eqn:Hona.
        + assert (Hd' : on (clear cs k a) k d = true).
          { rewrite clear_on_other; auto; lia. }
          assert (Hpos : (0 < Possible.countN (cell (clear cs k a) k))%nat).
          { eapply countN_pos. exact Hd'. }
          exists (clear cs k a).
          destruct (Z.eqb_spec (Possible.count (cell (clear cs k a) k)) 0) as [E|_].
          { unfold Possible.count in E. lia. }
          split; [reflexivity|].
          split; [eapply le_board_wf; [apply clear_le|exact Hwf]|].
          split; [apply clear_le|]. split; [exact Hd'|].
          split; [intros c Hc Hck; apply clear_cell_other; auto; lia|].
          intros i Hi. destruct (Z.eqb_spec i a) as [->|Hia].
          * rewrite clear_off by assumption.
            destruct (Z.eqb_spec a d); [contradiction|]. now rewrite andb_false_r.
          * rewrite clear_on_other by (auto; lia). cbn. now rewrite andb_true_r.
        + exists cs. split; [reflexivity|]. split; [exact Hwf|].
          split; [apply le_board_refl|]. split; [exact Hon|].
          split; [reflexivity|]. intros i _.
          destruct (Z.eqb_spec i a) as [->|Hia].
          * now rewrite Hona.
          * cbn. now rewrite andb_true_r. }
    destruct Hstep as (c1 & E1 & Hwf1 & L1 & Hon1 & Hoth1 & Hk1).
    rewrite E1. cbn [bind fst snd].
    destruct (IH Hl' c1 Hwf1 Hon1) as (cs' & E & Hwf' & L & Hoth & Hk').
    exists cs'. split; [exact E|]. split; [exact Hwf'|].
    split; [eapply le_board_trans; eauto|].
    split.
    + intros c Hc Hck. rewrite Hoth by assumption. now apply Hoth1.
    + intros i Hi. rewrite (Hk' i Hi), (Hk1 i Hi). unfold memZ. cbn [existsb].
      fold (memZ i l).
      destruct (on cs k i), (i =? a), (memZ i l), (i =? d); reflexivity.
Qed.

Lemma only_digit cells k v :
  wf cells -> 0 <= k < 81 -> 1 <= v <= 9 ->
  (forall i, 1 <= i <= 9 -> on cells k i = (i =? v)) ->
  Possible.count (cell cells k) = 1 /\ Possible.val (cell cells k) = v.
Proof.
  intros Hwf Hk Hv H.
  assert (Hon : on cells k v = true) by (rewrite H by lia; apply Z.eqb_refl).
  destruct (countN_only (cell cells k) (Z.to_nat (v - 1))) as [Hle _].
  { intros m Hm Hmn. rewrite (wf_cell_length cells k Hwf Hk) in Hm.
    specialize (H (Z.of_nat m + 1) ltac:(lia)). unfold on in H.
    replace (Z.to_nat (Z.of_nat m + 1 - 1)) with m in H by lia.
    rewrite H. apply Z.eqb_neq. lia. }
  assert (Hpos : (0 < Possible.countN (cell cells k))%nat)
    by (eapply countN_pos; exact Hon).
  assert (H1 : Possible.countN (cell cells k) = 1%nat) by lia.
  split; [unfold Possible.count; lia|].
  rewrite (val_on (cell cells k) _ H1 Hon). lia.
Qed.

(** Without the tables [assign] touches its own cell only, and succeeds
    whenever the digit is a candidate there. *)
Lemma assign_topo0 fuel cells k d :
  wf cells -> 0 <= k < 81 -> 1 <= d <= 9 -> on cells k d = true ->
  exists cells',
    Sudoku.assign topo0 (S fuel) cells k d = Ret (true, cells') /\
    wf cells' /\ le_board cells' cells /\
    (forall c, 0 <= c -> c <> k -> cell cells' c = cell cells c) /\
    Possible.count (cell cells' k) = 1 /\ Possible.val (cell cells' k) = d.
Proof.
  intros Hwf Hk Hd Hon.
  destruct (assign_loop_topo0 fuel k d (zrange 1 9) Hk Hd) with (cs := cells)
    as (cs' & E & Hwf' & L & Hoth & Hflags); auto.
  { intros i Hi. apply zrange_In in Hi. lia. }
  exists cs'. split; [exact E|]. split; [exact Hwf'|]. split; [exact L|].
  split; [exact Hoth|].
  apply only_digit; auto. intros i Hi. rewrite (Hflags i Hi).
  assert (Hm : memZ i (zrange 1 9) = true).
  { apply memZ_In, zrange_In. lia. }
  rewrite Hm. cbn [negb orb].
  destruct (Z.eqb_spec i d) as [->|_]; [now rewrite Hon|apply andb_false_r].
Qed.

Lemma first_some_zrange {B : Type} (body : Z -> res (option B)) (x : B) (v : Z) :
  forall n lo,
    lo <= v < lo + Z.of_nat n ->
    (forall i, lo <= i < v -> body i = Ret None) ->
    body v = Ret (Some x) ->
    Sudoku.first_some body (zrange lo n) = Ret (Some x).
Proof.
  induction n as [|n IH]; intros lo Hv Hpre Hhit; [lia|].
  cbn [zrange Sudoku.first_some].
  destruct (Z.eq_dec lo v) as [->|Hne].
  - rewrite Hhit. reflexivity.
  - rewrite (Hpre lo) by lia. cbn [bind]. apply IH; auto; try lia.
    intros i Hi. apply Hpre. lia.
Qed.

Lemma lowest_on cells k i :
  wf cells -> 0 <= k < 81 -> 1 <= i < Possible.val (cell cells k) ->
  on cells k i = false.
Proof.
  intros Hwf Hk Hi. unfold Possible.val in Hi. unfold on.
  destruct (Possible.find_true (cell cells k)) as [n|] eqn:E; [|lia].
  apply find_true_Some in E. apply (proj2 E). lia.
Qed.

Lemma val_is_on cells k :
  nonempty cells k -> on cells k (Possible.val (cell cells k)) = true.
Proof.
  unfold nonempty, on, Possible.val. intros Hpos.
  destruct (Possible.find_true (cell cells k)) as [n|] eqn:E.
  - apply find_true_Some in E.
    replace (Z.to_nat (1 + Z.of_nat n - 1)) with n by lia. exact (proj1 E).
  - apply find_true_None in E. lia.
Qed.

Lemma solve_topo0 fuel : forall b,
  wf b -> (forall c, 0 <= c < 81 -> nonempty b c) ->
  (Sudoku.total b < fuel)%nat ->
  exists r,
    Sudoku.solve topo0 fuel (Some b) = Ret (Some r) /\
    wf r /\ Sudoku.is_solved r = true /\
    forall c, 0 <= c < 81 -> Possible.val (cell r c) = Possible.val (cell b c).
Proof.
  induction fuel as [|fuel IH]; intros b Hwf Hne Hfuel; [lia|].
  destruct (solve_search topo0 fuel b) as (_ & Hsolved & Hsearch).
  destruct (Sudoku.is_solved b) eqn:Hs.
  { exists b. split; [now apply Hsolved|]. auto. }
  destruct (least_count_found b) as [Hm1 Hfound]. cbv zeta in Hm1, Hfound.
  assert (Hlen : Z.of_nat (length b) = 81).
  { destruct Hwf as [Hl _]. unfold Board, Possible.t in *. lia. }
  assert (Hk : Sudoku.least_count b <> -1).
  { intros Hk. rewrite (is_solved_all b) in Hs; [discriminate|].
    intros c Hc. destruct Hm1 as [Hm1 _]. specialize (Hm1 Hk c Hc).
    specialize (Hne c ltac:(lia)). unfold nonempty, Possible.count in *. lia. }
  specialize (Hfound Hk). destruct Hfound as (Hk81 & Hgt & _).
  rewrite Hlen in Hk81.
  rewrite (Hsearch eq_refl Hwf Hk). clear Hsearch Hsolved Hm1.
  set (k := Sudoku.least_count b) in *.
  pose proof (val_range b k Hwf Hk81 (Hne k Hk81)) as Hv.
  pose proof (val_is_on b k (Hne k Hk81)) as Hon.
  destruct (assign_topo0 (Sudoku.total b) b k _ Hwf Hk81 Hv Hon)
    as (b1 & Ea & Hwf1 & L1 & Hoth & Hc1 & Hv1).
  assert (Hlt : (Sudoku.total b1 < Sudoku.total b)%nat).
  { apply (total_lt_cell b1 b (Z.to_nat k) L1); [lia|].
    fold (cell b1 k). fold (cell b k). unfold Possible.count in *. lia. }
  destruct (IH b1 Hwf1) as (r & Er & Hwfr & Hsr & Hvr); [|lia|].
  { intros c Hc. destruct (Z.eq_dec c k) as [->|Hck].
    - unfold nonempty, Possible.count in *. lia.
    - unfold nonempty. rewrite Hoth by lia. now apply Hne. }
  exists r. split.
  - apply first_some_zrange with (v := Possible.val (cell b k)); [lia| |].
    + intros i Hi. now rewrite (lowest_on b k i Hwf Hk81 Hi).
    + rewrite Hon. unfold Sudoku.assign_run. rewrite Ea. cbn [bind fst snd].
      exact Er.
  - split; [exact Hwfr|]. split; [exact Hsr|].
    intros c Hc. rewrite (Hvr c Hc).
    destruct (Z.eq_dec c k) as [->|Hck]; [exact Hv1|].
    now rewrite Hoth by lia.
Qed.

Lemma countN_new : (0 < Possible.countN Possible.new)%nat.
Proof. change (Possible.countN Possible.new) with 9%nat. lia. Qed.

Lemma ctor_topo0 (s : string) : forall cells k,
  wf cells -> 0 <= k -> k + consumed s <= 81 ->
  (forall c, k <= c < 81 -> cell cells c = Possible.new) ->
  exists cells',
    Sudoku.ctor_loop topo0 s cells k = Ret (cells', []) /\
    wf cells' /\
    (forall c, 0 <= c < k -> cell cells' c = cell cells c) /\
    (forall c, k <= c < 81 ->
               nonempty cells' c /\
               Possible.val (cell cells' c) = digit_at s (c - k)).
Proof.
  induction s as [|a s IH]; intros cells k Hwf Hk Hend Hnew.
  - exists cells. split; [reflexivity|]. split; [exact Hwf|].
    split; [reflexivity|]. intros c Hc.
    split; [unfold nonempty|]; rewrite (Hnew c Hc);
      [exact countN_new|reflexivity].
  - rewrite ctor_loop_next. cbn [consumed digit_at] in *.
    pose proof (consumed_nonneg s) as Hs.
    destruct (given a) as [d|] eqn:Hg.
    + pose proof (given_range a d Hg) as Hd.
      assert (Hk81 : 0 <= k < 81) by (clear - Hk Hend Hs; lia).
      assert (Hon : on cells k d = true).
      { unfold on. rewrite (Hnew k) by lia.
        assert (Hn : (Z.to_nat (d - 1) < 9)%nat) by lia.
        revert Hn. generalize (Z.to_nat (d - 1)) as n. intros n Hn.
        do 9 (destruct n as [|n]; [reflexivity|]). lia. }
      destruct (assign_topo0 (Sudoku.total cells) cells k d Hwf Hk81 Hd Hon)
        as (c1 & Ea & Hwf1 & _ & Hoth & Hc1 & Hv1).
      unfold Sudoku.assign_run. rewrite Ea. cbn [bind fst snd negb].
      destruct (IH c1 (k + 1) Hwf1 ltac:(lia) ltac:(lia))
        as (cells' & E & Hwf' & Hold & Hnew').
      { intros c Hc. rewrite Hoth by lia. apply Hnew. lia. }
      exists cells'. split; [exact E|]. split; [exact Hwf'|]. split.
      * intros c Hc. rewrite Hold by lia. apply Hoth; lia.
      * intros c Hc. destruct (Z.eqb_spec (c - k) 0) as [E0|E0].
        -- assert (c = k) by lia. subst c. unfold nonempty.
           rewrite Hold by lia. split; [|exact Hv1].
           unfold Possible.count in Hc1. clear - Hc1. lia.
        -- replace (c - k - 1) with (c - (k + 1)) by lia. apply Hnew'. lia.
    + destruct (blank a).
      * destruct (IH cells (k + 1) Hwf ltac:(lia) ltac:(lia))
          as (cells' & E & Hwf' & Hold & Hnew').
        { intros c Hc. apply Hnew. lia. }
        exists cells'. split; [exact E|]. split; [exact Hwf'|]. split.
        -- intros c Hc. apply Hold. lia.
        -- intros c Hc. destruct (Z.eqb_spec (c - k) 0) as [E0|E0].
           ++ assert (c = k) by lia. subst c. unfold nonempty.
              rewrite Hold, (Hnew k) by lia.
              split; [exact countN_new|reflexivity].
           ++ replace (c - k - 1) with (c - (k + 1)) by lia. apply Hnew'. lia.
      * apply IH; auto.
Qed.

(** What the program computes for a line: [main] never calls
    [Sudoku::init()], so no constraint is ever propagated.  For every
    line of at most 81 cell characters the constructor reports no error,
    and [solve] returns a board on which every cell is determined: the
    cells of the givens hold their givens, whatever they are, and every
    other cell holds 1. *)
Theorem main_as_written (line : string) (fuel : nat) :
  consumed line <= 81 -> (729 < fuel)%nat ->
  exists b r,
    Sudoku.Sudoku topo0 line = Ret (b, []) /\
    main_line fuel line = Ret (Some r) /\
    wf r /\ Sudoku.is_solved r = true /\
    forall c, 0 <= c < 81 -> Possible.val (cell r c) = digit_at line c.
Proof.
  intros Hc Hfuel. unfold main_line, Sudoku.solve_line, Sudoku.Sudoku.
  destruct (ctor_topo0 line Sudoku.fresh 0 wf_fresh ltac:(lia) ltac:(lia))
    as (b & E & Hwf & _ & Hb).
  { intros c Hc0. now apply cell_fresh. }
  rewrite E. cbn [bind fst].
  destruct (solve_topo0 fuel b Hwf) as (r & Er & Hwfr & Hs & Hv).
  { intros c Hc0. now apply Hb. }
  { pose proof (le_board_total b Sudoku.fresh (le_board_fresh b Hwf)) as Ht.
    change (Sudoku.total Sudoku.fresh) with 729%nat in Ht. lia. }
  exists b, r. split; [reflexivity|].
  split; [exact Er|]. split; [exact Hwfr|]. split; [exact Hs|].
  intros c Hc0. rewrite (Hv c Hc0).
  destruct (Hb c Hc0) as [_ Hd]. now rewrite Z.sub_0_r in Hd.
Qed.

(** Without the tables nothing is propagated: [assign] of a candidate
    succeeds, leaves the cell with that digit alone and every other cell
    as it was, so the peers of the cell keep the digit. *)
Theorem assign_without_init (cells : Board) (k d : Z) (fuel : nat) :
  wf cells -> 0 <= k < 81 -> 1 <= d <= 9 -> on cells k d = true ->
  exists cells',
    Sudoku.assign topo0 (S fuel) cells k d = Ret (true, cells') /\
    wf cells' /\
    (forall i, 1 <= i <= 9 -> on cells' k i = (i =? d)) /\
    (forall c, 0 <= c < 81 -> c <> k -> cell cells' c = cell cells c).
Proof.
  intros Hwf Hk Hd Hon.
  destruct (assign_topo0 fuel cells k d Hwf Hk Hd Hon)
    as (cs' & E & Hwf' & _ & Hoth & Hc & Hv).
  exists cs'. split; [exact E|]. split; [exact Hwf'|]. split.
  - intros i Hi. destruct (Z.eqb_spec i d) as [->|Hne].
    + apply (single_on cs' k d Hwf' Hk Hc Hd). now rewrite Hv.
    + destruct (on cs' k i) eqn:Hi'; [exfalso|reflexivity].
      apply (single_on cs' k i Hwf' Hk Hc Hi) in Hi'. congruence.
  - intros c Hc0 Hne. apply Hoth; [lia|exact Hne].
Qed.

Lemma assign_without_init_witness :
  exists cells',
    Sudoku.assign topo0 1 Sudoku.fresh 0 5 = Ret (true, cells') /\
    wf cells' /\
    (forall i, 1 <= i <= 9 -> on cells' 0 i = (i =? 5)) /\
    (forall c, 0 <= c < 81 -> c <> 0 -> cell cells' c = cell Sudoku.fresh c).
Proof.
  apply (assign_without_init Sudoku.fresh 0 5 0).
  - exact wf_fresh.
  - lia.
  - lia.
  - reflexivity.
Defined.

(** Without the tables [solve] never backtracks: on every board that has
    no empty cell it returns the board on which each cell holds the
    lowest candidate it had. *)
Theorem solve_without_init (b : Board) (fuel : nat) :
  wf b -> (forall c, 0 <= c < 81 -> nonempty b c) ->
  (Sudoku.total b < fuel)%nat ->
  exists r,
    Sudoku.solve topo0 fuel (Some b) = Ret (Some r) /\
    wf r /\ Sudoku.is_solved r = true /\
    forall c, 0 <= c < 81 -> Possible.val (cell r c) = Possible.val (cell b c).
Proof.
  intros Hwf Hne Hfuel. exact (solve_topo0 fuel b Hwf Hne Hfuel).
Qed.

Lemma solve_without_init_witness :
  exists r,
    Sudoku.solve topo0 730 (Some Sudoku.fresh) = Ret (Some r) /\
    wf r /\ Sudoku.is_solved r = true /\
    forall c, 0 <= c < 81 ->
              Possible.val (cell r c) = Possible.val (cell Sudoku.fresh c).
Proof.
  apply (solve_without_init Sudoku.fresh 730).
  - exact wf_fresh.
  - exact nonempty_fresh.
  - change (Sudoku.total Sudoku.fresh) with 729%nat. lia.
Defined.

Lemma main_as_written_witness :
  exists b r,
    Sudoku.Sudoku topo0 "11" = Ret (b, []) /\
    main_line 730 "11" = Ret (Some r) /\
    wf r /\ Sudoku.is_solved r = true /\
    forall c, 0 <= c < 81 -> Possible.val (cell r c) = digit_at "11" c.
Proof.
  apply (main_as_written "11" 730).
  - vm_compute. discriminate.
  - lia.
Defined.

(** * Invariants of the propagation and of the constructor *)

(** [is_solved] is true exactly when every cell has one candidate. *)
Theorem is_solved_iff (cells : Board) :
  Sudoku.is_solved cells = true <->
  forall c, 0 <= c < Z.of_nat (length cells) -> Possible.count (cell cells c) = 1.
Proof.
  split.
  - intros Hs c Hc. now apply is_solved_cell.
  - apply is_solved_all.
Qed.

Section MoreOnPropagation.

Variable t : Topology.
Hypothesis Ht : topo_ok t = true.

(** Propagation only ever removes candidates.  Whatever [eliminate] or
    [assign] returns, the board it leaves is the board it was given with
    some flags turned off; and when the call reports success, no cell
    that had a candidate is empty and the naked-single rule is still done
    at every cell at which it was. *)
Theorem propagation_only_clears cells k val fuel r :
  wf cells -> 0 <= k < 81 -> 1 <= val <= 9 ->
  Sudoku.eliminate t fuel cells k val = Ret r \/
  Sudoku.assign t fuel cells k val = Ret r ->
  wf (snd r) /\ le_board (snd r) cells /\
  (fst r = true ->
   (forall c, 0 <= c < 81 -> nonempty cells c -> nonempty (snd r) c) /\
   (forall c, 0 <= c < 81 -> Clean t cells c -> Clean t (snd r) c)).
Proof.
  intros Hwf Hk Hv H.
  assert (P : post t cells r).
  { destruct H as [E|E].
    - exact (proj1 (eliminate_result t Ht fuel cells k val r Hwf Hk Hv E)).
    - exact (proj1 (assign_result t Ht fuel cells k val r Hwf Hk E)). }
  destruct P as [L G]. split; [eapply le_board_wf; eauto|]. split; [exact L|].
  intros Hr. destruct (G Hr) as (_ & GC & GN). split; [exact GN|exact GC].
Qed.

(** A given past the 81st cell: the constructor does not test the index
    and [assign] reads outside [_cells]. *)
Theorem construction_overflow (pre rest : string) (c : ascii) (d : Z)
        (cells : Board) :
  Sudoku.Sudoku t pre = Ret (cells, []) -> 81 <= consumed pre ->
  given c = Some d ->
  Sudoku.Sudoku t (pre ++ String c rest) = UB.
Proof.
  intros E Hn Hc. unfold Sudoku.Sudoku in *.
  pose proof (Sudoku_ok t Ht pre cells E) as ([Hl _] & _).
  rewrite (ctor_loop_app t pre (String c rest) _ _ _ E), ctor_loop_next, Hc.
  unfold Sudoku.assign_run. rewrite assign_out_of_range; [reflexivity|].
  unfold Board, Possible.t in *. lia.
Qed.



End MoreOnPropagation.

Lemma propagation_only_clears_witness :
  wf assigned_0_5 /\ le_board assigned_0_5 Sudoku.fresh /\
  (true = true ->
   (forall c, 0 <= c < 81 -> nonempty Sudoku.fresh c -> nonempty assigned_0_5 c) /\
   (forall c, 0 <= c < 81 -> Clean topo Sudoku.fresh c -> Clean topo assigned_0_5 c)).
Proof.
  apply (propagation_only_clears topo topo_ok_topo Sudoku.fresh 0 5 730
                                  (true, assigned_0_5)).
  - exact wf_fresh.
  - lia.
  - lia.
  - right. vm_compute. reflexivity.
Defined.

Lemma construction_overflow_witness :
  Sudoku.Sudoku topo (easy_line ++ "1") = UB.
Proof.
  apply (construction_overflow topo topo_ok_topo easy_line "" "1" 1 easy_board).
  - vm_compute. reflexivity.
  - vm_compute. discriminate.
  - reflexivity.
Defined.


(** The constructor reads a text as it reads the text without its layout:
    every character other than a digit or a dot is passed over without
    moving to the next cell. *)
Theorem construction_ignores_layout (t : Topology) (s : string) :
  Sudoku.Sudoku t s
  = Sudoku.Sudoku t (string_of_list_ascii (strip (list_ascii_of_string s))).
Proof.
  unfold Sudoku.Sudoku. rewrite <- ctor_loop_strip.
  now rewrite string_of_list_ascii_of_string.
Qed.
